(** * jsoncpp document model: Json::Value, its keys, its store and Json::Path

    A shallow embedding of [json_value.cpp] (with the declarations of
    [json/value.h]) and theorems about the properties stated for it.

    Conventions of the embedding.
    - Machine integers are [Z] with the wrap-around written out.
    - A [const char*] is [char_ptr]: [None] is [nullptr], [Some c] points
      at storage found at address [addr c] that holds the characters
      [bytes c] followed by the terminating NUL.  String storage is never
      written through once it exists, so a pointer carries its characters.
    - [malloc] is a bump allocator threaded through the copying code.
    - The tag [type_] and the union [value_] of a node are one sum type.
    - A [double] is a [spec_float], the IEEE 754 model of the standard
      library, compared with [SFltb], [SFleb] and [SFeqb].
    - The assertion macros depend on the build; functions that can fail
      run in the [outcome] monad. *)

From Stdlib Require Import ZArith List String Ascii Bool Lia Permutation.
From Stdlib Require Import Floats.SpecFloat.
Import ListNotations.

#[local] Set Warnings "-register-all".
#[local] Open Scope Z_scope.

(* ================================================================== *)
(** ** Integer types *)

(** Modelled from the spec: [json/config.h] and [json/forwards.h] are not
    part of the sources at hand; they declare [Int] and [UInt] as the
    32-bit [int] and [unsigned int], [Int64], [UInt64] (and the "largest"
    types) as the 64-bit ones, and [ArrayIndex] as [unsigned int].  The
    spec speaks of "a 32-bit signed Int" and of 64-bit payloads. *)
Module Config.

(** Conversion to [unsigned int] and to [int] (modulo 2^32), and to the
    64-bit types. *)
Definition to_uint32 (z : Z) : Z := z mod 2 ^ 32.
Definition to_int32 (z : Z) : Z := (z + 2 ^ 31) mod 2 ^ 32 - 2 ^ 31.
Definition to_uint64 (z : Z) : Z := z mod 2 ^ 64.
Definition to_int64 (z : Z) : Z := (z + 2 ^ 63) mod 2 ^ 64 - 2 ^ 63.

(** [std::numeric_limits] of the types above (value.h, [minInt] ...). *)
Definition minInt : Z := - 2 ^ 31.
Definition maxInt : Z := 2 ^ 31 - 1.
Definition maxUInt : Z := 2 ^ 32 - 1.
Definition minInt64 : Z := - 2 ^ 63.
Definition maxInt64 : Z := 2 ^ 63 - 1.
Definition maxUInt64 : Z := 2 ^ 64 - 1.

End Config.
Import Config.

(* ================================================================== *)
(** ** Build policy, failures, and the assertion macros of value.h *)

(** The two preprocessor switches the code depends on. *)
Record Build : Type := mkBuild {
  JSONCPP_ENABLE_ASSERTS : bool;
  NDEBUG : bool
}.

(** The checked build: the library's assertions are compiled in and
    [assert] is live. *)
Definition checked : Build :=
  {| JSONCPP_ENABLE_ASSERTS := true; NDEBUG := false |}.

(** The unchecked build: the macros expand to [static_cast<void>(0)]. *)
Definition unchecked : Build :=
  {| JSONCPP_ENABLE_ASSERTS := false; NDEBUG := true |}.

(** How a call can end other than by returning. *)
Inductive failure : Type :=
| AssertionFailed                    (* [assert] aborts the process *)
| RuntimeError (message : string)    (* [throw std::runtime_error(message)] *)
| UndefinedBehaviour.                (* the C++ standard gives no meaning *)

Inductive outcome (A : Type) : Type :=
| Ok (a : A)
| Failed (f : failure).
Arguments Ok {A} a.
Arguments Failed {A} f.

(** Sequencing: the first failure ends the computation. *)
Definition bind {A B : Type} (x : outcome A) (k : A -> outcome B) : outcome B :=
  match x with
  | Ok a => k a
  | Failed f => Failed f
  end.

Declare Scope outcome_scope.
Delimit Scope outcome_scope with outcome.
Notation "x <- c1 ;; c2" := (bind c1 (fun x => c2))
  (at level 61, c1 at next level, right associativity) : outcome_scope.
Notation "c1 ;;; c2" := (bind c1 (fun _ => c2))
  (at level 61, right associativity) : outcome_scope.
#[local] Open Scope outcome_scope.

(** [assert(condition)] of <cassert>. *)
Definition c_assert (b : Build) (condition : bool) : outcome unit :=
  if NDEBUG b then Ok tt
  else if condition then Ok tt else Failed AssertionFailed.

(** [JSONCPP_ASSERT(condition)]. *)
Definition JSONCPP_ASSERT (b : Build) (condition : bool) : outcome unit :=
  if JSONCPP_ENABLE_ASSERTS b then c_assert b condition else Ok tt.

(** [JSONCPP_FAIL_MESSAGE(message)]. *)
Definition JSONCPP_FAIL_MESSAGE (b : Build) (message : string) : outcome unit :=
  if JSONCPP_ENABLE_ASSERTS b then Failed (RuntimeError message) else Ok tt.

(** [JSONCPP_ASSERT_MESSAGE(condition, message)]. *)
Definition JSONCPP_ASSERT_MESSAGE (b : Build) (condition : bool)
    (message : string) : outcome unit :=
  if JSONCPP_ENABLE_ASSERTS b then
    if condition then Ok tt else JSONCPP_FAIL_MESSAGE b message
  else Ok tt.

(* ================================================================== *)
(** ** C strings and the allocator *)

(** NUL-terminated storage: where it is and what it holds.  The
    terminator is not among [bytes], and no NUL is. *)
Record cstr : Type := mkCstr {
  addr : N;          (* where the storage lives *)
  bytes : string     (* the characters before the terminating NUL *)
}.

(** [const char*]. *)
Definition char_ptr : Type := option cstr.

(** Pointer comparison [p == q]. *)
Definition ptr_eqb (p q : char_ptr) : bool :=
  match p, q with
  | None, None => true
  | Some a, Some b => N.eqb (addr a) (addr b)
  | _, _ => false
  end.

(** [p == nullptr]. *)
Definition is_null (p : char_ptr) : bool :=
  match p with None => true | Some _ => false end.

(** Lexicographic comparison of characters as [unsigned char]; this is
    what both [strcmp] and [std::string_view::compare] compute. *)
Fixpoint compare_chars (a b : string) : comparison :=
  match a, b with
  | EmptyString, EmptyString => Eq
  | EmptyString, String _ _ => Lt
  | String _ _, EmptyString => Gt
  | String x a', String y b' =>
      match N.compare (N_of_ascii x) (N_of_ascii y) with
      | Eq => compare_chars a' b'
      | c => c
      end
  end.

(** [strcmp] and [strlen] on the characters before the NUL. *)
Definition strcmp (p q : cstr) : comparison := compare_chars (bytes p) (bytes q).

Definition strlen (p : cstr) : Z := Z.of_nat (String.length (bytes p)).

(** [c < 0] and [c == 0] for the result [c] of a comparison. *)
Definition is_Lt (c : comparison) : bool :=
  match c with Lt => true | _ => false end.
Definition is_Eq (c : comparison) : bool :=
  match c with Eq => true | _ => false end.

(** The state of [malloc]: the next address it hands out. *)
Definition allocator : Type := N.

(** [duplicateStringValue(value)] (json_value.cpp:33) with its default
    [length = unknown], the only way the modelled code calls it on a C
    string: [strlen(value)] characters and the NUL are copied into
    [malloc]ed storage.  [malloc] is taken to succeed. *)
Definition duplicateStringValue (value : cstr) (h : allocator)
    : char_ptr * allocator :=
  (Some {| addr := h; bytes := bytes value |}, N.succ h).

(** The [n] addresses from [h] on. *)
Fixpoint addresses (h : N) (n : nat) : list N :=
  match n with
  | O => []
  | S n' => h :: addresses (N.succ h) n'
  end.

(** The state of [free]: the blocks that [malloc] has handed out and
    that have not been freed, each named by its address. *)
Definition heap : Type := list N.

(** The blocks [malloc] handed out while the allocator went from [h] to
    [h']: one at every address in between. *)
Definition malloced (h h' : allocator) : list N :=
  addresses h (N.to_nat (h' - h)).

(** [free(p)] on a pointer that is not null: defined on a block that is
    live, which it takes away; undefined on storage that [malloc] did
    not hand out, static storage for one, and on a block freed
    before. *)
Definition free (p : N) (live : heap) : outcome heap :=
  if existsb (N.eqb p) live
  then Ok (filter (fun q => negb (N.eqb p q)) live)
  else Failed UndefinedBehaviour.

(** [releaseStringValue(value)] (json_value.cpp:51). *)
Definition releaseStringValue (value : char_ptr) (live : heap) : outcome heap :=
  match value with
  | Some c => free (addr c) live
  | None => Ok live
  end.

(* ================================================================== *)
(** ** class Value::CZString (json_value.cpp:81-143) *)

(** [enum DuplicationPolicy], kept in [index_] when the key is a name. *)
Definition noDuplication : Z := 0.
Definition duplicate : Z := 1.
Definition duplicateOnCopy : Z := 2.

(** The members of [CZString]: the text of a Name key, or no text for
    an Index key; the index, or the policy of a Name key. *)
Record CZString : Type := mkCZString {
  cstr_ : char_ptr;
  index_ : Z         (* ArrayIndex *)
}.

(** [CZString(ArrayIndex index)]. *)
Definition CZString_index (index : Z) : CZString :=
  {| cstr_ := None; index_ := index |}.

(** [CZString(const char* cstr, DuplicationPolicy allocate)]. *)
Definition CZString_cstr (cstr : cstr) (allocate : Z) (h : allocator)
    : CZString * allocator :=
  if allocate =? duplicate then
    let (p, h') := duplicateStringValue cstr h in
    ({| cstr_ := p; index_ := allocate |}, h')
  else ({| cstr_ := Some cstr; index_ := allocate |}, h).

(** [CZString(const CZString& other)]: the two member initialisers. *)
Definition CZString_copy (other : CZString) (h : allocator)
    : CZString * allocator :=
  let (cstr', h') :=
    match cstr_ other with
    | Some s =>
        if negb (index_ other =? noDuplication)
        then duplicateStringValue s h
        else (cstr_ other, h)
    | None => (cstr_ other, h)
    end in
  let index' :=
    if negb (is_null (cstr_ other))
    then if index_ other =? noDuplication then noDuplication else duplicate
    else index_ other in
  ({| cstr_ := cstr'; index_ := index' |}, h').

(** [CZString::~CZString()]: the text of a key of policy [duplicate] is
    released. *)
Definition CZString_destroy (this : CZString) (live : heap) : outcome heap :=
  if negb (is_null (cstr_ this)) && (index_ this =? duplicate)
  then releaseStringValue (cstr_ this) live
  else Ok live.

(** [CZString::operator<]. *)
Definition CZString_lt (this other : CZString) : bool :=
  if ptr_eqb (cstr_ this) (cstr_ other) then false
  else
    match cstr_ this, cstr_ other with
    | Some a, Some b => is_Lt (strcmp a b)
    | _, _ => false
    end.

(** [CZString::operator==]. *)
Definition CZString_eq (this other : CZString) : bool :=
  match cstr_ this, cstr_ other with
  | Some a, Some b =>
      if ptr_eqb (cstr_ this) (cstr_ other) then true
      else is_Eq (strcmp a b)
  | _, _ => ptr_eqb (cstr_ this) (cstr_ other)
  end.

(** [CZString::index()] and [CZString::c_str()]. *)
Definition CZString_index_of (this : CZString) : Z := index_ this.
Definition CZString_c_str (this : CZString) : char_ptr := cstr_ this.

(** [CZString::length]: [strlen(cstr_)], undefined on a null pointer. *)
Definition CZString_length (this : CZString) : outcome Z :=
  match cstr_ this with
  | Some s => Ok (strlen s)
  | None => Failed UndefinedBehaviour
  end.

(** [CZString::isStaticString()]. *)
Definition CZString_isStaticString (this : CZString) : bool :=
  index_ this =? noDuplication.

(** A key is an Index key when it carries no string, a Name key otherwise. *)
Definition is_index_key (k : CZString) : bool := is_null (cstr_ k).
Definition is_name_key (k : CZString) : bool := negb (is_null (cstr_ k)).

(* ------------------------------------------------------------------ *)
(** *** struct CZStringCompare (value.h), the transparent comparator *)

Module CZStringCompare.

(** [operator()(const CZString&, const CZString&)]. *)
Definition key_key (lhs rhs : CZString) : outcome bool :=
  Ok (CZString_lt lhs rhs).

(** [std::string_view{ k.c_str(), k.length() }]. *)
Definition view_of (k : CZString) : outcome string :=
  _ <- CZString_length k ;;
  match cstr_ k with
  | Some s => Ok (bytes s)
  | None => Failed UndefinedBehaviour
  end.

(** [operator()(std::string_view lhs, const CZString& rhs)]. *)
Definition view_key (lhs : string) (rhs : CZString) : outcome bool :=
  v <- view_of rhs ;; Ok (is_Lt (compare_chars lhs v)).

(** [operator()(const CZString& lhs, std::string_view rhs)]. *)
Definition key_view (lhs : CZString) (rhs : string) : outcome bool :=
  v <- view_of lhs ;; Ok (is_Lt (compare_chars v rhs)).

(** [operator()(const char* lhs, const CZString& rhs)]. *)
Definition cstr_key (lhs : cstr) (rhs : CZString) : outcome bool :=
  match cstr_ rhs with
  | Some s => Ok (is_Lt (strcmp lhs s))
  | None => Ok false
  end.

(** [operator()(const CZString& lhs, const char* rhs)]. *)
Definition key_cstr (lhs : CZString) (rhs : cstr) : outcome bool :=
  match cstr_ lhs with
  | Some s => Ok (is_Lt (strcmp s rhs))
  | None => Ok false
  end.

End CZStringCompare.

(* ================================================================== *)
(** ** ObjectValues: [std::map<CZString, Value, CZStringCompare>]

    The store is the sequence of its entries in iteration order, which
    the operations below keep ordered by the comparator.  An iterator is
    a position in that sequence; [end()] is its length.  A pointer or a
    reference to a stored node is the iterator of its entry. *)

Module ObjectValues.
Section Operations.
Context {V : Type}.

(** Positions in the sequence and the usual accessors. *)
Definition iterator : Type := nat.

Definition size (m : list (CZString * V)) : nat := List.length m.
Definition empty (m : list (CZString * V)) : bool :=
  match m with [] => true | _ => false end.
Definition end_ (m : list (CZString * V)) : iterator := List.length m.
Definition deref (m : list (CZString * V)) (it : iterator)
    : option (CZString * V) := nth_error m it.

(** The entry before [end()], for a non-empty store. *)
Fixpoint back (m : list (CZString * V)) : option (CZString * V) :=
  match m with
  | [] => None
  | [e] => Some e
  | _ :: r => back r
  end.

Section Find.
(** [comp(key, x)] and [comp(x, key)] for the value [x] looked up. *)
Variable key_lt_x : CZString -> outcome bool.
Variable x_lt_key : CZString -> outcome bool.

(** First position whose key is not ordered before [x]. *)
Fixpoint lower_bound (m : list (CZString * V)) : outcome iterator :=
  match m with
  | [] => Ok 0%nat
  | (k, _) :: r =>
      lt <- key_lt_x k ;;
      if lt then it <- lower_bound r ;; Ok (S it) else Ok 0%nat
  end.

(** [find(x)]: the entry equivalent to [x] under the comparator,
    or [end()]. *)
Definition find (m : list (CZString * V)) : outcome iterator :=
  it <- lower_bound m ;;
  match deref m it with
  | Some (k, _) => lt <- x_lt_key k ;; Ok (if lt then end_ m else it)
  | None => Ok (end_ m)
  end.
End Find.

(** [find(const CZString&)], and [find(ArrayIndex)] through the
    converting constructor. *)
Definition find_key (m : list (CZString * V)) (x : CZString)
    : outcome iterator :=
  find (fun k => CZStringCompare.key_key k x)
       (fun k => CZStringCompare.key_key x k) m.

(** [find(std::string_view)], the heterogeneous lookup. *)
Definition find_view (m : list (CZString * V)) (x : string)
    : outcome iterator :=
  find (fun k => CZStringCompare.key_view k x)
       (fun k => CZStringCompare.view_key x k) m.

(** [emplace(key, value)] for an already built key: the entry goes in
    at its ordered place unless an equivalent key is there; the
    iterator of the entry found or made is returned.  The sequence
    answers as the tree does while at most one stored key is equivalent
    to [key], as in every store the comparator orders; were several
    equivalent, a tree would answer by its shape, a case that is left
    aside. *)
Fixpoint emplace (m : list (CZString * V)) (k : CZString) (v : V)
    : list (CZString * V) * iterator :=
  match m with
  | [] => ([(k, v)], 0%nat)
  | (k', v') :: r =>
      if CZString_lt k' k then
        let (r', it) := emplace r k v in ((k', v') :: r', S it)
      else if CZString_lt k k' then ((k, v) :: m, 0%nat)
      else (m, 0%nat)
  end.

(** [erase(iterator)]. *)
Fixpoint erase_at (m : list (CZString * V)) (it : iterator)
    : list (CZString * V) :=
  match m, it with
  | [], _ => []
  | _ :: r, O => r
  | e :: r, S it' => e :: erase_at r it'
  end.

(** [erase(key)]. *)
Definition erase (m : list (CZString * V)) (x : CZString)
    : outcome (list (CZString * V)) :=
  it <- find_key m x ;;
  Ok (if Nat.eqb it (end_ m) then m else erase_at m it).

(** Replace the node of the entry at [it]. *)
Fixpoint assign_at (m : list (CZString * V)) (it : iterator) (v : V)
    : list (CZString * V) :=
  match m, it with
  | [], _ => []
  | (k, _) :: r, O => (k, v) :: r
  | e :: r, S it' => e :: assign_at r it' v
  end.

Section Copy.
(** The copy constructor of the stored node. *)
Variable copy_value : V -> allocator -> V * allocator.

(** The copy constructor of the store: every entry is copied, the key
    with [CZString]'s copy constructor and then the node with its own.
    The entries are taken in iteration order (the order in which a tree
    clones its nodes only permutes the fresh addresses). *)
Fixpoint copy (m : list (CZString * V)) (h : allocator)
    : list (CZString * V) * allocator :=
  match m with
  | [] => ([], h)
  | (k, v) :: r =>
      let (k', h1) := CZString_copy k h in
      let (v', h2) := copy_value v h1 in
      let (r', h3) := copy r h2 in
      ((k', v') :: r', h3)
  end.
End Copy.

Section Destroy.
(** The destructor of the stored node. *)
Variable destroy_value : V -> heap -> outcome heap.

(** The destructor of the store, which [delete value_.map_] runs: every
    entry is destroyed, the node ([second]) before the key ([first]) as
    the members of a pair are.  The entries are taken in iteration
    order (the order in which a tree frees its nodes only decides which
    call of [free] is the first to go wrong). *)
Fixpoint destroy (m : list (CZString * V)) (live : heap) : outcome heap :=
  match m with
  | [] => Ok live
  | (k, v) :: r =>
      live1 <- destroy_value v live ;;
      live2 <- CZString_destroy k live1 ;;
      destroy r live2
  end.
End Destroy.

Section Compare.
(** [v1 < v2] and [v2 < v1] for a node [v1] of the left store and a node
    [v2] of the right one. *)
Variable value_lt : V -> V -> bool.
Variable value_gt : V -> V -> bool.
Variable value_eq : V -> V -> bool.

(** [std::pair]'s [operator<] from the orders of its two members. *)
Definition pair_lt (k1_lt_k2 k2_lt_k1 v1_lt_v2 : bool) : bool :=
  k1_lt_k2 || (negb k2_lt_k1 && v1_lt_v2).

(** [m < n] on stores: [std::lexicographical_compare] over the
    entries, which asks [*first1 < *first2] and then
    [*first2 < *first1]. *)
Fixpoint lexicographical_compare (m n : list (CZString * V)) {struct m} : bool :=
  match m, n with
  | _, [] => false
  | [], _ :: _ => true
  | (k1, v1) :: m', (k2, v2) :: n' =>
      if pair_lt (CZString_lt k1 k2) (CZString_lt k2 k1) (value_lt v1 v2)
      then true
      else if pair_lt (CZString_lt k2 k1) (CZString_lt k1 k2) (value_gt v1 v2)
      then false
      else lexicographical_compare m' n'
  end.

(** [n < m], by recursion on [m] all the same. *)
Fixpoint lexicographical_compare_flip (m n : list (CZString * V)) {struct m} : bool :=
  match m, n with
  | [], _ => false
  | _ :: _, [] => true
  | (k1, v1) :: m', (k2, v2) :: n' =>
      if pair_lt (CZString_lt k2 k1) (CZString_lt k1 k2) (value_gt v1 v2)
      then true
      else if pair_lt (CZString_lt k1 k2) (CZString_lt k2 k1) (value_lt v1 v2)
      then false
      else lexicographical_compare_flip m' n'
  end.

(** [std::equal] over the entries of [m], against those of [n]. *)
Fixpoint equal (m n : list (CZString * V)) {struct m} : bool :=
  match m, n with
  | [], _ => true
  | (k1, v1) :: m', (k2, v2) :: n' =>
      if CZString_eq k1 k2 && value_eq v1 v2 then equal m' n' else false
  | _ :: _, [] => false
  end.
End Compare.

End Operations.
End ObjectValues.

(* ================================================================== *)
(** ** class Value: representation *)

(** [enum ValueType] (value.h). *)
Inductive ValueType : Type :=
| nullValue | intValue | uintValue | realValue
| stringValue | booleanValue | arrayValue | objectValue.

(** The numeric value of an enumerator. *)
Definition ValueType_to_Z (t : ValueType) : Z :=
  match t with
  | nullValue => 0 | intValue => 1 | uintValue => 2 | realValue => 3
  | stringValue => 4 | booleanValue => 5 | arrayValue => 6 | objectValue => 7
  end.

(** [a == b] on tags. *)
Definition ValueType_eqb (a b : ValueType) : bool :=
  ValueType_to_Z a =? ValueType_to_Z b.

(** [type_] together with the member of [union ValueHolder] it selects.
    [int_] and [uint_] are the 64-bit [LargestInt] and [LargestUInt];
    [map_] is the owned store. *)
Inductive ValueHolder (V : Type) : Type :=
| holds_null
| holds_int (int_ : Z)
| holds_uint (uint_ : Z)
| holds_real (real_ : spec_float)
| holds_string (string_ : char_ptr)
| holds_bool (bool_ : bool)
| holds_array (map_ : list (CZString * V))
| holds_object (map_ : list (CZString * V)).
Arguments holds_null {V}.
Arguments holds_int {V} int_.
Arguments holds_uint {V} uint_.
Arguments holds_real {V} real_.
Arguments holds_string {V} string_.
Arguments holds_bool {V} bool_.
Arguments holds_array {V} map_.
Arguments holds_object {V} map_.

(** A node: the tagged payload and the ownership flag of a string
    payload. *)
Inductive Value : Type := mkValue {
  value_ : ValueHolder Value;
  allocated_ : bool
}.

(** The tag of a node. *)
Definition type_ (this : Value) : ValueType :=
  match value_ this with
  | holds_null => nullValue
  | holds_int _ => intValue
  | holds_uint _ => uintValue
  | holds_real _ => realValue
  | holds_string _ => stringValue
  | holds_bool _ => booleanValue
  | holds_array _ => arrayValue
  | holds_object _ => objectValue
  end.

(** [Value::type()]. *)
Definition Value_type (this : Value) : ValueType := type_ this.

(** Induction over nodes that reaches the nodes stored in a container. *)
Section ValueInduction.
Variable P : Value -> Prop.
Hypothesis P_scalar : forall h a,
  match h with holds_array _ | holds_object _ => False | _ => True end ->
  P (mkValue h a).
Hypothesis P_array : forall m a,
  Forall (fun e => P (snd e)) m -> P (mkValue (holds_array m) a).
Hypothesis P_object : forall m a,
  Forall (fun e => P (snd e)) m -> P (mkValue (holds_object m) a).

Fixpoint Value_nested_ind (v : Value) : P v :=
  let entries :=
    fix entries (m : list (CZString * Value))
        : Forall (fun e => P (snd e)) m :=
      match m with
      | [] => Forall_nil _
      | e :: r => Forall_cons e (Value_nested_ind (snd e)) (entries r)
      end in
  match v with
  | mkValue h a =>
      match h return P (mkValue h a) with
      | holds_array m => P_array m a (entries m)
      | holds_object m => P_object m a (entries m)
      | holds_null => P_scalar holds_null a I
      | holds_int i => P_scalar (holds_int i) a I
      | holds_uint u => P_scalar (holds_uint u) a I
      | holds_real r => P_scalar (holds_real r) a I
      | holds_string s => P_scalar (holds_string s) a I
      | holds_bool b => P_scalar (holds_bool b) a I
      end
  end.
End ValueInduction.


(* ================================================================== *)
(** ** class Value: construction, copy, move (json_value.cpp:153-293) *)

(** [Value::Value(ValueType type)].  For [uintValue] the source writes
    [value_.int_ = 0], the same 64 zero bits as [uint_ = 0]. *)
Definition Value_of_type (type : ValueType) : Value :=
  {| value_ :=
       match type with
       | nullValue => holds_null
       | intValue => holds_int 0
       | uintValue => holds_uint 0
       | realValue => holds_real (S754_zero false)
       | stringValue => holds_string None
       | arrayValue => holds_array []
       | objectValue => holds_object []
       | booleanValue => holds_bool false
       end;
     allocated_ := false |}.

(** [const Value Value::null;] *)
Definition null : Value := Value_of_type nullValue.

(** [Value(Int)], [Value(Int64)]. *)
Definition Value_of_Int (value : Z) : Value :=
  {| value_ := holds_int value; allocated_ := false |}.

(** [Value(UInt)], [Value(UInt64)]. *)
Definition Value_of_UInt (value : Z) : Value :=
  {| value_ := holds_uint value; allocated_ := false |}.

(** [Value(double)]. *)
Definition Value_of_double (value : spec_float) : Value :=
  {| value_ := holds_real value; allocated_ := false |}.

(** [Value(bool)]. *)
Definition Value_of_bool (value : bool) : Value :=
  {| value_ := holds_bool value; allocated_ := false |}.

(** [Value(const char* value)]: the text is duplicated and owned. *)
Definition Value_of_cstr (value : cstr) (h : allocator) : Value * allocator :=
  let (p, h') := duplicateStringValue value h in
  ({| value_ := holds_string p; allocated_ := true |}, h').

(** [Value(const StaticString& value)]: the pointer is borrowed. *)
Definition Value_of_StaticString (value : cstr) : Value :=
  {| value_ := holds_string (Some value); allocated_ := false |}.

(** [Value::Value(const Value& other)]; a store is copied with
    [new ObjectValues] of the other store. *)
Fixpoint Value_copy (other : Value) (h : allocator) {struct other}
    : Value * allocator :=
  match value_ other with
  | holds_string (Some s) =>
      let (p, h') := duplicateStringValue s h in
      ({| value_ := holds_string p; allocated_ := true |}, h')
  | holds_string None =>
      ({| value_ := holds_string None; allocated_ := false |}, h)
  | holds_array m =>
      let (m', h') := ObjectValues.copy Value_copy m h in
      ({| value_ := holds_array m'; allocated_ := false |}, h')
  | holds_object m =>
      let (m', h') := ObjectValues.copy Value_copy m h in
      ({| value_ := holds_object m'; allocated_ := false |}, h')
  | scalar => ({| value_ := scalar; allocated_ := false |}, h)
  end.

(** [Value::swap]: [type_] and [value_] change places; [allocated_] is
    not touched.  The result is the pair (this, other) after the call. *)
Definition Value_swap (this other : Value) : Value * Value :=
  ({| value_ := value_ other; allocated_ := allocated_ this |},
   {| value_ := value_ this; allocated_ := allocated_ other |}).

(** [Value::Value(Value&& other)]: [Value{}] swapped with [other].  The
    result is the new node and [other] after the call. *)
Definition Value_move (other : Value) : Value * Value :=
  Value_swap (Value_of_type nullValue) other.

(** [Value::operator=(Value&& other)] on two distinct nodes
    ([this != &other]); the result is (this, other) after the call. *)
Definition Value_move_assign (this other : Value) : Value * Value :=
  Value_swap this other.

(** [Value::operator=(const Value& other)] on two distinct nodes: copy,
    then swap.  The result is [this] after the call; what the
    destructor of the temporary does to the heap is in [Value_assign]
    below. *)
Definition Value_copy_assign (this other : Value) (h : allocator)
    : Value * allocator :=
  let (temp, h') := Value_copy other h in
  (fst (Value_swap this temp), h').

(** [Value::~Value()] (json_value.cpp:254): a String node releases its
    text when [allocated_] is set, an Array or an Object deletes its
    store, and the other nodes hold nothing. *)
Fixpoint Value_destroy (this : Value) (live : heap) {struct this} : outcome heap :=
  match value_ this with
  | holds_string s =>
      if allocated_ this then releaseStringValue s live else Ok live
  | holds_array m | holds_object m => ObjectValues.destroy Value_destroy m live
  | _ => Ok live
  end.

(** [Value::operator=(const Value& other)] on two distinct nodes, with
    the heap: [Value temp{ other }; swap(temp);] and then the
    destructor of [temp], which by then holds the payload [this] had
    under the [allocated_] of the copy, [swap] leaving the flags where
    they are.  The result is [this] after the call, the allocator and
    the heap. *)
Definition Value_assign (this other : Value) (h : allocator) (live : heap)
    : outcome (Value * allocator * heap) :=
  let (temp, h') := Value_copy other h in
  let (this', temp') := Value_swap this temp in
  live' <- Value_destroy temp' (live ++ malloced h h') ;;
  Ok (this', h', live').

(* ================================================================== *)
(** ** class Value: type predicates (json_value.cpp:881-919) *)

(** [Value::isNull()]. *)
Definition Value_isNull (this : Value) : bool :=
  ValueType_eqb (type_ this) nullValue.

(** [isBool], [isInt], [isUInt], [isIntegral], [isDouble], [isNumeric],
    [isString], [isArray], [isObject]. *)
Definition Value_isBool (this : Value) : bool :=
  ValueType_eqb (type_ this) booleanValue.

Definition Value_isInt (this : Value) : bool :=
  ValueType_eqb (type_ this) intValue.

Definition Value_isUInt (this : Value) : bool :=
  ValueType_eqb (type_ this) uintValue.

Definition Value_isIntegral (this : Value) : bool :=
  ValueType_eqb (type_ this) intValue
  || ValueType_eqb (type_ this) uintValue
  || ValueType_eqb (type_ this) booleanValue.

Definition Value_isDouble (this : Value) : bool :=
  ValueType_eqb (type_ this) realValue.

Definition Value_isNumeric (this : Value) : bool :=
  Value_isIntegral this || Value_isDouble this.

Definition Value_isString (this : Value) : bool :=
  ValueType_eqb (type_ this) stringValue.

Definition Value_isArray (this : Value) : bool :=
  ValueType_eqb (type_ this) nullValue || ValueType_eqb (type_ this) arrayValue.

Definition Value_isObject (this : Value) : bool :=
  ValueType_eqb (type_ this) nullValue || ValueType_eqb (type_ this) objectValue.

(* ================================================================== *)
(** ** class Value: size, clear, element access (json_value.cpp:643-852) *)

(** [Value::size()]: for an array, the index of the last entry plus one. *)
Definition Value_size (this : Value) : Z :=
  match value_ this with
  | holds_array m =>
      if negb (ObjectValues.empty m) then
        match ObjectValues.back m with
        | Some (k, _) => to_uint32 (CZString_index_of k + 1)
        | None => 0
        end
      else 0
  | holds_object m => to_uint32 (Z.of_nat (ObjectValues.size m))
  | _ => 0
  end.


(** [Value::clear()]. *)
Definition Value_clear (b : Build) (this : Value) : outcome Value :=
  JSONCPP_ASSERT b (ValueType_eqb (type_ this) nullValue
                    || ValueType_eqb (type_ this) arrayValue
                    || ValueType_eqb (type_ this) objectValue) ;;;
  match value_ this with
  | holds_array _ => Ok {| value_ := holds_array []; allocated_ := allocated_ this |}
  | holds_object _ => Ok {| value_ := holds_object []; allocated_ := allocated_ this |}
  | _ => Ok this
  end.

(** The store behind [value_.map_]; reading [map_] while another member
    of the union is active has no defined meaning. *)
Definition Value_map (this : Value) : outcome (list (CZString * Value)) :=
  match value_ this with
  | holds_array m | holds_object m => Ok m
  | _ => Failed UndefinedBehaviour
  end.

(** Put a store back in place of the one behind [value_.map_]. *)
Definition Value_with_map (this : Value) (m : list (CZString * Value)) : Value :=
  match value_ this with
  | holds_array _ => {| value_ := holds_array m; allocated_ := allocated_ this |}
  | holds_object _ => {| value_ := holds_object m; allocated_ := allocated_ this |}
  | _ => this
  end.

(** [Value::tryGet(ArrayIndex) const]: the pointer returned is the
    iterator of the entry found; [None] is [nullptr]. *)
Definition Value_tryGet_index (b : Build) (this : Value) (index : Z)
    : outcome (option ObjectValues.iterator) :=
  JSONCPP_ASSERT b (ValueType_eqb (type_ this) nullValue
                    || ValueType_eqb (type_ this) arrayValue) ;;;
  if ValueType_eqb (type_ this) nullValue then Ok None
  else
    m <- Value_map this ;;
    it <- ObjectValues.find_key m (CZString_index index) ;;
    Ok (if negb (Nat.eqb it (ObjectValues.end_ m)) then Some it else None).

(** [Value::tryGet(std::string_view) const]. *)
Definition Value_tryGet_view (b : Build) (this : Value) (key : string)
    : outcome (option ObjectValues.iterator) :=
  JSONCPP_ASSERT b (ValueType_eqb (type_ this) nullValue
                    || ValueType_eqb (type_ this) objectValue) ;;;
  if ValueType_eqb (type_ this) nullValue then Ok None
  else
    m <- Value_map this ;;
    it <- ObjectValues.find_view m key ;;
    Ok (if negb (Nat.eqb it (ObjectValues.end_ m)) then Some it else None).

(** The node a pointer obtained from [tryGet] points to. *)
Definition Value_at (this : Value) (it : ObjectValues.iterator) : option Value :=
  match value_ this with
  | holds_array m | holds_object m => option_map snd (ObjectValues.deref m it)
  | _ => None
  end.

(** Write through a reference obtained from [operator[]]. *)
Definition Value_assign_at (this : Value) (it : ObjectValues.iterator)
    (v : Value) : Value :=
  match value_ this with
  | holds_array m | holds_object m =>
      Value_with_map this (ObjectValues.assign_at m it v)
  | _ => this
  end.

(** [Value::operator[](ArrayIndex)]: the node after the call and the
    reference returned. *)
Definition Value_subscript_index (b : Build) (this : Value) (index : Z)
    : outcome (Value * ObjectValues.iterator) :=
  JSONCPP_ASSERT b (ValueType_eqb (type_ this) nullValue
                    || ValueType_eqb (type_ this) arrayValue) ;;;
  let this1 :=
    if ValueType_eqb (type_ this) nullValue
    then fst (Value_move_assign this (Value_of_type arrayValue))
    else this in
  ret <- Value_tryGet_index b this1 index ;;
  match ret with
  | Some it => Ok (this1, it)
  | None =>
      m <- Value_map this1 ;;
      let (m', it) := ObjectValues.emplace m (CZString_index index) null in
      Ok (Value_with_map this1 m', it)
  end.

(** [Value::isValidIndex]. *)
Definition Value_isValidIndex (this : Value) (index : Z) : bool :=
  index <? Value_size this.

(** [Value::append(value)], for a [value] that is not a part of the
    node: the element of index [size()] is reached with [operator[]],
    then [value] is copy-assigned to it. *)
Definition Value_append (b : Build) (this value : Value) (h : allocator)
    : outcome (Value * allocator) :=
  r <- Value_subscript_index b this (Value_size this) ;;
  let (this1, it) := r in
  match Value_at this1 it with
  | Some element =>
      let (element', h') := Value_copy_assign element value h in
      Ok (Value_assign_at this1 it element', h')
  | None => Failed UndefinedBehaviour
  end.

(** The loop of [Value::resize]:
    [for (index = newSize; index < oldSize; ++index) map_->erase(index)],
    with [count] the number of rounds left. *)
Fixpoint Value_resize_erase (m : list (CZString * Value)) (index : Z)
    (count : nat) : outcome (list (CZString * Value)) :=
  match count with
  | O => Ok m
  | S count' =>
      m' <- ObjectValues.erase m (CZString_index index) ;;
      Value_resize_erase m' (index + 1) count'
  end.

(** [Value::resize(newSize)]. *)
Definition Value_resize (b : Build) (this : Value) (newSize : Z)
    : outcome Value :=
  JSONCPP_ASSERT b (ValueType_eqb (type_ this) nullValue
                    || ValueType_eqb (type_ this) arrayValue) ;;;
  let this1 :=
    if ValueType_eqb (type_ this) nullValue
    then fst (Value_move_assign this (Value_of_type arrayValue))
    else this in
  let oldSize := Value_size this1 in
  if newSize =? 0 then Value_clear b this1
  else if newSize >? oldSize then
    r <- Value_subscript_index b this1 (to_uint32 (newSize - 1)) ;;
    Ok (fst r)
  else
    m <- Value_map this1 ;;
    m' <- Value_resize_erase m newSize (Z.to_nat (oldSize - newSize)) ;;
    let this2 := Value_with_map this1 m' in
    c_assert b (Value_size this2 =? newSize) ;;;
    Ok this2.


(* ================================================================== *)
(** ** Doubles *)

(** [static_cast<double>] of an integer: IEEE 754 binary64, rounded to
    nearest even (exact below 2^53). *)
Definition double_of_Z (z : Z) : spec_float := binary_normalize 53 1024 z 0 false.

(** The integer part of a double, when it has one. *)
Definition double_trunc (r : spec_float) : option Z :=
  match r with
  | S754_zero _ => Some 0
  | S754_finite s m e =>
      Some (cond_Zopp s (if 0 <=? e then Zpos m * 2 ^ e else Zpos m / 2 ^ (- e)))
  | S754_infinity _ | S754_nan => None
  end.

(** [Int(real)]: truncation towards zero; undefined when the integer
    part does not fit the 32-bit [Int]. *)
Definition Int_of_double (r : spec_float) : outcome Z :=
  match double_trunc r with
  | Some z => if (minInt <=? z) && (z <=? maxInt) then Ok z else Failed UndefinedBehaviour
  | None => Failed UndefinedBehaviour
  end.

(** Whether a double is NaN. *)
Definition is_nan (r : spec_float) : bool :=
  match r with S754_nan => true | _ => false end.

(* ================================================================== *)
(** ** class Value: comparisons (json_value.cpp:299-378) *)

(** [int(map_->size() - other.map_->size())], the difference of two
    64-bit [size_t] narrowed to [int]. *)
Definition map_delta (m n : list (CZString * Value)) : Z :=
  to_int32 (to_uint64 (Z.of_nat (ObjectValues.size m) - Z.of_nat (ObjectValues.size n))).

(** [Value::operator<].  Two stores of one tag are compared first by
    count, then by [std::map]'s own order.  [Value_lt_flip this other] is
    [other < this], defined alongside because the comparison of two
    stores asks for both orders of the nodes it meets; both recursions
    descend into [this] ([Value_lt_flip_spec] below). *)
Fixpoint Value_lt (this other : Value) {struct this} : bool :=
  let typeDelta := ValueType_to_Z (type_ this) - ValueType_to_Z (type_ other) in
  if negb (typeDelta =? 0) then typeDelta <? 0
  else
    match value_ this, value_ other with
    | holds_null, _ => false
    | holds_int x, holds_int y => x <? y
    | holds_uint x, holds_uint y => x <? y
    | holds_real x, holds_real y => SFltb x y
    | holds_bool x, holds_bool y => negb x && y
    | holds_string x, holds_string y =>
        (is_null x && negb (is_null y))
        || match y, x with
           | Some b, Some a => is_Lt (strcmp a b)
           | _, _ => false
           end
    | holds_array m, holds_array n
    | holds_object m, holds_object n =>
        let delta := map_delta m n in
        if negb (delta =? 0) then delta <? 0
        else ObjectValues.lexicographical_compare Value_lt Value_lt_flip m n
    | _, _ => false
    end
with Value_lt_flip (this other : Value) {struct this} : bool :=
  let typeDelta := ValueType_to_Z (type_ other) - ValueType_to_Z (type_ this) in
  if negb (typeDelta =? 0) then typeDelta <? 0
  else
    match value_ other, value_ this with
    | holds_null, _ => false
    | holds_int y, holds_int x => y <? x
    | holds_uint y, holds_uint x => y <? x
    | holds_real y, holds_real x => SFltb y x
    | holds_bool y, holds_bool x => negb y && x
    | holds_string y, holds_string x =>
        (is_null y && negb (is_null x))
        || match x, y with
           | Some a, Some b => is_Lt (strcmp b a)
           | _, _ => false
           end
    | holds_array n, holds_array m
    | holds_object n, holds_object m =>
        let delta := map_delta n m in
        if negb (delta =? 0) then delta <? 0
        else ObjectValues.lexicographical_compare_flip Value_lt Value_lt_flip m n
    | _, _ => false
    end.

(** [Value::operator<=]. *)
Definition Value_le (this other : Value) : bool := negb (Value_lt other this).

(** [Value::operator>=]. *)
Definition Value_ge (this other : Value) : bool := negb (Value_lt this other).

(** [Value::operator>]. *)
Definition Value_gt (this other : Value) : bool := Value_lt other this.

(** [Value::operator==]; two stores of one size are compared with
    [std::equal] on their entries. *)
Fixpoint Value_eq (this other : Value) {struct this} : bool :=
  if negb (ValueType_eqb (type_ this) (type_ other)) then false
  else
    match value_ this, value_ other with
    | holds_null, _ => true
    | holds_int x, holds_int y => x =? y
    | holds_uint x, holds_uint y => x =? y
    | holds_real x, holds_real y => SFeqb x y
    | holds_bool x, holds_bool y => Bool.eqb x y
    | holds_string x, holds_string y =>
        ptr_eqb x y
        || match y, x with
           | Some b, Some a => is_Eq (strcmp a b)
           | _, _ => false
           end
    | holds_array m, holds_array n
    | holds_object m, holds_object n =>
        Nat.eqb (ObjectValues.size m) (ObjectValues.size n)
        && ObjectValues.equal Value_eq m n
    | _, _ => false
    end.

(** [Value::operator!=]. *)
Definition Value_ne (this other : Value) : bool := negb (Value_eq this other).

(** [Value::compare]. *)
Definition Value_compare (this other : Value) : Z :=
  if Value_lt this other then -1
  else if Value_gt this other then 1
  else 0.

(* ================================================================== *)
(** ** class Value: conversions (json_value.cpp:407-432, 614-641) *)

(** [Value::asInt(defaultValue)]. *)
Definition Value_asInt (b : Build) (this : Value) (defaultValue : Z) : outcome Z :=
  match value_ this with
  | holds_null => Ok defaultValue
  | holds_int i =>
      JSONCPP_ASSERT_MESSAGE b ((minInt <=? i) && (i <=? maxInt))
        "unsigned integer out of signed int range" ;;;
      Ok (to_int32 i)
  | holds_uint u =>
      JSONCPP_ASSERT_MESSAGE b (u <=? to_uint32 maxInt)
        "unsigned integer out of signed int range" ;;;
      Ok (to_int32 u)
  | holds_real r =>
      JSONCPP_ASSERT_MESSAGE b (SFleb (double_of_Z minInt) r && SFleb r (double_of_Z maxInt))
        "Real out of signed integer range" ;;;
      Int_of_double r
  | holds_bool x => Ok (if x then 1 else 0)
  | holds_string _ | holds_array _ | holds_object _ =>
      JSONCPP_FAIL_MESSAGE b "Type is not convertible to int" ;;;
      Ok defaultValue
  end.

(** [value_.string_[0] == 0] for a non-null pointer. *)
Definition first_char_is_nul (s : cstr) : bool :=
  match bytes s with EmptyString => true | String _ _ => false end.

(** [Value::isConvertibleTo(other)]. *)
Definition Value_isConvertibleTo (this : Value) (other : ValueType) : bool :=
  let asks t := ValueType_eqb other t in
  match value_ this with
  | holds_null => true
  | holds_int i =>
      (asks nullValue && (i =? 0)) || asks intValue || (asks uintValue && (0 <=? i))
      || asks realValue || asks stringValue || asks booleanValue
  | holds_uint u =>
      (asks nullValue && (u =? 0)) || (asks intValue && (u <=? to_uint32 maxInt))
      || asks uintValue || asks realValue || asks stringValue || asks booleanValue
  | holds_real r =>
      (asks nullValue && SFeqb r (S754_zero false))
      || (asks intValue && SFleb (double_of_Z minInt) r && SFleb r (double_of_Z maxInt))
      || (asks uintValue && SFleb (double_of_Z 0) r && SFleb r (double_of_Z maxUInt))
      || asks realValue || asks stringValue || asks booleanValue
  | holds_bool x =>
      (asks nullValue && Bool.eqb x false) || asks intValue || asks uintValue
      || asks realValue || asks stringValue || asks booleanValue
  | holds_string s =>
      asks stringValue
      || (asks nullValue && match s with None => true | Some c => first_char_is_nul c end)
  | holds_array m => asks arrayValue || (asks nullValue && ObjectValues.empty m)
  | holds_object m => asks objectValue || (asks nullValue && ObjectValues.empty m)
  end.


(* ================================================================== *)
(** ** class Value: the other conversions (json_value.cpp:380-406, 434-611) *)

(** [UInt(real)]: truncation towards zero; undefined when the integer
    part does not fit the 32-bit [UInt]. *)
Definition UInt_of_double (r : spec_float) : outcome Z :=
  match double_trunc r with
  | Some z => if (0 <=? z) && (z <=? maxUInt) then Ok z else Failed UndefinedBehaviour
  | None => Failed UndefinedBehaviour
  end.

(** [std::nextafter(from, to)] on doubles: the neighbour of [from] on
    the side of [to]. *)
Definition nextafter (from to : spec_float) : spec_float :=
  if is_nan from || is_nan to then S754_nan
  else if SFeqb from to then to
  else if SFltb from to then SFsucc 53 1024 from
  else SFpred 53 1024 from.

(** [Value::asCString()]. *)
Definition Value_asCString (b : Build) (this : Value) : outcome char_ptr :=
  JSONCPP_ASSERT b (ValueType_eqb (type_ this) stringValue) ;;;
  match value_ this with
  | holds_string s => Ok s
  | _ => Failed UndefinedBehaviour
  end.

(** [Value::asString(defaultValue)]; the result is a [std::string]. *)
Definition Value_asString (b : Build) (this : Value) (defaultValue : string)
    : outcome string :=
  match value_ this with
  | holds_null => Ok defaultValue
  | holds_string s =>
      Ok (match s with Some c => bytes c | None => EmptyString end)
  | holds_bool x => Ok (if x then "true" else "false")%string
  | holds_int _ | holds_uint _ | holds_real _ | holds_array _ | holds_object _ =>
      JSONCPP_FAIL_MESSAGE b "Type is not convertible to string" ;;;
      Ok defaultValue
  end.

(** [Value::asUInt(defaultValue)]. *)
Definition Value_asUInt (b : Build) (this : Value) (defaultValue : Z) : outcome Z :=
  match value_ this with
  | holds_null => Ok defaultValue
  | holds_int i =>
      JSONCPP_ASSERT_MESSAGE b (0 <=? i)
        "Negative integer can not be converted to unsigned integer" ;;;
      JSONCPP_ASSERT_MESSAGE b (i <=? maxUInt) "signed integer out of UInt range" ;;;
      Ok (to_uint32 i)
  | holds_uint u =>
      JSONCPP_ASSERT_MESSAGE b (u <=? maxUInt) "unsigned integer out of UInt range" ;;;
      Ok (to_uint32 u)
  | holds_real r =>
      JSONCPP_ASSERT_MESSAGE b (SFleb (double_of_Z 0) r && SFleb r (double_of_Z maxUInt))
        "Real out of unsigned integer range" ;;;
      UInt_of_double r
  | holds_bool x => Ok (if x then 1 else 0)
  | holds_string _ | holds_array _ | holds_object _ =>
      JSONCPP_FAIL_MESSAGE b "Type is not convertible to uint" ;;;
      Ok defaultValue
  end.

(** [Value::asInt64(defaultValue)].  The Real case converts with
    [Int(value_.real_)], the 32-bit type, as the source does. *)
Definition Value_asInt64 (b : Build) (this : Value) (defaultValue : Z) : outcome Z :=
  match value_ this with
  | holds_null => Ok defaultValue
  | holds_int i => Ok i
  | holds_uint u =>
      JSONCPP_ASSERT_MESSAGE b (u <=? to_uint64 maxInt64)
        "unsigned integer out of Int64 range" ;;;
      Ok (to_int64 u)
  | holds_real r =>
      JSONCPP_ASSERT_MESSAGE b
        (SFleb (nextafter (double_of_Z minInt64) (S754_zero false)) r
         && SFleb r (nextafter (double_of_Z maxInt64) (S754_zero false)))
        "Real out of Int64 range" ;;;
      Int_of_double r
  | holds_bool x => Ok (if x then 1 else 0)
  | holds_string _ | holds_array _ | holds_object _ =>
      JSONCPP_FAIL_MESSAGE b "Type is not convertible to Int64" ;;;
      Ok defaultValue
  end.

(** [Value::asUInt64(defaultValue)].  The Real case converts with
    [UInt(value_.real_)], the 32-bit type, as the source does. *)
Definition Value_asUInt64 (b : Build) (this : Value) (defaultValue : Z) : outcome Z :=
  match value_ this with
  | holds_null => Ok defaultValue
  | holds_int i =>
      JSONCPP_ASSERT_MESSAGE b (0 <=? i)
        "Negative integer can not be converted to UInt64" ;;;
      Ok (to_uint64 i)
  | holds_uint u => Ok u
  | holds_real r =>
      JSONCPP_ASSERT_MESSAGE b
        (SFleb (double_of_Z 0) r
         && SFleb r (nextafter (double_of_Z maxUInt64) (S754_zero false)))
        "Real out of UInt64 range" ;;;
      UInt_of_double r
  | holds_bool x => Ok (if x then 1 else 0)
  | holds_string _ | holds_array _ | holds_object _ =>
      JSONCPP_FAIL_MESSAGE b "Type is not convertible to UInt64" ;;;
      Ok defaultValue
  end.

(** [Value::asLargestInt()] and [Value::asLargestUInt()], with the
    64-bit types at hand. *)
Definition Value_asLargestInt (b : Build) (this : Value) : outcome Z :=
  Value_asInt64 b this 0.

Definition Value_asLargestUInt (b : Build) (this : Value) : outcome Z :=
  Value_asUInt64 b this 0.

(** [Value::asDouble(defaultValue)], with
    [JSONCPP_USE_INT64_DOUBLE_CONVERSION] not defined. *)
Definition Value_asDouble (b : Build) (this : Value) (defaultValue : spec_float)
    : outcome spec_float :=
  match value_ this with
  | holds_null => Ok defaultValue
  | holds_int i => Ok (double_of_Z i)
  | holds_uint u => Ok (double_of_Z u)
  | holds_real r => Ok r
  | holds_bool x => Ok (if x then double_of_Z 1 else double_of_Z 0)
  | holds_string _ | holds_array _ | holds_object _ =>
      JSONCPP_FAIL_MESSAGE b "Type is not convertible to double" ;;;
      Ok defaultValue
  end.

(** [Value::asBool(defaultValue)].  For a UInt node the source tests
    [value_.int_], the same 64 bits read as an [Int64]. *)
Definition Value_asBool (this : Value) (defaultValue : bool) : bool :=
  match value_ this with
  | holds_null => defaultValue
  | holds_int i => negb (i =? 0)
  | holds_uint u => negb (to_int64 u =? 0)
  | holds_real r => negb (SFeqb r (S754_zero false))
  | holds_bool x => x
  | holds_string s =>
      match s with
      | Some c => negb (first_char_is_nul c)
      | None => false
      end
  | holds_array m | holds_object m => negb (ObjectValues.empty m)
  end.

(** [Value::operator!()]. *)
Definition Value_not (this : Value) : bool := Value_isNull this.

(* ================================================================== *)

(** ** Text handed over with its length (json_value.cpp:24-47, 90-91, 211-215) *)

(** [std::string_view]: [None] when [data()] is null, as in a
    default-constructed view, else the characters in view. *)
Definition string_view : Type := option string.

Definition view_chars (str : string_view) : string :=
  match str with
  | Some s => s
  | None => EmptyString
  end.

(** The characters of a buffer before its first NUL: what [strlen],
    [strcmp] and the like see of it. *)
Fixpoint until_nul (s : string) : string :=
  match s with
  | EmptyString => EmptyString
  | String c rest => if Ascii.eqb c zero then EmptyString else String c (until_nul rest)
  end.

(** Whether a NUL is among the characters. *)
Fixpoint has_nul (s : string) : bool :=
  match s with
  | EmptyString => false
  | String c rest => Ascii.eqb c zero || has_nul rest
  end.

(** [static constexpr auto unknown]. *)
Definition unknown : Z := maxUInt.

(** [duplicateStringValue(value, length)] on the characters [value]
    points at.  With [length == unknown] the length is [strlen(value)],
    which runs off the characters at hand unless a NUL is among them.
    A [length] of 0 gives [nullptr].  Otherwise [length] characters and
    a NUL are copied into [malloc]ed storage, taken to succeed. *)
Definition duplicateStringValue_length (value : string) (length : Z)
    (h : allocator) : outcome (char_ptr * allocator) :=
  if length =? unknown then
    if has_nul value
    then Ok (Some {| addr := h; bytes := until_nul value |}, N.succ h)
    else Failed UndefinedBehaviour
  else if length =? 0 then Ok (None, h)
  else
    Ok (Some {| addr := h;
                bytes := until_nul (substring 0 (Z.to_nat length) value) |},
        N.succ h).

(** [explicit CZString(std::string_view str)]. *)
Definition CZString_view (str : string_view) (h : allocator)
    : outcome (CZString * allocator) :=
  match str with
  | Some s =>
      r <- duplicateStringValue_length s (to_uint32 (Z.of_nat (String.length s))) h ;;
      let (p, h') := r in
      Ok ({| cstr_ := p; index_ := duplicate |}, h')
  | None => Ok ({| cstr_ := None; index_ := noDuplication |}, h)
  end.

(** [Value(std::string_view value)]. *)
Definition Value_of_view (value : string_view) (h : allocator)
    : outcome (Value * allocator) :=
  r <- duplicateStringValue_length (view_chars value)
         (to_uint32 (Z.of_nat (String.length (view_chars value)))) h ;;
  let (p, h') := r in
  Ok ({| value_ := holds_string p; allocated_ := true |}, h').

(** [Value(const std::string& value)]: the view of the whole string. *)
Definition Value_of_string (value : string) (h : allocator)
    : outcome (Value * allocator) :=
  Value_of_view (Some value) h.

(* ================================================================== *)
(** ** class Value: members by name (json_value.cpp:709-879) *)

(** [Value::tryGet(const CZString&) const]. *)
Definition Value_tryGet_key (b : Build) (this : Value) (key : CZString)
    : outcome (option ObjectValues.iterator) :=
  JSONCPP_ASSERT b (ValueType_eqb (type_ this) nullValue
                    || ValueType_eqb (type_ this) objectValue) ;;;
  if ValueType_eqb (type_ this) nullValue then Ok None
  else
    m <- Value_map this ;;
    it <- ObjectValues.find_key m key ;;
    Ok (if negb (Nat.eqb it (ObjectValues.end_ m)) then Some it else None).

(** The tail of every [Value::get]: the pointer is asserted not to be
    null and dereferenced; the reference returned is the iterator. *)
Definition Value_get_tail (b : Build) (value : option ObjectValues.iterator)
    : outcome ObjectValues.iterator :=
  JSONCPP_ASSERT b (match value with Some _ => true | None => false end) ;;;
  match value with
  | Some it => Ok it
  | None => Failed UndefinedBehaviour
  end.

(** [Value::get(ArrayIndex)], [Value::get(std::string_view)] and
    [Value::get(const CZString&)]. *)
Definition Value_get_index (b : Build) (this : Value) (index : Z)
    : outcome ObjectValues.iterator :=
  value <- Value_tryGet_index b this index ;; Value_get_tail b value.

Definition Value_get_view (b : Build) (this : Value) (key : string)
    : outcome ObjectValues.iterator :=
  value <- Value_tryGet_view b this key ;; Value_get_tail b value.

Definition Value_get_key (b : Build) (this : Value) (key : CZString)
    : outcome ObjectValues.iterator :=
  value <- Value_tryGet_key b this key ;; Value_get_tail b value.

(** [Value::operator[](std::string_view key)]: the node after the call,
    the reference returned and the allocator.  [emplace(key, null)]
    builds the key with [CZString(std::string_view)]. *)
Definition Value_subscript_view (b : Build) (this : Value) (key : string_view)
    (h : allocator) : outcome (Value * ObjectValues.iterator * allocator) :=
  JSONCPP_ASSERT b (ValueType_eqb (type_ this) nullValue
                    || ValueType_eqb (type_ this) objectValue) ;;;
  let this1 :=
    if ValueType_eqb (type_ this) nullValue
    then fst (Value_move_assign this (Value_of_type objectValue))
    else this in
  ret <- Value_tryGet_view b this1 (view_chars key) ;;
  match ret with
  | Some it => Ok (this1, it, h)
  | None =>
      m <- Value_map this1 ;;
      r <- CZString_view key h ;;
      let (k, h') := r in
      let (m', it) := ObjectValues.emplace m k null in
      Ok (Value_with_map this1 m', it, h')
  end.

(** [Value::operator[](const CZString& key)]: [emplace(key, null)]
    copies the key. *)
Definition Value_subscript_key (b : Build) (this : Value) (key : CZString)
    (h : allocator) : outcome (Value * ObjectValues.iterator * allocator) :=
  JSONCPP_ASSERT b (ValueType_eqb (type_ this) nullValue
                    || ValueType_eqb (type_ this) objectValue) ;;;
  let this1 :=
    if ValueType_eqb (type_ this) nullValue
    then fst (Value_move_assign this (Value_of_type objectValue))
    else this in
  ret <- Value_tryGet_key b this1 key ;;
  match ret with
  | Some it => Ok (this1, it, h)
  | None =>
      m <- Value_map this1 ;;
      let (k, h') := CZString_copy key h in
      let (m', it) := ObjectValues.emplace m k null in
      Ok (Value_with_map this1 m', it, h')
  end.

(** [Value::resolveReference(key, isStatic)], for a [key] that is not
    null. *)
Definition Value_resolveReference (b : Build) (this : Value) (key : cstr)
    (isStatic : bool) (h : allocator)
    : outcome (Value * ObjectValues.iterator * allocator) :=
  JSONCPP_ASSERT b (ValueType_eqb (type_ this) nullValue
                    || ValueType_eqb (type_ this) objectValue) ;;;
  let this1 :=
    if ValueType_eqb (type_ this) nullValue
    then fst (Value_move_assign this (Value_of_type objectValue))
    else this in
  let (actualKey, h1) :=
    CZString_cstr key (if isStatic then noDuplication else duplicateOnCopy) h in
  ret <- Value_tryGet_key b this1 actualKey ;;
  match ret with
  | Some it => Ok (this1, it, h1)
  | None =>
      m <- Value_map this1 ;;
      let (k, h2) := CZString_copy actualKey h1 in
      let (m', it) := ObjectValues.emplace m k null in
      Ok (Value_with_map this1 m', it, h2)
  end.

(** [Value::operator[](const StaticString& key)]. *)
Definition Value_subscript_static (b : Build) (this : Value) (key : cstr)
    (h : allocator) : outcome (Value * ObjectValues.iterator * allocator) :=
  Value_resolveReference b this key true h.

(** [Value::removeMember(key)]: the node after the call, the node
    returned, the allocator and the heap.  [return null] copies the
    static [null].  [erase(it)] destroys the entry, the node before
    the key.  [return old] names a local: the node returned is built
    from it by [Value(Value&&)], and the local, which holds what the
    swap left it, is destroyed. *)
Definition Value_removeMember (b : Build) (this : Value) (key : string)
    (h : allocator) (live : heap) : outcome (Value * Value * allocator * heap) :=
  JSONCPP_ASSERT b (ValueType_eqb (type_ this) nullValue
                    || ValueType_eqb (type_ this) objectValue) ;;;
  if ValueType_eqb (type_ this) nullValue then
    let (r, h') := Value_copy null h in Ok (this, r, h', live ++ malloced h h')
  else
    m <- Value_map this ;;
    it <- ObjectValues.find_view m key ;;
    if negb (Nat.eqb it (ObjectValues.end_ m)) then
      match ObjectValues.deref m it with
      | Some (first, second) =>
          let (old, h') := Value_copy second h in
          live1 <- Value_destroy second (live ++ malloced h h') ;;
          live2 <- CZString_destroy first live1 ;;
          let (r, old') := Value_move old in
          live3 <- Value_destroy old' live2 ;;
          Ok (Value_with_map this (ObjectValues.erase_at m it), r, h', live3)
      | None => Failed UndefinedBehaviour
      end
    else
      let (r, h') := Value_copy null h in Ok (this, r, h', live ++ malloced h h').

(** [Value::isMember(std::string_view)] and
    [Value::isMember(const CZString&)]. *)
Definition Value_isMember_view (b : Build) (this : Value) (key : string)
    : outcome bool :=
  value <- Value_tryGet_view b this key ;;
  Ok (match value with Some _ => true | None => false end).

Definition Value_isMember_key (b : Build) (this : Value) (key : CZString)
    : outcome bool :=
  value <- Value_tryGet_key b this key ;;
  Ok (match value with Some _ => true | None => false end).

(** [Value::items()]. *)
Definition Value_items (b : Build) (this : Value)
    : outcome (list (CZString * Value)) :=
  JSONCPP_ASSERT b (ValueType_eqb (type_ this) objectValue) ;;;
  Value_map this.

(* ================================================================== *)

(** ** class ValueIteratorBase (json_valueiterator.inl) and [Value::begin],
    [Value::end] (json_value.cpp:940-990) *)

Module ValueIteratorBase.

(** The members: the position in the store, [None] for the
    value-initialised [std::map] iterator that belongs to no store, and
    the flag of an iterator made for a node without a store. *)
Record t : Type := mk {
  current_ : option ObjectValues.iterator;
  isNull_ : bool
}.

(** [ValueIteratorBase()]. *)
Definition default : t := {| current_ := None; isNull_ := true |}.

(** [ValueIteratorBase(const Value::ObjectValues::iterator& current)]. *)
Definition of_iterator (current : ObjectValues.iterator) : t :=
  {| current_ := Some current; isNull_ := false |}.

(** [deref()]: the node of the entry under the iterator of the store
    [m]; there is none at [end()]. *)
Definition deref (m : list (CZString * Value)) (this : t) : outcome Value :=
  match current_ this with
  | Some it =>
      match ObjectValues.deref m it with
      | Some (_, second) => Ok second
      | None => Failed UndefinedBehaviour
      end
  | None => Failed UndefinedBehaviour
  end.

(** [increment()] and [decrement()]: undefined at [end()] and at
    [begin()]. *)
Definition increment (m : list (CZString * Value)) (this : t) : outcome t :=
  match current_ this with
  | Some it =>
      if Nat.ltb it (ObjectValues.end_ m)
      then Ok {| current_ := Some (S it); isNull_ := isNull_ this |}
      else Failed UndefinedBehaviour
  | None => Failed UndefinedBehaviour
  end.

Definition decrement (this : t) : outcome t :=
  match current_ this with
  | Some (S it) => Ok {| current_ := Some it; isNull_ := isNull_ this |}
  | _ => Failed UndefinedBehaviour
  end.

(** The loop of [computeDistance], from [it] to [other]: [rounds] is
    the number of increments [it] can take before it is at [end()],
    where one more is undefined, as is the overflow of the [int]
    counter. *)
Fixpoint computeDistance_loop (rounds : nat) (it other : ObjectValues.iterator)
    (myDistance : Z) : outcome Z :=
  if Nat.eqb it other then Ok myDistance
  else
    match rounds with
    | O => Failed UndefinedBehaviour
    | S rounds' =>
        if myDistance + 1 <=? maxInt
        then computeDistance_loop rounds' (S it) other (myDistance + 1)
        else Failed UndefinedBehaviour
    end.

(** [computeDistance(other)], for iterators of the store [m]. *)
Definition computeDistance (m : list (CZString * Value)) (this other : t)
    : outcome Z :=
  if isNull_ this && isNull_ other then Ok 0
  else
    match current_ this, current_ other with
    | Some it, Some o =>
        computeDistance_loop (ObjectValues.end_ m - it)%nat it o 0
    | _, _ => Failed UndefinedBehaviour
    end.

(** [isEqual(other)]: two iterators of one store are compared by
    position, two value-initialised ones are equal, and the comparison
    of one of each has no defined meaning. *)
Definition isEqual (this other : t) : outcome bool :=
  if isNull_ this then Ok (isNull_ other)
  else
    match current_ this, current_ other with
    | Some it, Some o => Ok (Nat.eqb it o)
    | None, None => Ok true
    | _, _ => Failed UndefinedBehaviour
    end.

(** [copy(other)], the body of the two assignment operators that the
    iterator classes declare: [current_] is assigned and [isNull_] is
    left as it was. *)
Definition copy (this other : t) : t :=
  {| current_ := current_ other; isNull_ := isNull_ this |}.

(** The key under the iterator. *)
Definition first (m : list (CZString * Value)) (this : t) : outcome CZString :=
  match current_ this with
  | Some it =>
      match ObjectValues.deref m it with
      | Some (k, _) => Ok k
      | None => Failed UndefinedBehaviour
      end
  | None => Failed UndefinedBehaviour
  end.

(** [key()]: the local [czstring] is a copy of the key; the result is
    built from it by the constructor from a [StaticString], from a C
    string, or from a [UInt]. *)
Definition key (m : list (CZString * Value)) (this : t) (h : allocator)
    : outcome (Value * allocator) :=
  k <- first m this ;;
  let (czstring, h1) := CZString_copy k h in
  match CZString_c_str czstring with
  | Some c =>
      if CZString_isStaticString czstring
      then Ok (Value_of_StaticString c, h1)
      else Ok (Value_of_cstr c h1)
  | None => Ok (Value_of_UInt (CZString_index_of czstring), h1)
  end.

(** [index()]: the index of an Index key, [UInt(-1)] for a Name key. *)
Definition index (m : list (CZString * Value)) (this : t) (h : allocator)
    : outcome (Z * allocator) :=
  k <- first m this ;;
  let (czstring, h1) := CZString_copy k h in
  if is_null (CZString_c_str czstring)
  then Ok (CZString_index_of czstring, h1)
  else Ok (to_uint32 (-1), h1).

(** [memberName()]: the characters of the C string returned, those of
    the name or none. *)
Definition memberName (m : list (CZString * Value)) (this : t) : outcome string :=
  k <- first m this ;;
  Ok (match CZString_c_str k with
      | Some name => bytes name
      | None => EmptyString
      end).

End ValueIteratorBase.

(** The assignments of the two iterator classes (value.h:529-593,
    json_valueiterator.inl:103-106, 124-127).

    [ValueIterator::operator=(const ValueIterator&)] is the copy
    assignment of [ValueIterator]: what [iterator = iterator] runs. *)
Definition ValueIterator_assign (this other : ValueIteratorBase.t)
    : ValueIteratorBase.t :=
  ValueIteratorBase.copy this other.

(** [ValueConstIterator::operator=(const ValueIteratorBase&)]: what
    [const_iterator = iterator] runs, the argument being bound to its
    base class. *)
Definition ValueConstIterator_assign_base (this other : ValueIteratorBase.t)
    : ValueIteratorBase.t :=
  ValueIteratorBase.copy this other.

(** [const_iterator = const_iterator].  The operator above takes a
    [ValueIteratorBase], so it is no copy assignment and
    [ValueConstIterator] declares none: the compiler supplies the copy
    and move assignments, which match a [ValueConstIterator] exactly,
    are selected, and assign both members. *)
Definition ValueConstIterator_assign (this other : ValueIteratorBase.t)
    : ValueIteratorBase.t :=
  {| ValueIteratorBase.current_ := ValueIteratorBase.current_ other;
     ValueIteratorBase.isNull_ := ValueIteratorBase.isNull_ other |}.

(** [Value::begin()] and [Value::end()], const or not. *)
Definition Value_begin (this : Value) : ValueIteratorBase.t :=
  match value_ this with
  | holds_array _ | holds_object _ => ValueIteratorBase.of_iterator 0%nat
  | _ => ValueIteratorBase.default
  end.

Definition Value_end (this : Value) : ValueIteratorBase.t :=
  match value_ this with
  | holds_array m | holds_object m =>
      ValueIteratorBase.of_iterator (ObjectValues.end_ m)
  | _ => ValueIteratorBase.default
  end.

(* ================================================================== *)

(** ** class PathArgument and class Path (value.h, json_value.cpp:993-1106) *)

Module PathArgument.

(** [enum Kind] and the members of [PathArgument]. *)
Inductive Kind : Type := kindNone | kindIndex | kindKey.

Definition Kind_eqb (a b : Kind) : bool :=
  match a, b with
  | kindNone, kindNone | kindIndex, kindIndex | kindKey, kindKey => true
  | _, _ => false
  end.

Record t : Type := mk {
  key_ : string;     (* std::string *)
  index_ : Z;        (* ArrayIndex *)
  kind_ : Kind
}.

(** [PathArgument()]. *)
Definition none : t := {| key_ := EmptyString; index_ := 0; kind_ := kindNone |}.

(** [PathArgument(ArrayIndex index)]. *)
Definition of_index (index : Z) : t :=
  {| key_ := EmptyString; index_ := index; kind_ := kindIndex |}.

(** [PathArgument(Key&& key)]. *)
Definition of_key (key : string) : t :=
  {| key_ := key; index_ := 0; kind_ := kindKey |}.

End PathArgument.

Module Path.
Import PathArgument.

(** [*current]: the character under the cursor, the terminating NUL of
    [c_str()] when [current == end]. *)
Definition peek (current : string) : ascii :=
  match current with
  | String c _ => c
  | EmptyString => zero
  end.

(** Whether a character is a decimal digit. *)
Definition is_digit (c : ascii) : bool :=
  (48 <=? Z.of_N (N_of_ascii c)) && (Z.of_N (N_of_ascii c) <=? 57).

(** Whether [strchr] finds [c] in the two-character literal made of an
    opening bracket and a dot; the terminator of the searched string
    counts, so NUL is found too. *)
Definition strchr_bracket_dot (c : ascii) : bool :=
  Ascii.eqb c "[" || Ascii.eqb c "." || Ascii.eqb c zero.

(** The digit loop of the bracket case: while the cursor is on a decimal
    digit [d], [index = index * 10 + d] in [ArrayIndex] arithmetic and the
    cursor moves on. *)
Fixpoint scan_index (current : string) (index : Z) : Z * string :=
  match current with
  | String c rest =>
      if is_digit c
      then scan_index rest (to_uint32 (index * 10 + (Z.of_N (N_of_ascii c) - 48)))
      else (index, current)
  | EmptyString => (index, current)
  end.

(** The name loop: the cursor moves on until [end] or a character that
    [strchr] finds; the result is [std::string(beginName, current)] and
    the cursor. *)
Fixpoint scan_name (current : string) : string * string :=
  match current with
  | String c rest =>
      if strchr_bracket_dot c then (EmptyString, current)
      else let (name, current') := scan_name rest in (String c name, current')
  | EmptyString => (EmptyString, current)
  end.

(** [Path::addPathInArg]: [args_] and [itInArg] after the call.  The
    iterator is taken by reference and left where it was. *)
Definition addPathInArg (in_ : list t) (itInArg : nat) (kind : Kind)
    (args_ : list t) : list t * nat :=
  match nth_error in_ itInArg with
  | None => (args_, itInArg)
  | Some a =>
      if negb (Kind_eqb (kind_ a) kind) then (args_, itInArg)
      else (args_ ++ [a], itInArg)
  end.

(** The [while (current != end)] loop of [Path::makePath]; [current] is
    the text from the cursor to [end].  [fuel] bounds the number of
    rounds: [None] says the loop is still running after that many. *)
Fixpoint makePath_loop (fuel : nat) (in_ : list t) (itInArg : nat)
    (current : string) (args_ : list t) : option (list t) :=
  match fuel with
  | O => None
  | S fuel' =>
      match current with
      | EmptyString => Some args_
      | String c rest =>
          if Ascii.eqb c "[" then
            let current1 := rest in
            let '(args1, it1, current2) :=
              if Ascii.eqb (peek current1) "%" then
                let (a, it) := addPathInArg in_ itInArg kindIndex args_ in
                (a, it, current1)
              else
                let (index, current') := scan_index current1 0 in
                (args_ ++ [of_index index], itInArg, current') in
            (* the closing bracket test: at [end] the cursor stays, else it
               moves on whatever it was on; [invalidPath] does nothing *)
            let current3 :=
              match current2 with
              | EmptyString => current2
              | String _ rest2 => rest2
              end in
            makePath_loop fuel' in_ it1 current3 args1
          else if Ascii.eqb c "%" then
            let (a, it) := addPathInArg in_ itInArg kindKey args_ in
            makePath_loop fuel' in_ it rest a
          else if Ascii.eqb c "." then
            makePath_loop fuel' in_ itInArg rest args_
          else
            let (name, current') := scan_name current in
            makePath_loop fuel' in_ itInArg current' (args_ ++ [of_key name])
      end
  end.

(** [Path::makePath(path, in)], from an empty [args_]: every round but
    one that finds a NUL where a name starts moves the cursor, so
    [length path + 1] rounds are enough for the loop to end. *)
Definition makePath (path : string) (in_ : list t) : option (list t) :=
  makePath_loop (S (String.length path)) in_ 0%nat path [].

(** [Path::Path(path, a1, a2, a3, a4, a5)]. *)
Definition Path (path : string) (a1 a2 a3 a4 a5 : t) : option (list t) :=
  makePath path [a1; a2; a3; a4; a5].

(** The loop of [Path::resolve(const Value& root, const Value&
    defaultValue) const]: the node the walk ends on, or [defaultValue]. *)
Fixpoint resolve_loop (b : Build) (args_ : list t) (node defaultValue : Value)
    : outcome Value :=
  match args_ with
  | [] => Ok node
  | arg :: rest =>
      match kind_ arg with
      | kindIndex =>
          if negb (Value_isArray node) || Value_isValidIndex node (index_ arg)
          then Ok defaultValue
          else
            temp <- Value_tryGet_index b node (index_ arg) ;;
            let node' :=
              match temp with
              | Some it => match Value_at node it with Some n => n | None => null end
              | None => null
              end in
            resolve_loop b rest node' defaultValue
      | kindKey =>
          if negb (Value_isObject node) then Ok defaultValue
          else
            temp <- Value_tryGet_view b node (key_ arg) ;;
            match temp with
            | Some it =>
                match Value_at node it with
                | Some n => resolve_loop b rest n defaultValue
                | None => Ok defaultValue
                end
            | None => Ok defaultValue   (* node == &Value::null *)
            end
      | kindNone => resolve_loop b rest node defaultValue
      end
  end.

(** [Path::resolve(root, defaultValue)]; the result is returned by
    value, that is, copied. *)
Definition resolve (b : Build) (args_ : list t) (root defaultValue : Value)
    (h : allocator) : outcome (Value * allocator) :=
  r <- resolve_loop b args_ root defaultValue ;;
  Ok (Value_copy r h).

(** The loop of [Path::resolve(const Value& root) const], the overload
    without a default: the node the walk ends on.  The tests of the
    node's type guard empty blocks and are left out. *)
Fixpoint resolve_node (b : Build) (args_ : list t) (node : Value)
    : outcome Value :=
  match args_ with
  | [] => Ok node
  | arg :: rest =>
      match kind_ arg with
      | kindIndex =>
          temp <- Value_tryGet_index b node (index_ arg) ;;
          let node' :=
            match temp with
            | Some it => match Value_at node it with Some n => n | None => null end
            | None => null
            end in
          resolve_node b rest node'
      | kindKey =>
          temp <- Value_tryGet_view b node (key_ arg) ;;
          let node' :=
            match temp with
            | Some it => match Value_at node it with Some n => n | None => null end
            | None => null
            end in
          resolve_node b rest node'
      | kindNone => resolve_node b rest node
      end
  end.

(** [Path::make(Value& root) const]: the root after the call, the
    reference returned, as the iterators that lead from the root to the
    node, and the allocator.  Each step goes through [operator[]]. *)
Fixpoint make (b : Build) (args_ : list t) (node : Value) (h : allocator)
    : outcome (Value * list ObjectValues.iterator * allocator) :=
  match args_ with
  | [] => Ok (node, [], h)
  | arg :: rest =>
      match kind_ arg with
      | kindIndex =>
          r <- Value_subscript_index b node (index_ arg) ;;
          let (node1, it) := r in
          match Value_at node1 it with
          | Some child =>
              r' <- make b rest child h ;;
              let '(child', ref, h') := r' in
              Ok (Value_assign_at node1 it child', it :: ref, h')
          | None => Failed UndefinedBehaviour
          end
      | kindKey =>
          r <- Value_subscript_view b node (Some (key_ arg)) h ;;
          let '(node1, it, h1) := r in
          match Value_at node1 it with
          | Some child =>
              r' <- make b rest child h1 ;;
              let '(child', ref, h') := r' in
              Ok (Value_assign_at node1 it child', it :: ref, h')
          | None => Failed UndefinedBehaviour
          end
      | kindNone => make b rest node h
      end
  end.

End Path.


(* ================================================================== *)
(** * Vocabulary of the properties *)

(** ** Well-formed data *)

(** Two pointers agree when equal addresses go with equal characters, as
    they do for pointers into one memory. *)
Definition ptr_agree (p q : char_ptr) : Prop :=
  match p, q with
  | Some a, Some b => addr a = addr b -> bytes a = bytes b
  | _, _ => True
  end.

(** A [spec_float] that is a binary64 value. *)
Definition is_double (r : spec_float) : Prop := valid_binary 53 1024 r = true.

(** The payload of a node fits its C++ type: [int_] is an [Int64],
    [uint_] a [UInt64], [real_] a [double]. *)
Definition payload_valid (v : Value) : Prop :=
  match value_ v with
  | holds_int i => minInt64 <= i <= maxInt64
  | holds_uint u => 0 <= u <= maxUInt64
  | holds_real r => is_double r
  | _ => True
  end.

(** ** The real number a double stands for *)

(** The number a finite double stands for, multiplied by 2^1074: an
    integer, since no binary64 exponent is below -1074. *)
Definition double_scaled (r : spec_float) : option Z :=
  match r with
  | S754_zero _ => Some 0
  | S754_finite s m e => Some (cond_Zopp s (Zpos m * 2 ^ (e + 1074)))
  | S754_infinity _ | S754_nan => None
  end.

(** An integer on the same scale. *)
Definition scaled (z : Z) : Z := z * 2 ^ 1074.

(** [lo <= r <= hi] for the number the double [r] stands for; no
    infinity and no NaN is within any bounds. *)
Definition double_within (lo hi : Z) (r : spec_float) : Prop :=
  exists v, double_scaled r = Some v /\ scaled lo <= v <= scaled hi.

(** [z] is the integer part of the number the double [r] stands for:
    the integer next to that number on the side of zero, the number
    itself when it is an integer.  So the integer part of 2.5 is 2 and
    that of -2.5 is -2. *)
Definition integer_part (r : spec_float) (z : Z) : Prop :=
  exists v, double_scaled r = Some v
            /\ (0 <= v -> scaled z <= v < scaled (z + 1))
            /\ (v <= 0 -> scaled (z - 1) < v <= scaled z).

(** A double that is not NaN, placed in a lexicographic order of three
    integers: sign class, then exponent, then mantissa. *)
Definition double_key (r : spec_float) : Z * Z * Z :=
  match r with
  | S754_infinity true => (-2, 0, 0)
  | S754_finite true m e => (-1, - e, - Zpos m)
  | S754_zero _ => (0, 0, 0)
  | S754_nan => (0, 0, 0)
  | S754_finite false m e => (1, e, Zpos m)
  | S754_infinity false => (2, 0, 0)
  end.

(** The lexicographic comparison of two such triples. *)
Definition compare3 (a b : Z * Z * Z) : comparison :=
  let '(a1, a2, a3) := a in
  let '(b1, b2, b3) := b in
  match Z.compare a1 b1 with
  | Eq => match Z.compare a2 b2 with
          | Eq => Z.compare a3 b3
          | c => c
          end
  | c => c
  end.

(** ** Kinds of nodes *)

(** Null, Int, UInt, Real, String and Bool nodes. *)
Definition is_scalar (v : Value) : Prop :=
  match value_ v with
  | holds_array _ | holds_object _ => False
  | _ => True
  end.

(** A node that is not a Real NaN. *)
Definition not_nan (v : Value) : Prop :=
  match value_ v with
  | holds_real r => is_nan r = false
  | _ => True
  end.

(** The string pointers of two nodes agree (see [ptr_agree]). *)
Definition strings_agree (x y : Value) : Prop :=
  match value_ x, value_ y with
  | holds_string p, holds_string q => ptr_agree p q
  | _, _ => True
  end.

(** An Array node and an Object node with a given store. *)
Definition array_of (m : list (CZString * Value)) : Value :=
  {| value_ := holds_array m; allocated_ := false |}.

Definition object_of (m : list (CZString * Value)) : Value :=
  {| value_ := holds_object m; allocated_ := false |}.

(** The element read at [index]: what the pointer returned by [tryGet]
    points to. *)
Definition Value_read_index (b : Build) (this : Value) (index : Z)
    : outcome (option Value) :=
  ret <- Value_tryGet_index b this index ;;
  Ok (match ret with Some it => Value_at this it | None => None end).

(** ** The table of conversions *)

(** What a node of each kind converts to, in the words of the amended
    claim C5. *)
Definition convertible (this : Value) (other : ValueType) : Prop :=
  match value_ this with
  | holds_null => True
  | holds_int i =>
      match other with
      | nullValue => i = 0
      | uintValue => 0 <= i
      | intValue | realValue | stringValue | booleanValue => True
      | arrayValue | objectValue => False
      end
  | holds_uint u =>
      match other with
      | nullValue => u = 0
      | intValue => u <= maxInt
      | uintValue | realValue | stringValue | booleanValue => True
      | arrayValue | objectValue => False
      end
  | holds_real r =>
      match other with
      | nullValue => exists s, r = S754_zero s
      | intValue => double_within minInt maxInt r
      | uintValue => double_within 0 maxUInt r
      | realValue | stringValue | booleanValue => True
      | arrayValue | objectValue => False
      end
  | holds_bool x =>
      match other with
      | nullValue => x = false
      | intValue | uintValue | realValue | stringValue | booleanValue => True
      | arrayValue | objectValue => False
      end
  | holds_string s =>
      match other with
      | stringValue => True
      | nullValue => s = None \/ exists c, s = Some c /\ bytes c = EmptyString
      | _ => False
      end
  | holds_array m =>
      match other with
      | arrayValue => True
      | nullValue => m = []
      | _ => False
      end
  | holds_object m =>
      match other with
      | objectValue => True
      | nullValue => m = []
      | _ => False
      end
  end.

(** ** Copies *)

(** What the copy of a key is, when fresh storage comes from the
    addresses [lo <= p < hi]: an Index key is copied by value; a Name
    key of policy [noDuplication] stays the same borrowed pointer; any
    other Name key becomes an owned duplicate of the same characters,
    of policy [duplicate]. *)
Definition key_copied (lo hi : N) (k k' : CZString) : Prop :=
  match cstr_ k with
  | None => k' = k
  | Some s =>
      if index_ k =? noDuplication then k' = k
      else exists p, (lo <= p < hi)%N
                     /\ k' = {| cstr_ := Some {| addr := p; bytes := bytes s |};
                                index_ := duplicate |}
  end.

(** What the copy of a node is: the same tag; the same number or
    boolean; for a string that is present, owned or borrowed alike, an
    owned duplicate of its characters in fresh storage; for a container,
    entry by entry, the copy of the key and the copy of the node. *)
Inductive copied (lo hi : N) : Value -> Value -> Prop :=
| copied_plain (h : ValueHolder Value) (a : bool) :
    match h with
    | holds_string _ | holds_array _ | holds_object _ => False
    | _ => True
    end ->
    copied lo hi (mkValue h a) (mkValue h false)
| copied_no_string (a : bool) :
    copied lo hi (mkValue (holds_string None) a) (mkValue (holds_string None) false)
| copied_string (s : cstr) (a : bool) (p : N) :
    (lo <= p < hi)%N ->
    copied lo hi (mkValue (holds_string (Some s)) a)
                 (mkValue (holds_string (Some {| addr := p; bytes := bytes s |})) true)
| copied_array (m m' : list (CZString * Value)) (a : bool) :
    Forall2 (fun e e' => key_copied lo hi (fst e) (fst e')
                         /\ copied lo hi (snd e) (snd e')) m m' ->
    copied lo hi (mkValue (holds_array m) a) (mkValue (holds_array m') false)
| copied_object (m m' : list (CZString * Value)) (a : bool) :
    Forall2 (fun e e' => key_copied lo hi (fst e) (fst e')
                         /\ copied lo hi (snd e) (snd e')) m m' ->
    copied lo hi (mkValue (holds_object m) a) (mkValue (holds_object m') false).

(** The address of the text a key owns, which its destructor releases:
    that of a Name key of policy [duplicate]. *)
Definition key_owned (k : CZString) : list N :=
  match cstr_ k with
  | Some c => if index_ k =? duplicate then [addr c] else []
  | None => []
  end.

(** The addresses of all the text a node owns, which its destructor
    releases: its own string when [allocated_] is set, or that of the
    keys and of the nodes of its store, in the order of the entries. *)
Fixpoint owned (v : Value) : list N :=
  match value_ v with
  | holds_string (Some c) => if allocated_ v then [addr c] else []
  | holds_array m | holds_object m =>
      flat_map (fun e => key_owned (fst e) ++ owned (snd e)) m
  | _ => []
  end.

(** A destructor that has the blocks [ps] to release, run on the heap
    [live], ends in [r]: it returns when those blocks are live and no
    two of them are the same, and then it has taken them from the heap
    and nothing else; otherwise some [free] is undefined. *)
Definition releases (ps : list N) (live : heap) (r : outcome heap) : Prop :=
  match r with
  | Ok live' =>
      NoDup ps /\ incl ps live
      /\ forall q, In q live' <-> In q live /\ ~ In q ps
  | Failed e => e = UndefinedBehaviour /\ ~ (NoDup ps /\ incl ps live)
  end.

(** ** Paths *)

(** A text without NUL characters. *)
Fixpoint nul_free (s : string) : bool :=
  match s with
  | EmptyString => true
  | String c rest => negb (Ascii.eqb c zero) && nul_free rest
  end.

(** ** Members of an Object *)

(** The characters of a Name key; an Index key has none. *)
Definition key_name (k : CZString) : option string :=
  match cstr_ k with
  | Some c => Some (bytes c)
  | None => None
  end.

(** Whether a key is the Name key of the given characters. *)
Definition key_named (k : CZString) (name : string) : bool :=
  match key_name k with
  | Some n => String.eqb n name
  | None => false
  end.

(** The store of an Object as the code builds it: every key is a Name
    key, and the names ascend strictly in the order of [strcmp]. *)
Inductive names_ascend : list (CZString * Value) -> Prop :=
| names_ascend_nil : names_ascend []
| names_ascend_cons (k : CZString) (v : Value) (name : string)
    (m : list (CZString * Value)) :
    key_name k = Some name ->
    Forall (fun e => exists name', key_name (fst e) = Some name'
                                   /\ compare_chars name name' = Lt) m ->
    names_ascend m ->
    names_ascend ((k, v) :: m).

(** The node stored under a name, and the position of its entry (the
    length of the store when there is none). *)
Fixpoint member (m : list (CZString * Value)) (name : string) : option Value :=
  match m with
  | [] => None
  | (k, v) :: r => if key_named k name then Some v else member r name
  end.

Fixpoint name_position (m : list (CZString * Value)) (name : string) : nat :=
  match m with
  | [] => O
  | (k, _) :: r => if key_named k name then O else S (name_position r name)
  end.

(** What the entry under a name owns, which its destructor releases:
    the text of its key and what its node owns; nothing when there is
    no such entry. *)
Fixpoint member_owned (m : list (CZString * Value)) (name : string) : list N :=
  match m with
  | [] => []
  | (k, v) :: r =>
      if key_named k name then key_owned k ++ owned v else member_owned r name
  end.

(** No key of the store has its characters at the address [h]. *)
Definition storage_free (h : N) (m : list (CZString * Value)) : Prop :=
  Forall (fun e => match cstr_ (fst e) with
                   | Some c => addr c <> h
                   | None => True
                   end) m.

(** The entries of a node: those of its store, none for a node without
    a store. *)
Definition entries (this : Value) : list (CZString * Value) :=
  match value_ this with
  | holds_array m | holds_object m => m
  | _ => []
  end.

(** The member read by name: what the pointer returned by [tryGet]
    points to. *)
Definition Value_read_view (b : Build) (this : Value) (key : string)
    : outcome (option Value) :=
  ret <- Value_tryGet_view b this key ;;
  Ok (match ret with Some it => Value_at this it | None => None end).

(** The node a reference made of iterators leads to, from a root. *)
Fixpoint Value_at_path (root : Value) (ref : list ObjectValues.iterator)
    : option Value :=
  match ref with
  | [] => Some root
  | it :: rest =>
      match Value_at root it with
      | Some child => Value_at_path child rest
      | None => None
      end
  end.

(** The statement [this[key] = value], for a [value] that is not a part
    of the node: the member is reached with [operator[]], then [value]
    is copy-assigned to it. *)
Definition Value_set_view (b : Build) (this : Value) (key : string)
    (value : Value) (h : allocator) (live : heap)
    : outcome (Value * allocator * heap) :=
  r <- Value_subscript_view b this (Some key) h ;;
  let '(this1, it, h1) := r in
  match Value_at this1 it with
  | Some element =>
      r' <- Value_assign element value h1 (live ++ malloced h h1) ;;
      let '(element', h', live') := r' in
      Ok (Value_assign_at this1 it element', h', live')
  | None => Failed UndefinedBehaviour
  end.

(** What the temporary of [node = value] has to release when it dies.
    After the swap it holds the payload that [node] had, under the
    [allocated_] of the copy of [value], which is set exactly when
    [value] is a String that has text. *)
Definition assign_released (node value : Value) : list N :=
  owned (mkValue (value_ node)
           match value_ value with
           | holds_string (Some _) => true
           | _ => false
           end).

(** ** Texts of paths *)

(** A name that the path syntax can spell: it is not empty, does not
    start with a percent sign, and holds no opening bracket, no dot and
    no NUL. *)
Definition plain_name (name : string) : Prop :=
  match name with
  | EmptyString => False
  | String c rest =>
      Ascii.eqb c "%" = false
      /\ (fix plain (s : string) : Prop :=
            match s with
            | EmptyString => True
            | String x r => Path.strchr_bracket_dot x = false /\ plain r
            end) name
  end.

(** The path that names the members [names] one inside the other: each
    name after a dot. *)
Fixpoint dotted (names : list string) : string :=
  match names with
  | [] => EmptyString
  | name :: rest => String "." (name ++ dotted rest)
  end.

(** ** Trees as the code builds them *)

(** The characters of a key, if it has any, live below the address [h]:
    they were there before the allocator reached [h]. *)
Definition key_below (h : N) (k : CZString) : Prop :=
  match cstr_ k with
  | Some c => (addr c < h)%N
  | None => True
  end.

(** A tree as [operator[]] builds it, when the allocator is at [h]: an
    Array holds at most one entry, under an Index key; the names of an
    Object ascend and its keys live below [h]; and so for the nodes
    inside. *)
Inductive tree_ok (h : N) : Value -> Prop :=
| tree_ok_scalar (p : ValueHolder Value) (a : bool) :
    match p with holds_array _ | holds_object _ => False | _ => True end ->
    tree_ok h (mkValue p a)
| tree_ok_array (m : list (CZString * Value)) (a : bool) :
    (List.length m <= 1)%nat ->
    Forall (fun e => is_index_key (fst e) = true /\ tree_ok h (snd e)) m ->
    tree_ok h (mkValue (holds_array m) a)
| tree_ok_object (m : list (CZString * Value)) (a : bool) :
    names_ascend m ->
    Forall (fun e => key_below h (fst e) /\ tree_ok h (snd e)) m ->
    tree_ok h (mkValue (holds_object m) a).

(** A step of a path that [operator[]] can take: the name of a Key step
    is not empty, holds no NUL and has fewer than 2^32 - 1
    characters. *)
Definition step_ok (arg : PathArgument.t) : Prop :=
  match PathArgument.kind_ arg with
  | PathArgument.kindKey =>
      PathArgument.key_ arg <> EmptyString
      /\ has_nul (PathArgument.key_ arg) = false
      /\ Z.of_nat (String.length (PathArgument.key_ arg)) < maxUInt
  | _ => True
  end.

(** A tree that holds no Real NaN. *)
Fixpoint nan_free (v : Value) : Prop :=
  match value_ v with
  | holds_real r => is_nan r = false
  | holds_array m | holds_object m =>
      fold_right (fun e rest => nan_free (snd e) /\ rest) True m
  | _ => True
  end.

(** ** Tactics *)

Ltac destruct_type v :=
  let h := fresh "h" in
  let a := fresh "a" in
  destruct v as [h a]; destruct h as [ |i|u|r|s|x|m|m]; cbn in *.

Ltac by_tags x y :=
  destruct x as [[ | | | | | | | ] ?], y as [[ | | | | | | | ] ?]; cbn.

(* ================================================================== *)
(** * Properties *)

(** ** Basic facts *)

Lemma ValueType_eqb_eq (a b : ValueType) : ValueType_eqb a b = true <-> a = b.
Proof.
  unfold ValueType_eqb; split.
  - destruct a, b; cbn; intros H; try reflexivity; discriminate H.
  - intros ->; apply Z.eqb_refl.
Qed.


Lemma ValueType_eqb_refl (a : ValueType) : ValueType_eqb a a = true.
Proof. apply ValueType_eqb_eq; reflexivity. Qed.


(** [compare_chars] is a total order on texts: reflexive, exact on
    equality, antisymmetric and transitive. *)
Lemma compare_chars_refl (a : string) : compare_chars a a = Eq.
Proof.
  induction a as [|c a IH]; cbn; [reflexivity|].
  rewrite N.compare_refl; exact IH.
Qed.


Lemma N_of_ascii_inj (x y : ascii) : N_of_ascii x = N_of_ascii y -> x = y.
Proof.
  intros H. rewrite <- (ascii_N_embedding x), <- (ascii_N_embedding y), H.
  reflexivity.
Qed.


Lemma compare_chars_eq (a b : string) : compare_chars a b = Eq <-> a = b.
Proof.
  split; [|intros ->; apply compare_chars_refl].
  revert b; induction a as [|x a IH]; intros [|y b]; cbn; try discriminate;
    [reflexivity|].
  destruct (N.compare_spec (N_of_ascii x) (N_of_ascii y)) as [E|L|G];
    try discriminate.
  intros H; apply N_of_ascii_inj in E; apply IH in H; congruence.
Qed.


Lemma compare_chars_antisym (a b : string) :
  compare_chars b a = CompOpp (compare_chars a b).
Proof.
  revert b; induction a as [|x a IH]; intros [|y b]; cbn; try reflexivity.
  rewrite (N.compare_antisym (N_of_ascii x) (N_of_ascii y)).
  destruct (N.compare (N_of_ascii x) (N_of_ascii y)); cbn; auto.
Qed.


Lemma compare_chars_lt_trans (a b c : string) :
  compare_chars a b = Lt -> compare_chars b c = Lt -> compare_chars a c = Lt.
Proof.
  revert b c; induction a as [|x a IH]; intros [|y b] [|z c]; cbn;
    try discriminate; try reflexivity.
  destruct (N.compare_spec (N_of_ascii x) (N_of_ascii y)) as [E1|L1|G1];
    destruct (N.compare_spec (N_of_ascii y) (N_of_ascii z)) as [E2|L2|G2];
    try discriminate; intros H1 H2.
  - rewrite E1, E2, N.compare_refl; eauto.
  - rewrite E1; apply N.compare_lt_iff in L2; rewrite L2; reflexivity.
  - rewrite <- E2; apply N.compare_lt_iff in L1; rewrite L1; reflexivity.
  - assert (L : (N_of_ascii x < N_of_ascii z)%N) by lia.
    apply N.compare_lt_iff in L; rewrite L; reflexivity.
Qed.


Lemma Some_inj {A : Type} (a b : A) : Some a = Some b -> a = b.
Proof. congruence. Qed.


(* ------------------------------------------------------------------ *)
(** ** Keys *)

(** Index keys never consult [index_]: any two are equal and neither is
    ordered before the other. *)
Lemma CZString_index_keys_equivalent (i j : Z) :
  CZString_lt (CZString_index i) (CZString_index j) = false
  /\ CZString_eq (CZString_index i) (CZString_index j) = true.
Proof. split; reflexivity. Qed.


(** Two Name keys are ordered, and equal, by their characters alone,
    whatever their policies. *)
Lemma CZString_name_keys_by_content (a b : cstr) (pa pb : Z) :
  ptr_agree (Some a) (Some b) ->
  CZString_lt (mkCZString (Some a) pa) (mkCZString (Some b) pb)
    = is_Lt (compare_chars (bytes a) (bytes b))
  /\ (CZString_eq (mkCZString (Some a) pa) (mkCZString (Some b) pb) = true
      <-> bytes a = bytes b).
Proof.
  intros agree; cbn in agree.
  unfold CZString_lt, CZString_eq, strcmp; cbn.
  destruct (N.eqb_spec (addr a) (addr b)) as [E|N].
  - rewrite (agree E), compare_chars_refl; cbn; tauto.
  - split; [reflexivity|].
    destruct (compare_chars (bytes a) (bytes b)) eqn:C; cbn; split;
      intros H; try discriminate; try reflexivity;
      try (apply compare_chars_eq; assumption);
      apply compare_chars_eq in H; congruence.
Qed.


(** An Index key is never equal to a Name key. *)
Lemma CZString_index_name_never_equal (k n : CZString) :
  is_index_key k = true -> is_name_key n = true ->
  CZString_eq k n = false /\ CZString_eq n k = false.
Proof.
  destruct k as [[?|] ?], n as [[?|] ?]; cbn; intros; try discriminate.
  split; reflexivity.
Qed.


(** C1 (the code departs from the claim): two Index keys should compare
    by their numeric indices, equal exactly when the indices are equal and
    ordered exactly when one is numerically smaller.  [operator<] and
    [operator==] decide on the string pointers alone, so the keys of
    indices 1 and 2 come out equal and unordered. *)
Theorem CZString_index_1_2_equal_and_unordered :
  CZString_lt (CZString_index 1) (CZString_index 2) = false
  /\ CZString_lt (CZString_index 2) (CZString_index 1) = false
  /\ CZString_eq (CZString_index 1) (CZString_index 2) = true.
Proof. repeat split. Qed.


(* ------------------------------------------------------------------ *)
(** ** Type predicates *)

(** C10: [isArray()] is true exactly for the tags Null and Array,
    [isObject()] exactly for Null and Object; a Null node, such as a
    default-constructed one, is reported as an array, as an object and
    as null at once. *)
Theorem Value_isArray_isObject_spec :
  (forall this : Value,
      (Value_isArray this = true
       <-> type_ this = nullValue \/ type_ this = arrayValue)
      /\ (Value_isObject this = true
          <-> type_ this = nullValue \/ type_ this = objectValue)
      /\ (Value_isNull this = true <-> type_ this = nullValue)
      /\ (type_ this = nullValue ->
          Value_isArray this = true /\ Value_isObject this = true
          /\ Value_isNull this = true))
  /\ Value_isArray (Value_of_type nullValue) = true
  /\ Value_isObject (Value_of_type nullValue) = true
  /\ Value_isNull (Value_of_type nullValue) = true.
Proof.
  split; [|repeat split].
  intros this; unfold Value_isArray, Value_isObject, Value_isNull.
  rewrite !orb_true_iff, !ValueType_eqb_eq.
  repeat split; try tauto; intros ->; auto.
Qed.


(* ------------------------------------------------------------------ *)
(** ** Doubles: constants and validity *)

(** The bounds of [Int] and [UInt] as doubles. *)
Lemma double_of_minInt :
  double_of_Z minInt = S754_finite true 4503599627370496 (-21).
Proof. reflexivity. Qed.


Lemma double_of_maxInt :
  double_of_Z maxInt = S754_finite false 9007199250546688 (-22).
Proof. reflexivity. Qed.


Lemma double_of_maxUInt :
  double_of_Z maxUInt = S754_finite false 9007199252643840 (-21).
Proof. reflexivity. Qed.


Lemma double_of_0 : double_of_Z 0 = S754_zero false.
Proof. reflexivity. Qed.


(** A positive number of [d] binary digits lies between 2^(d-1) and 2^d. *)
Lemma digits2_pos_bound (m : positive) :
  2 ^ (Zpos (digits2_pos m) - 1) <= Zpos m < 2 ^ Zpos (digits2_pos m).
Proof.
  assert (step : forall d : positive,
            2 ^ (Zpos (Pos.succ d) - 1) = 2 * 2 ^ (Zpos d - 1)
            /\ 2 ^ Zpos (Pos.succ d) = 2 * 2 ^ Zpos d).
  { intros d. rewrite Pos2Z.inj_succ. split.
    - replace (Z.succ (Zpos d) - 1) with (Z.succ (Zpos d - 1)) by lia.
      apply Z.pow_succ_r. lia.
    - apply Z.pow_succ_r. lia. }
  induction m as [m IH|m IH|]; cbn [digits2_pos].
  - destruct (step (digits2_pos m)) as [-> ->]. lia.
  - destruct (step (digits2_pos m)) as [-> ->]. lia.
  - cbn. lia.
Qed.


(** The mantissa of a binary64 value has at most 53 bits. *)
Lemma is_double_mantissa (s : bool) (m : positive) (e : Z) :
  is_double (S754_finite s m e) -> Zpos m < 2 ^ 53 /\ -1074 <= e.
Proof.
  unfold is_double, valid_binary, bounded, canonical_mantissa, fexp, emin.
  intros H; apply andb_true_iff in H as [H _]; apply Z.eqb_eq in H.
  pose proof (digits2_pos_bound m) as [_ B].
  assert (D : Zpos (digits2_pos m) <= 53) by lia.
  split; [|lia].
  eapply Z.lt_le_trans; [exact B|].
  apply Z.pow_le_mono_r; lia.
Qed.


(** A finite binary64 value: the mantissa is below 2^53, the exponent
    at least -1074, and the mantissa has all its 53 bits unless the
    exponent is the least one. *)
Lemma is_double_finite (s : bool) (m : positive) (e : Z) :
  is_double (S754_finite s m e) ->
  Zpos m < 2 ^ 53 /\ -1074 <= e /\ (e = -1074 \/ 2 ^ 52 <= Zpos m).
Proof.
  intros V. destruct (is_double_mantissa s m e V) as [M E].
  split; [exact M|]. split; [exact E|].
  unfold is_double, valid_binary, bounded, canonical_mantissa, fexp, emin in V.
  apply andb_true_iff in V as [V _]; apply Z.eqb_eq in V.
  destruct (Z.eq_dec e (-1074)) as [->|N]; [left; reflexivity|right].
  assert (D : Zpos (digits2_pos m) = 53) by lia.
  pose proof (digits2_pos_bound m) as [B _]. rewrite D in B. exact B.
Qed.


(** Dividing by a larger power of two gives less. *)
Lemma div_pow2_le (m k j : Z) :
  0 <= m -> 0 <= j <= k -> m / 2 ^ k <= m / 2 ^ j.
Proof.
  intros Hm Hk. apply Z.div_le_compat_l; [exact Hm|].
  split; [apply Z.pow_pos_nonneg; lia|apply Z.pow_le_mono_r; lia].
Qed.


(* ------------------------------------------------------------------ *)
(** ** Doubles: the order is the order of the numbers *)

(** [SFleb] on two finite doubles of one sign: exponents first, then
    mantissas. *)
Lemma SFleb_finite_nonneg (m1 m2 : positive) (e1 e2 : Z) :
  SFleb (S754_finite false m1 e1) (S754_finite false m2 e2) = true <->
  e1 < e2 \/ (e1 = e2 /\ Zpos m1 <= Zpos m2).
Proof.
  unfold SFleb, SFcompare.
  change (Pos.compare_cont Eq m1 m2) with (Pos.compare m1 m2).
  destruct (Z.compare_spec e1 e2) as [E|L|G].
  - destruct (Pos.compare_spec m1 m2) as [Em|Lm|Gm]; split; intros H;
      try discriminate; try reflexivity.
    + right; split; [exact E|subst; apply Z.le_refl].
    + right; split; [exact E|apply Pos2Z.pos_lt_pos in Lm; apply Z.lt_le_incl; exact Lm].
    + destruct H as [H|[_ H]]; [lia|].
      apply Pos2Z.pos_lt_pos in Gm. apply Z.le_ngt in H. contradiction.
  - split; [left; exact L|reflexivity].
  - split; [discriminate|intros [H|[H _]]; lia].
Qed.


Lemma SFleb_finite_neg (m1 m2 : positive) (e1 e2 : Z) :
  SFleb (S754_finite true m1 e1) (S754_finite true m2 e2) = true <->
  e2 < e1 \/ (e1 = e2 /\ Zpos m2 <= Zpos m1).
Proof.
  unfold SFleb, SFcompare.
  change (Pos.compare_cont Eq m1 m2) with (Pos.compare m1 m2).
  destruct (Z.compare_spec e1 e2) as [E|L|G].
  - destruct (Pos.compare_spec m1 m2) as [Em|Lm|Gm]; cbn; split; intros H;
      try discriminate; try reflexivity.
    + right; split; [exact E|subst; apply Z.le_refl].
    + destruct H as [H|[_ H]]; [lia|].
      apply Pos2Z.pos_lt_pos in Lm. apply Z.le_ngt in H. contradiction.
    + right; split; [exact E|apply Pos2Z.pos_lt_pos in Gm; apply Z.lt_le_incl; exact Gm].
  - split; [discriminate|intros [H|[H _]]; lia].
  - split; [left; exact G|reflexivity].
Qed.


(** Of two binary64 magnitudes, the one of smaller exponent is the
    smaller number when the other has all its bits. *)
Lemma scaled_lt_of_exponent_lt (m1 m2 e1 e2 : Z) :
  -1074 <= e1 < e2 -> 0 < m1 < 2 ^ 53 -> 2 ^ 52 <= m2 ->
  m1 * 2 ^ (e1 + 1074) < m2 * 2 ^ (e2 + 1074).
Proof.
  intros E M1 M2.
  assert (A : 0 < 2 ^ (e1 + 1074)) by (apply Z.pow_pos_nonneg; lia).
  assert (B : 2 * 2 ^ (e1 + 1074) <= 2 ^ (e2 + 1074)).
  { rewrite <- Z.pow_succ_r by lia. apply Z.pow_le_mono_r; lia. }
  change (2 ^ 53) with (2 * 2 ^ 52) in M1.
  remember (2 ^ (e1 + 1074)) as a. remember (2 ^ (e2 + 1074)) as b.
  remember (2 ^ 52) as c.
  assert (C : 0 < c) by (subst c; reflexivity).
  clear Heqa Heqb Heqc. nia.
Qed.


(** On two positive binary64 values, exponents first and then
    mantissas is the order of the numbers. *)
Lemma finite_le_exact (m1 m2 : positive) (e1 e2 : Z) :
  is_double (S754_finite false m1 e1) -> is_double (S754_finite false m2 e2) ->
  (e1 < e2 \/ (e1 = e2 /\ Zpos m1 <= Zpos m2))
  <-> Zpos m1 * 2 ^ (e1 + 1074) <= Zpos m2 * 2 ^ (e2 + 1074).
Proof.
  intros V1 V2.
  apply is_double_finite in V1 as (M1 & E1 & N1).
  apply is_double_finite in V2 as (M2 & E2 & N2).
  destruct (Z.lt_trichotomy e1 e2) as [L|[->|G]].
  - split; [intros _|left; exact L].
    apply Z.lt_le_incl, scaled_lt_of_exponent_lt; lia.
  - assert (A : 0 < 2 ^ (e2 + 1074)) by (apply Z.pow_pos_nonneg; lia).
    split.
    + intros [L|[_ L]]; [lia|]. apply Z.mul_le_mono_nonneg_r; lia.
    + intros L. right. split; [reflexivity|].
      apply Z.mul_le_mono_pos_r in L; assumption.
  - assert (S : Zpos m2 * 2 ^ (e2 + 1074) < Zpos m1 * 2 ^ (e1 + 1074))
      by (apply scaled_lt_of_exponent_lt; lia).
    split; [intros [L|[L _]]; lia|lia].
Qed.


(** [<=] on two finite binary64 values is [<=] on the numbers they
    stand for. *)
Lemma SFleb_exact (r1 r2 : spec_float) (v1 v2 : Z) :
  is_double r1 -> is_double r2 ->
  double_scaled r1 = Some v1 -> double_scaled r2 = Some v2 ->
  (SFleb r1 r2 = true <-> v1 <= v2).
Proof.
  intros V1 V2.
  assert (P : forall (m : positive) e, -1074 <= e -> 0 < Zpos m * 2 ^ (e + 1074)).
  { intros m e E. apply Z.mul_pos_pos; [lia|apply Z.pow_pos_nonneg; lia]. }
  destruct r1 as [s1|s1| |s1 m1 e1], r2 as [s2|s2| |s2 m2 e2]; cbn [double_scaled];
    try discriminate; intros S1 S2; apply Some_inj in S1, S2; subst v1 v2.
  - split; [lia|reflexivity].
  - apply is_double_finite in V2 as (_ & E2 & _). specialize (P m2 e2 E2).
    destruct s2; cbn [cond_Zopp SFleb SFcompare]; split; intros H;
      try discriminate; try reflexivity; lia.
  - apply is_double_finite in V1 as (_ & E1 & _). specialize (P m1 e1 E1).
    destruct s1; cbn [cond_Zopp SFleb SFcompare]; split; intros H;
      try discriminate; try reflexivity; lia.
  - pose proof (is_double_finite _ _ _ V1) as (_ & E1 & _).
    pose proof (is_double_finite _ _ _ V2) as (_ & E2 & _).
    pose proof (P m1 e1 E1). pose proof (P m2 e2 E2).
    destruct s1, s2; cbn [cond_Zopp].
    + rewrite SFleb_finite_neg.
      assert (X : e2 < e1 \/ e1 = e2 /\ Zpos m2 <= Zpos m1
                  <-> e2 < e1 \/ e2 = e1 /\ Zpos m2 <= Zpos m1) by lia.
      rewrite X. rewrite (finite_le_exact m2 m1 e2 e1) by assumption. lia.
    + split; [lia|reflexivity].
    + split; [discriminate|lia].
    + rewrite SFleb_finite_nonneg. rewrite finite_le_exact by assumption. lia.
Qed.


(** The bounds of the 32-bit types convert to doubles exactly. *)
Lemma double_scaled_of_Z :
  double_scaled (double_of_Z minInt) = Some (scaled minInt)
  /\ double_scaled (double_of_Z maxInt) = Some (scaled maxInt)
  /\ double_scaled (double_of_Z maxUInt) = Some (scaled maxUInt)
  /\ double_scaled (double_of_Z 0) = Some (scaled 0)
  /\ is_double (double_of_Z minInt) /\ is_double (double_of_Z maxInt)
  /\ is_double (double_of_Z maxUInt) /\ is_double (double_of_Z 0).
Proof. repeat split; vm_compute; reflexivity. Qed.


(** The range test of the conversions is exact. *)
Lemma range_test_exact (lo hi : Z) (r : spec_float) :
  is_double r ->
  is_double (double_of_Z lo) -> is_double (double_of_Z hi) ->
  double_scaled (double_of_Z lo) = Some (scaled lo) ->
  double_scaled (double_of_Z hi) = Some (scaled hi) ->
  (SFleb (double_of_Z lo) r = true /\ SFleb r (double_of_Z hi) = true
   <-> double_within lo hi r).
Proof.
  intros V Vlo Vhi Slo Shi. unfold double_within. split.
  - intros [L H].
    assert (W : exists w, double_scaled r = Some w).
    { destruct r as [s|s| |s m e]; cbn; try (eexists; reflexivity).
      - destruct s; [|destruct (double_of_Z hi) as [?|[]| |[] ? ?]; discriminate].
        destruct (double_of_Z lo) as [?|[]| |[] ? ?]; discriminate.
      - destruct (double_of_Z lo); discriminate. }
    destruct W as [w W]. exists w. split; [exact W|].
    split.
    + apply (SFleb_exact _ _ _ _ Vlo V Slo W). exact L.
    + apply (SFleb_exact _ _ _ _ V Vhi W Shi). exact H.
  - intros (w & W & L & H). split.
    + apply (SFleb_exact _ _ _ _ Vlo V Slo W). exact L.
    + apply (SFleb_exact _ _ _ _ V Vhi W Shi). exact H.
Qed.


(** [r == 0.0] holds exactly for the two zeros. *)
Lemma SFeqb_zero (r : spec_float) :
  SFeqb r (S754_zero false) = true <-> exists s, r = S754_zero s.
Proof.
  destruct r as [s|s| |s m e]; cbn; split; intros H;
    try discriminate; try reflexivity; try (destruct s; discriminate);
    try (eexists; reflexivity);
    destruct H as [s' H]; discriminate.
Qed.


(* ------------------------------------------------------------------ *)
(** ** Doubles: a strict order away from NaN *)

Lemma SFcompare_key (r1 r2 : spec_float) :
  is_nan r1 = false -> is_nan r2 = false ->
  SFcompare r1 r2 = Some (compare3 (double_key r1) (double_key r2)).
Proof.
  destruct r1 as [s1|s1| |s1 m1 e1], r2 as [s2|s2| |s2 m2 e2];
    try discriminate; intros _ _;
    try (destruct s1; reflexivity); try (destruct s2; reflexivity);
    try (destruct s1, s2; reflexivity).
  destruct s1, s2; try reflexivity; cbn [SFcompare double_key compare3].
  change (-1 ?= -1) with Eq. cbv iota. rewrite !Z.compare_opp.
  rewrite (Z.compare_antisym e1 e2).
  destruct (e1 ?= e2); cbn [CompOpp]; try reflexivity.
  change (Zpos m2 ?= Zpos m1) with (Pos.compare m2 m1).
  rewrite (Pos.compare_antisym m1 m2). reflexivity.
Qed.


Lemma compare3_lt_trans (a b c : Z * Z * Z) :
  compare3 a b = Lt -> compare3 b c = Lt -> compare3 a c = Lt.
Proof.
  destruct a as [[a1 a2] a3], b as [[b1 b2] b3], c as [[c1 c2] c3]; cbn.
  destruct (Z.compare_spec a1 b1), (Z.compare_spec b1 c1); try discriminate;
    destruct (Z.compare_spec a1 c1); try lia; try reflexivity;
    destruct (Z.compare_spec a2 b2), (Z.compare_spec b2 c2); try discriminate;
    destruct (Z.compare_spec a2 c2); try lia; try reflexivity;
    rewrite !Z.compare_lt_iff; lia.
Qed.


Lemma compare3_antisym (a b : Z * Z * Z) :
  compare3 b a = CompOpp (compare3 a b).
Proof.
  destruct a as [[a1 a2] a3], b as [[b1 b2] b3]; cbn.
  rewrite (Z.compare_antisym a1 b1), (Z.compare_antisym a2 b2),
    (Z.compare_antisym a3 b3).
  destruct (a1 ?= b1); cbn; try reflexivity.
  destruct (a2 ?= b2); cbn; reflexivity.
Qed.


(** [<] on doubles is transitive and irreflexive, NaN included. *)
Lemma SFltb_trans (r1 r2 r3 : spec_float) :
  SFltb r1 r2 = true -> SFltb r2 r3 = true -> SFltb r1 r3 = true.
Proof.
  unfold SFltb.
  destruct (is_nan r1) eqn:N1; [destruct r1; discriminate|].
  destruct (is_nan r2) eqn:N2; [destruct r1, r2; discriminate|].
  destruct (is_nan r3) eqn:N3; [destruct r2, r3; discriminate|].
  rewrite !SFcompare_key by assumption.
  destruct (compare3 (double_key r1) (double_key r2)) eqn:C12; try discriminate.
  destruct (compare3 (double_key r2) (double_key r3)) eqn:C23; try discriminate.
  rewrite (compare3_lt_trans _ _ _ C12 C23). reflexivity.
Qed.


Lemma SFltb_irrefl (r : spec_float) : SFltb r r = false.
Proof.
  unfold SFltb. destruct (is_nan r) eqn:N; [destruct r; try discriminate; reflexivity|].
  rewrite SFcompare_key by assumption.
  pose proof (compare3_antisym (double_key r) (double_key r)) as A.
  destruct (compare3 (double_key r) (double_key r)); try reflexivity; discriminate.
Qed.


(** Away from NaN, [==] on doubles holds exactly when neither is below
    the other, and [<] is asymmetric. *)
Lemma SFeqb_SFltb (r1 r2 : spec_float) :
  is_nan r1 = false -> is_nan r2 = false ->
  SFeqb r1 r2 = negb (SFltb r1 r2) && negb (SFltb r2 r1)
  /\ (SFltb r1 r2 = true -> SFltb r2 r1 = false).
Proof.
  intros N1 N2. unfold SFeqb, SFltb. rewrite !SFcompare_key by assumption.
  rewrite (compare3_antisym (double_key r1) (double_key r2)).
  destruct (compare3 (double_key r1) (double_key r2)); cbn; auto.
Qed.


(* ------------------------------------------------------------------ *)
(** ** asInt *)

(** The range test of [asInt] and of [isConvertibleTo(intValue)] holds
    exactly for the doubles between [minInt] and [maxInt]. *)
Lemma Int_range_test (r : spec_float) :
  is_double r ->
  (SFleb (double_of_Z minInt) r = true /\ SFleb r (double_of_Z maxInt) = true
   <-> double_within minInt maxInt r).
Proof. intros V. apply range_test_exact; try exact V; apply double_scaled_of_Z. Qed.

(** The range test of [isConvertibleTo(uintValue)] holds exactly for the
    doubles between 0 and [maxUInt]. *)
Lemma UInt_range_test (r : spec_float) :
  is_double r ->
  (SFleb (double_of_Z 0) r = true /\ SFleb r (double_of_Z maxUInt) = true
   <-> double_within 0 maxUInt r).
Proof. intros V. apply range_test_exact; try exact V; apply double_scaled_of_Z. Qed.

(** What [static_cast] to an integer type computes on a double is the
    integer part of the number the double stands for. *)
Lemma double_trunc_integer_part (r : spec_float) (z : Z) :
  is_double r -> double_trunc r = Some z -> integer_part r z.
Proof.
  intros V T. unfold integer_part, scaled.
  assert (P0 : 0 < 2 ^ 1074) by (apply Z.pow_pos_nonneg; lia).
  destruct r as [s|s| |s m e]; try discriminate.
  - injection T as <-. exists 0. split; [reflexivity|].
    set (P := 2 ^ 1074) in *. clearbody P. split; intros _; lia.
  - apply is_double_mantissa in V as [M E]. unfold double_trunc in T.
    apply Some_inj in T. subst z.
    exists (cond_Zopp s (Zpos m * 2 ^ (e + 1074))). split; [reflexivity|].
    destruct (Z.leb_spec 0 e) as [L|L].
    + rewrite (Z.pow_add_r 2 e 1074) by lia.
      assert (Q0 : 0 < 2 ^ e) by (apply Z.pow_pos_nonneg; lia).
      set (P := 2 ^ 1074) in *. set (Q := 2 ^ e) in *. clearbody P Q.
      assert (M0 : 0 < Zpos m) by lia. set (x := Zpos m) in *. clearbody x.
      destruct s; unfold cond_Zopp; split; intros; nia.
    + assert (K0 : 0 < 2 ^ (- e)) by (apply Z.pow_pos_nonneg; lia).
      assert (R0 : 0 < 2 ^ (e + 1074)) by (apply Z.pow_pos_nonneg; lia).
      replace (2 ^ 1074) with (2 ^ (- e) * 2 ^ (e + 1074))
        by (rewrite <- Z.pow_add_r by lia; f_equal; lia).
      pose proof (Z.div_mod (Zpos m) (2 ^ (- e)) ltac:(lia)) as D.
      pose proof (Z.mod_pos_bound (Zpos m) (2 ^ (- e)) K0) as B.
      clear P0.
      set (K := 2 ^ (- e)) in *. set (R := 2 ^ (e + 1074)) in *.
      set (q := Zpos m / K) in *. set (t := Zpos m mod K) in *.
      assert (M0 : 0 < Zpos m) by lia.
      set (x := Zpos m) in *. clearbody K R q t x. subst x.
      assert (X0 : 0 < q * (K * R) + t * R) by nia.
      assert (T1 : 0 <= t * R) by nia.
      assert (T2 : t * R < K * R) by nia.
      replace ((K * q + t) * R) with (q * (K * R) + t * R) by ring.
      set (u := t * R) in *. set (w := K * R) in *. clearbody u w.
      destruct s; unfold cond_Zopp; split; intros; nia.
Qed.

(** A double has at most one integer part. *)
Lemma integer_part_unique (r : spec_float) (z z' : Z) :
  integer_part r z -> integer_part r z' -> z = z'.
Proof.
  intros (v & S & A & B) (v' & S' & A' & B'). rewrite S in S'.
  injection S' as <-. unfold scaled in *.
  assert (P0 : 0 < 2 ^ 1074) by (apply Z.pow_pos_nonneg; lia).
  set (P := 2 ^ 1074) in *. clearbody P.
  destruct (Z.le_ge_cases 0 v) as [L|L].
  - specialize (A L). specialize (A' L). nia.
  - specialize (B L). specialize (B' L). nia.
Qed.

(** The integer part, checked on the scaled number. *)
Lemma integer_part_intro (r : spec_float) (v z : Z) :
  double_scaled r = Some v ->
  (if 0 <=? v then (scaled z <=? v) && (v <? scaled (z + 1)) else true) = true ->
  (if v <=? 0 then (scaled (z - 1) <? v) && (v <=? scaled z) else true) = true ->
  integer_part r z.
Proof.
  intros S A B. exists v. split; [exact S|]. split; intros L.
  - apply Z.leb_le in L. rewrite L in A. apply andb_true_iff in A as [A1 A2].
    apply Z.leb_le in A1. apply Z.ltb_lt in A2. split; assumption.
  - apply Z.leb_le in L. rewrite L in B. apply andb_true_iff in B as [B1 B2].
    apply Z.ltb_lt in B1. apply Z.leb_le in B2. split; assumption.
Qed.

(** When a double passes [asInt]'s range test its integer part is an
    [Int], so the conversion [Int(real)] is defined. *)
Lemma Int_of_double_in_range (r : spec_float) :
  is_double r ->
  SFleb (double_of_Z minInt) r = true -> SFleb r (double_of_Z maxInt) = true ->
  exists z, double_trunc r = Some z /\ minInt <= z <= maxInt
            /\ Int_of_double r = Ok z.
Proof.
  intros V Hlo Hhi. rewrite double_of_minInt in Hlo. rewrite double_of_maxInt in Hhi.
  assert (G : forall z, double_trunc r = Some z -> minInt <= z <= maxInt ->
              exists z, double_trunc r = Some z /\ minInt <= z <= maxInt
                        /\ Int_of_double r = Ok z).
  { intros z T B. exists z. repeat split; try tauto. unfold Int_of_double.
    rewrite T. destruct (Z.leb_spec minInt z), (Z.leb_spec z maxInt); cbn; (reflexivity || lia). }
  destruct r as [s|s| |s m e]; try discriminate.
  - apply (G 0); [reflexivity|unfold minInt, maxInt; lia].
  - destruct s; discriminate.
  - apply is_double_mantissa in V as [M E].
    assert (P : forall k, 0 <= k -> 0 <= Zpos m / 2 ^ k)
      by (intros; apply Z.div_pos; [lia|apply Z.pow_pos_nonneg; lia]).
    destruct s.
    + (* negative: the test against minInt decides *)
      clear Hhi. apply SFleb_finite_neg in Hlo. destruct Hlo as [Hlo|[<- Hlo]].
      * apply (G (- (Zpos m / 2 ^ (- e)))).
        { cbn [double_trunc cond_Zopp]. destruct (Z.leb_spec 0 e); [lia|reflexivity]. }
        assert (Zpos m / 2 ^ (- e) <= Zpos m / 2 ^ 22) by (apply div_pow2_le; lia).
        assert (Zpos m / 2 ^ 22 < 2 ^ 31).
        { apply Z.div_lt_upper_bound; [lia|]. change (2 ^ 22 * 2 ^ 31) with (2 ^ 53). exact M. }
        specialize (P (- e)). unfold minInt, maxInt. lia.
      * apply (G (- (Zpos m / 2 ^ 21))); [reflexivity|].
        assert (Zpos m / 2 ^ 21 <= 4503599627370496 / 2 ^ 21)
          by (apply Z.div_le_mono; lia).
        specialize (P 21).
        change (4503599627370496 / 2 ^ 21) with (2 ^ 31) in *.
        unfold minInt, maxInt. lia.
    + (* positive: the test against maxInt decides *)
      clear Hlo. apply SFleb_finite_nonneg in Hhi. destruct Hhi as [Hhi|[-> Hhi]].
      * apply (G (Zpos m / 2 ^ (- e))).
        { cbn [double_trunc cond_Zopp]. destruct (Z.leb_spec 0 e); [lia|reflexivity]. }
        assert (Zpos m / 2 ^ (- e) <= Zpos m / 2 ^ 23) by (apply div_pow2_le; lia).
        assert (Zpos m / 2 ^ 23 < 2 ^ 30).
        { apply Z.div_lt_upper_bound; [lia|]. change (2 ^ 23 * 2 ^ 30) with (2 ^ 53). exact M. }
        specialize (P (- e)). unfold minInt, maxInt. lia.
      * apply (G (Zpos m / 2 ^ 22)); [reflexivity|].
        assert (Zpos m / 2 ^ 22 <= 9007199250546688 / 2 ^ 22)
          by (apply Z.div_le_mono; lia).
        specialize (P 22).
        change (9007199250546688 / 2 ^ 22) with (2 ^ 31 - 1) in *.
        unfold minInt, maxInt. lia.
Qed.


(** [asInt] on a Real node, in the checked build. *)
Lemma Value_asInt_real (r : spec_float) (a : bool) (defaultValue : Z) :
  Value_asInt checked (mkValue (holds_real r) a) defaultValue
  = if SFleb (double_of_Z minInt) r && SFleb r (double_of_Z maxInt)
    then Int_of_double r
    else Failed (RuntimeError "Real out of signed integer range").
Proof.
  unfold Value_asInt, JSONCPP_ASSERT_MESSAGE, JSONCPP_FAIL_MESSAGE.
  cbn [value_ checked JSONCPP_ENABLE_ASSERTS].
  destruct (SFleb (double_of_Z minInt) r && SFleb r (double_of_Z maxInt));
    reflexivity.
Qed.

(** C9: in the checked build [asInt] throws whenever the numeric value
    is outside the range of [Int] (so for the UInt [maxInt + 1]), returns
    the natively converted value of an Int, UInt, Real or Bool node in
    range (the payload of an Int or a UInt, 0 or 1 for a Bool, and for
    a Real the integer part of the number it stands for, the integer
    next to it on the side of zero), and returns the caller's default
    for a Null node and for no other: the result of a node that is not
    Null does not depend on the default. *)
Theorem Value_asInt_checked (this : Value) (defaultValue : Z) :
  payload_valid this ->
  match value_ this with
  | holds_null => Value_asInt checked this defaultValue = Ok defaultValue
  | holds_int i =>
      (minInt <= i <= maxInt -> Value_asInt checked this defaultValue = Ok i)
      /\ (i < minInt \/ maxInt < i ->
          exists message,
            Value_asInt checked this defaultValue = Failed (RuntimeError message))
  | holds_uint u =>
      (u <= maxInt -> Value_asInt checked this defaultValue = Ok u)
      /\ (maxInt < u ->
          exists message,
            Value_asInt checked this defaultValue = Failed (RuntimeError message))
  | holds_real r =>
      (double_within minInt maxInt r ->
       exists z, integer_part r z /\ minInt <= z <= maxInt
                 /\ Value_asInt checked this defaultValue = Ok z)
      /\ (~ double_within minInt maxInt r ->
          exists message,
            Value_asInt checked this defaultValue = Failed (RuntimeError message))
  | holds_bool x => Value_asInt checked this defaultValue = Ok (if x then 1 else 0)
  | holds_string _ | holds_array _ | holds_object _ =>
      exists message,
        Value_asInt checked this defaultValue = Failed (RuntimeError message)
  end
  /\ Value_asInt checked (Value_of_UInt (maxInt + 1)) defaultValue
     = Failed (RuntimeError "unsigned integer out of signed int range")
  /\ (type_ this <> nullValue ->
      forall otherDefault : Z,
        Value_asInt checked this otherDefault = Value_asInt checked this defaultValue).
Proof.
  intros V. split; [|split; [reflexivity|]].
  - destruct this as [[ |i|u|r|s|x|m|m] a]; cbn [value_];
      try reflexivity; try (eexists; reflexivity).
    + (* Int *)
      unfold Value_asInt, JSONCPP_ASSERT_MESSAGE, JSONCPP_FAIL_MESSAGE; cbn.
      split.
      * intros [Lo Hi]. apply Z.leb_le in Lo, Hi. rewrite Lo, Hi. cbn.
        apply Z.leb_le in Lo, Hi. unfold to_int32, minInt, maxInt in *.
        f_equal. rewrite Z.mod_small; lia.
      * intros [Lo|Hi].
        -- apply Z.leb_gt in Lo. rewrite Lo. eexists; reflexivity.
        -- apply Z.leb_gt in Hi. rewrite Hi, andb_false_r. eexists; reflexivity.
    + (* UInt *)
      unfold Value_asInt, JSONCPP_ASSERT_MESSAGE, JSONCPP_FAIL_MESSAGE; cbn.
      change (to_uint32 maxInt) with maxInt. cbn in V.
      split.
      * intros Hi. apply Z.leb_le in Hi. rewrite Hi. cbn.
        apply Z.leb_le in Hi. unfold to_int32, maxInt in *.
        f_equal. rewrite Z.mod_small; lia.
      * intros Hi. apply Z.leb_gt in Hi. rewrite Hi. eexists; reflexivity.
    + (* Real *)
      rewrite Value_asInt_real. cbn in V.
      split.
      * intros W. apply (Int_range_test r V) in W as [Lo Hi].
        destruct (Int_of_double_in_range _ V Lo Hi) as (z & T & B & C).
        exists z. split; [exact (double_trunc_integer_part r z V T)|].
        rewrite Lo, Hi. cbn. auto.
      * intros W.
        destruct (SFleb (double_of_Z minInt) r) eqn:Lo;
          [|eexists; reflexivity].
        destruct (SFleb r (double_of_Z maxInt)) eqn:Hi;
          [|eexists; reflexivity].
        contradiction W. apply (Int_range_test r V). split; assumption.
  - intros N d'. destruct_type this; try reflexivity. contradiction.
Qed.

(** [asInt] on the Real -2.5, the double of mantissa 5 * 2^50 and
    exponent -51: the payload is a double, it is within the range of
    [Int], and the result is -2, its integer part. *)
Lemma Value_asInt_checked_witness :
  let r := S754_finite true 5629499534213120 (-51) in
  payload_valid (Value_of_double r)
  /\ double_within minInt maxInt r
  /\ Value_asInt checked (Value_of_double r) 42 = Ok (-2).
Proof.
  intros r.
  assert (V : payload_valid (Value_of_double r)) by (vm_compute; reflexivity).
  assert (W : double_within minInt maxInt r).
  { exists (- (5629499534213120 * 2 ^ 1023)). split; [vm_compute; reflexivity|].
    split; apply Z.leb_le; vm_compute; reflexivity. }
  split; [exact V|]. split; [exact W|].
  destruct (proj1 (proj1 (Value_asInt_checked (Value_of_double r) 42 V)) W)
    as (z & P & _ & E).
  rewrite E. f_equal. apply (integer_part_unique r z (-2) P).
  apply (integer_part_intro r (- (5629499534213120 * 2 ^ 1023)));
    vm_compute; reflexivity.
Defined.

(** [asInt] at work in the checked build. *)
Example Value_asInt_checked_examples :
  Value_asInt checked null 42 = Ok 42
  /\ Value_asInt checked (Value_of_Int (-5)) 42 = Ok (-5)
  /\ Value_asInt checked (Value_of_UInt 2147483647) 42 = Ok 2147483647
  /\ Value_asInt checked (Value_of_UInt 2147483648) 42
     = Failed (RuntimeError "unsigned integer out of signed int range")
  /\ Value_asInt checked (Value_of_Int 2147483648) 42
     = Failed (RuntimeError "unsigned integer out of signed int range")
  /\ Value_asInt checked (Value_of_double (double_of_Z (-7))) 42 = Ok (-7)
  /\ Value_asInt checked (Value_of_double (binary_normalize 53 1024 (-5) (-1) false)) 42 = Ok (-2)
  /\ Value_asInt checked (Value_of_double (double_of_Z 2147483648)) 42
     = Failed (RuntimeError "Real out of signed integer range")
  /\ Value_asInt checked (Value_of_double S754_nan) 42
     = Failed (RuntimeError "Real out of signed integer range")
  /\ Value_asInt checked (Value_of_bool true) 42 = Ok 1
  /\ Value_asInt checked (Value_of_StaticString (mkCstr 1 "12")) 42
     = Failed (RuntimeError "Type is not convertible to int").
Proof. repeat (split; [vm_compute; reflexivity|]); vm_compute; reflexivity. Qed.


(* ------------------------------------------------------------------ *)
(** ** isConvertibleTo *)

(** C5 (amended): a Null node converts to every tag.  An Int, UInt or
    Real node converts to its own tag, to Real, String and Bool; an Int
    converts to UInt exactly when it is not negative, a UInt to Int
    exactly when it is at most [maxInt], a Real to Int or UInt exactly
    when it lies in that type's range, and each of them to Null exactly
    when it is zero.  A Bool node converts to Int, UInt, Real, String and
    Bool, and to Null exactly when false.  A String node converts to
    String, and to Null exactly when empty.  An Array or Object node
    converts to its own tag, and to Null exactly when empty.  Nothing
    else converts. *)
Theorem Value_isConvertibleTo_table (this : Value) (other : ValueType) :
  payload_valid this ->
  (Value_isConvertibleTo this other = true <-> convertible this other).
Proof.
  unfold Value_isConvertibleTo, convertible, payload_valid.
  destruct_type this; intros V.
  - tauto.
  - destruct other; cbn; rewrite ?andb_true_r, ?orb_false_r, ?orb_true_r;
      try tauto; try (split; [discriminate|contradiction]).
    + apply Z.eqb_eq.
    + apply Z.leb_le.
  - change (to_uint32 maxInt) with maxInt.
    destruct other; cbn; rewrite ?andb_true_r, ?orb_false_r, ?orb_true_r;
      try tauto; try (split; [discriminate|contradiction]).
    + apply Z.eqb_eq.
    + apply Z.leb_le.
  - destruct other; cbn; rewrite ?andb_true_r, ?orb_false_r, ?orb_true_r;
      try tauto; try (split; [discriminate|contradiction]).
    + apply SFeqb_zero.
    + rewrite andb_true_iff. apply Int_range_test. exact V.
    + rewrite andb_true_iff. apply UInt_range_test. exact V.
  - destruct other; cbn; try tauto; try (split; [discriminate|contradiction]).
    destruct s as [[p t]|]; unfold first_char_is_nul; cbn.
    + destruct t; split; intros H; try discriminate; try reflexivity.
      * right; eexists; split; reflexivity.
      * destruct H as [H|(c & H1 & H2)]; [discriminate|].
        injection H1 as <-; discriminate.
    + split; [left|]; reflexivity.
  - destruct other; cbn; rewrite ?andb_true_r, ?orb_false_r, ?orb_true_r;
      try tauto; try (split; [discriminate|contradiction]).
    destruct x; cbn; split; (discriminate || reflexivity).
  - destruct other; cbn; try tauto; try (split; [discriminate|contradiction]).
    destruct m; cbn; split; (discriminate || reflexivity).
  - destruct other; cbn; try tauto; try (split; [discriminate|contradiction]).
    destruct m; cbn; split; (discriminate || reflexivity).
Qed.

(** The table at the Real 7 asked for Int: the payload is a double and
    the code's answer is the table's. *)
Lemma Value_isConvertibleTo_table_witness :
  payload_valid (Value_of_double (double_of_Z 7))
  /\ (Value_isConvertibleTo (Value_of_double (double_of_Z 7)) intValue = true
      <-> convertible (Value_of_double (double_of_Z 7)) intValue).
Proof.
  assert (V : payload_valid (Value_of_double (double_of_Z 7)))
    by (vm_compute; reflexivity).
  split; [exact V|].
  exact (Value_isConvertibleTo_table (Value_of_double (double_of_Z 7)) intValue V).
Defined.

(** C5 (as stated, refuted): not every numeric node converts to every
    other numeric tag.  The Int -1 does not convert to UInt, the UInt
    2^31 does not convert to Int, and the Real 2^32 converts to neither. *)
Lemma Value_isConvertibleTo_numeric_not_total :
  Value_isConvertibleTo (Value_of_Int (-1)) uintValue = false
  /\ Value_isConvertibleTo (Value_of_UInt (2 ^ 31)) intValue = false
  /\ Value_isConvertibleTo (Value_of_double (double_of_Z (2 ^ 32))) intValue = false
  /\ Value_isConvertibleTo (Value_of_double (double_of_Z (2 ^ 32))) uintValue = false.
Proof. repeat split. Qed.


(* ------------------------------------------------------------------ *)
(** ** Move construction and move assignment *)

(** C6 (amended): move construction leaves the new node with the tag
    and payload the source had, and the source Null; move assignment
    between two distinct nodes exchanges the tags and payloads of the
    two, so the destination has what the source had and the source has
    what the destination had. *)
Theorem Value_move_exchanges (this other : Value) :
  (value_ (fst (Value_move other)) = value_ other
   /\ type_ (snd (Value_move other)) = nullValue
   /\ Value_isNull (snd (Value_move other)) = true
   /\ Value_eq (snd (Value_move other)) null = true)
  /\ (value_ (fst (Value_move_assign this other)) = value_ other
      /\ value_ (snd (Value_move_assign this other)) = value_ this).
Proof. repeat split. Qed.


(** After a move assignment the source is Null exactly when the
    destination was. *)
Lemma Value_move_assign_source_null (this other : Value) :
  type_ (snd (Value_move_assign this other)) = nullValue
  <-> type_ this = nullValue.
Proof. reflexivity. Qed.


(** [swap] leaves the ownership flag of each node where it was. *)
Lemma Value_swap_keeps_allocated (this other : Value) :
  allocated_ (fst (Value_swap this other)) = allocated_ this
  /\ allocated_ (snd (Value_swap this other)) = allocated_ other.
Proof. split; reflexivity. Qed.

(** C6 (as stated, refuted): after the move assignment of the Int 5 to
    a node holding the Int 7, the source is not Null: it holds the 7. *)
Lemma Value_move_assign_source_not_null :
  value_ (snd (Value_move_assign (Value_of_Int 7) (Value_of_Int 5))) = holds_int 7
  /\ type_ (snd (Value_move_assign (Value_of_Int 7) (Value_of_Int 5))) = intValue
  /\ Value_isNull (snd (Value_move_assign (Value_of_Int 7) (Value_of_Int 5))) = false.
Proof. repeat split. Qed.


(* ------------------------------------------------------------------ *)
(** ** Copy construction *)

Lemma CZString_copy_copied (k : CZString) (h lo hi : N) :
  (lo <= h)%N -> (snd (CZString_copy k h) <= hi)%N ->
  (h <= snd (CZString_copy k h))%N
  /\ key_copied lo hi k (fst (CZString_copy k h)).
Proof.
  unfold CZString_copy, key_copied.
  destruct k as [[s|] i]; cbn.
  - destruct (Z.eqb_spec i noDuplication) as [->|N]; cbn; intros L H;
      [split; [lia|reflexivity]|].
    split; [lia|]. exists h. split; [lia|reflexivity].
  - intros L H. split; [lia|reflexivity].
Qed.


(** The copy of a store, entry by entry. *)
Lemma ObjectValues_copy_copied (m : list (CZString * Value)) :
  Forall (fun e => forall h lo hi : N,
              (lo <= h)%N -> (snd (Value_copy (snd e) h) <= hi)%N ->
              (h <= snd (Value_copy (snd e) h))%N
              /\ copied lo hi (snd e) (fst (Value_copy (snd e) h))) m ->
  forall h lo hi : N,
    (lo <= h)%N -> (snd (ObjectValues.copy Value_copy m h) <= hi)%N ->
    (h <= snd (ObjectValues.copy Value_copy m h))%N
    /\ Forall2 (fun e e' => key_copied lo hi (fst e) (fst e')
                            /\ copied lo hi (snd e) (snd e'))
               m (fst (ObjectValues.copy Value_copy m h)).
Proof.
  induction 1 as [|[k v] r Hv _ IH]; intros h lo hi L H; cbn in *.
  - split; [lia|constructor].
  - pose proof (CZString_copy_copied k h) as Ck.
    destruct (CZString_copy k h) as [k' h1]; cbn in *.
    specialize (Hv h1).
    destruct (Value_copy v h1) as [v' h2]; cbn in *.
    specialize (IH h2).
    destruct (ObjectValues.copy Value_copy r h2) as [r' h3]; cbn in *.
    assert (L1 : (h <= h1)%N) by (apply (Ck h h1); lia).
    assert (L2 : (h1 <= h2)%N) by (apply (Hv h1 h2); lia).
    assert (L3 : (h2 <= h3)%N) by (apply (IH h2 h3); lia).
    split; [lia|]. constructor; [split|].
    + apply Ck; lia.
    + apply Hv; lia.
    + apply IH; lia.
Qed.


(** The copy of a node, with the bounds of the fresh addresses left
    open for the induction. *)
Lemma Value_copy_copied (other : Value) :
  forall h lo hi : N,
    (lo <= h)%N -> (snd (Value_copy other h) <= hi)%N ->
    (h <= snd (Value_copy other h))%N
    /\ copied lo hi other (fst (Value_copy other h)).
Proof.
  induction other as [v a S|m a IH|m a IH] using Value_nested_ind; intros h lo hi L H.
  - destruct v as [ |i|u|r|[s|]|x|m|m]; try contradiction; cbn in *.
    1-4, 7: split; [lia|apply copied_plain; exact I].
    + split; [lia|]. apply copied_string. lia.
    + split; [lia|]. apply copied_no_string.
  - pose proof (ObjectValues_copy_copied m IH h lo hi L) as C. cbn in *.
    destruct (ObjectValues.copy Value_copy m h) as [m' h']; cbn in *.
    split; [apply C; exact H|]. constructor. apply C; exact H.
  - pose proof (ObjectValues_copy_copied m IH h lo hi L) as C. cbn in *.
    destruct (ObjectValues.copy Value_copy m h) as [m' h']; cbn in *.
    split; [apply C; exact H|]. constructor. apply C; exact H.
Qed.


(** Consecutive addresses: splitting a range, bounds, no repetition. *)
Lemma addresses_app (h : N) (a b : nat) :
  addresses h (a + b) = addresses h a ++ addresses (h + N.of_nat a) b.
Proof.
  revert h; induction a as [|a IH]; intros h; cbn [addresses Nat.add app].
  - rewrite N.add_0_r. reflexivity.
  - rewrite IH. f_equal. f_equal. f_equal. lia.
Qed.

Lemma addresses_between (lo hi mid : N) :
  (lo <= mid)%N -> (mid <= hi)%N ->
  addresses lo (N.to_nat (hi - lo))
  = addresses lo (N.to_nat (mid - lo)) ++ addresses mid (N.to_nat (hi - mid)).
Proof.
  intros L H.
  replace (N.to_nat (hi - lo)) with (N.to_nat (mid - lo) + N.to_nat (hi - mid))%nat by lia.
  rewrite addresses_app. f_equal. f_equal. lia.
Qed.

Lemma addresses_bounds (h : N) (n : nat) (p : N) :
  In p (addresses h n) -> (h <= p < h + N.of_nat n)%N.
Proof.
  revert h; induction n as [|n IH]; intros h; cbn; [contradiction|].
  intros [<-|I]; [lia|]. apply IH in I. lia.
Qed.

Lemma addresses_NoDup (h : N) (n : nat) : NoDup (addresses h n).
Proof.
  revert h; induction n as [|n IH]; intros h; cbn; constructor; [|apply IH].
  intros I. apply addresses_bounds in I. lia.
Qed.

(** What the copy of a key, and of a store, owns. *)
Lemma CZString_copy_owned (k : CZString) (h : N) :
  (h <= snd (CZString_copy k h))%N
  /\ key_owned (fst (CZString_copy k h))
     = addresses h (N.to_nat (snd (CZString_copy k h) - h)).
Proof.
  unfold CZString_copy, key_owned.
  destruct k as [[c|] i]; cbn.
  - destruct (Z.eqb_spec i noDuplication) as [->|N]; cbn.
    + rewrite N.sub_diag. split; [lia|reflexivity].
    + replace (N.to_nat (N.succ h - h)) with 1%nat by lia. split; [lia|reflexivity].
  - rewrite N.sub_diag. split; [lia|]. destruct (i =? duplicate); reflexivity.
Qed.

Lemma ObjectValues_copy_owned (m : list (CZString * Value)) :
  Forall (fun e => forall h : N,
              (h <= snd (Value_copy (snd e) h))%N
              /\ owned (fst (Value_copy (snd e) h))
                 = addresses h (N.to_nat (snd (Value_copy (snd e) h) - h))) m ->
  forall h : N,
    (h <= snd (ObjectValues.copy Value_copy m h))%N
    /\ flat_map (fun e => key_owned (fst e) ++ owned (snd e))
                (fst (ObjectValues.copy Value_copy m h))
       = addresses h (N.to_nat (snd (ObjectValues.copy Value_copy m h) - h)).
Proof.
  induction 1 as [|[k v] r Hv _ IH]; intros h; cbn in *.
  - rewrite N.sub_diag. split; [lia|reflexivity].
  - pose proof (CZString_copy_owned k h) as [Lk Ek].
    destruct (CZString_copy k h) as [k' h1]; cbn in *.
    destruct (Hv h1) as [Lv Ev].
    destruct (Value_copy v h1) as [v' h2]; cbn in *.
    destruct (IH h2) as [Lr Er].
    destruct (ObjectValues.copy Value_copy r h2) as [r' h3]; cbn in *.
    split; [lia|].
    rewrite Ek, Ev, Er, <- app_assoc.
    rewrite (addresses_between h h3 h1) by lia.
    rewrite (addresses_between h1 h3 h2) by lia. reflexivity.
Qed.

(** All the text a copy owns lies in the storage allocated during the
    copy, one allocation for each, none shared with the original or
    between two owners. *)
Lemma Value_copy_owned (other : Value) :
  forall h : N,
    (h <= snd (Value_copy other h))%N
    /\ owned (fst (Value_copy other h))
       = addresses h (N.to_nat (snd (Value_copy other h) - h)).
Proof.
  induction other as [v a S|m a IH|m a IH] using Value_nested_ind; intros h.
  - destruct v as [ |i|u|r|[s|]|x|m|m]; try contradiction; cbn;
      try (rewrite N.sub_diag; split; [lia|reflexivity]).
    replace (N.to_nat (N.succ h - h)) with 1%nat by lia. split; [lia|reflexivity].
  - pose proof (ObjectValues_copy_owned m IH h) as C. cbn in *.
    destruct (ObjectValues.copy Value_copy m h) as [m' h']; cbn in *. exact C.
  - pose proof (ObjectValues_copy_owned m IH h) as C. cbn in *.
    destruct (ObjectValues.copy Value_copy m h) as [m' h']; cbn in *. exact C.
Qed.

(** No two owners in a copy share storage, and all of it is fresh. *)
Lemma Value_copy_owned_distinct (other : Value) (h : N) :
  NoDup (owned (fst (Value_copy other h)))
  /\ forall p, In p (owned (fst (Value_copy other h))) ->
               (h <= p < snd (Value_copy other h))%N.
Proof.
  destruct (Value_copy_owned other h) as [L E]. rewrite E. split.
  - apply addresses_NoDup.
  - intros p I. apply addresses_bounds in I. lia.
Qed.

(** C7 (amended): copy construction deep-copies recursively: every
    child node; every string payload that is present, which the copy
    owns as a fresh duplicate whether the original owned or borrowed
    its text; and every key by its policy, the no-duplication keys
    staying borrowed, the duplicate and duplicate-on-copy keys becoming
    owned duplicates, the Index keys copied by value.  The text the copy
    owns is exactly the storage allocated during the copy, each
    allocation owned once. *)
Theorem Value_copy_deep (other : Value) (h : allocator) :
  copied h (snd (Value_copy other h)) other (fst (Value_copy other h))
  /\ (h <= snd (Value_copy other h))%N
  /\ owned (fst (Value_copy other h))
     = addresses h (N.to_nat (snd (Value_copy other h) - h))
  /\ NoDup (owned (fst (Value_copy other h))).
Proof.
  destruct (Value_copy_copied other h h (snd (Value_copy other h)))
    as [L C]; [lia|lia|].
  split; [exact C|]. split; [exact L|].
  split; [apply Value_copy_owned|apply Value_copy_owned_distinct].
Qed.

(** C7 (as stated, refuted): the copy of a node that borrows the text
    "abc" at address 5 does not borrow it: the text is duplicated (one
    allocation is made, here at address 100), and the copy owns the
    duplicate. *)
Lemma Value_copy_duplicates_borrowed_string :
  Value_copy (Value_of_StaticString (mkCstr 5 "abc")) 100%N
  = ({| value_ := holds_string (Some (mkCstr 100 "abc")); allocated_ := true |}, 101%N)
  /\ allocated_ (Value_of_StaticString (mkCstr 5 "abc")) = false
  /\ ptr_eqb (Some (mkCstr 100 "abc")) (Some (mkCstr 5 "abc")) = false.
Proof. repeat split. Qed.


(** The three policies of a Name key and an Index key under copy. *)
Example CZString_copy_policies :
  CZString_copy (mkCZString (Some (mkCstr 5 "k")) noDuplication) 100%N
  = (mkCZString (Some (mkCstr 5 "k")) noDuplication, 100%N)
  /\ CZString_copy (mkCZString (Some (mkCstr 5 "k")) duplicate) 100%N
     = (mkCZString (Some (mkCstr 100 "k")) duplicate, 101%N)
  /\ CZString_copy (mkCZString (Some (mkCstr 5 "k")) duplicateOnCopy) 100%N
     = (mkCZString (Some (mkCstr 100 "k")) duplicate, 101%N)
  /\ CZString_copy (CZString_index 7) 100%N = (CZString_index 7, 100%N).
Proof. repeat split. Qed.


(** The copy of an object with a borrowed string, an owned key and a
    borrowed key: three allocations, for the string and the owned key. *)
Example Value_copy_object :
  Value_copy
    (object_of
       [(mkCZString (Some (mkCstr 1 "a")) duplicateOnCopy,
         Value_of_StaticString (mkCstr 2 "x"));
        (mkCZString (Some (mkCstr 3 "b")) noDuplication,
         array_of [(CZString_index 0, Value_of_Int 7)])]) 100%N
  = (object_of
       [(mkCZString (Some (mkCstr 100 "a")) duplicate,
         {| value_ := holds_string (Some (mkCstr 101 "x")); allocated_ := true |});
        (mkCZString (Some (mkCstr 3 "b")) noDuplication,
         array_of [(CZString_index 0, Value_of_Int 7)])], 102%N).
Proof. reflexivity. Qed.

(* ------------------------------------------------------------------ *)
(** ** The order of nodes *)

(** The two lexicographic comparisons of stores are one comparison in
    its two directions, when the same holds of the nodes of [m]. *)
Lemma lexicographical_compare_flip_spec (m : list (CZString * Value)) :
  Forall (fun e => forall b : Value,
              Value_lt_flip (snd e) b = Value_lt b (snd e)
              /\ Value_lt_flip b (snd e) = Value_lt (snd e) b) m ->
  forall n : list (CZString * Value),
    ObjectValues.lexicographical_compare_flip Value_lt Value_lt_flip m n
    = ObjectValues.lexicographical_compare Value_lt Value_lt_flip n m
    /\ ObjectValues.lexicographical_compare_flip Value_lt Value_lt_flip n m
       = ObjectValues.lexicographical_compare Value_lt Value_lt_flip m n.
Proof.
  induction 1 as [|[k1 v1] m Hv _ IH]; intros [|[k2 v2] n]; cbn;
    try (split; reflexivity).
  cbn in Hv. destruct (Hv v2) as [F1 F2]. destruct (IH n) as [I1 I2].
  rewrite F1, F2, I1, I2. split; reflexivity.
Qed.


Lemma Value_lt_flip_both (a : Value) :
  forall b : Value,
    Value_lt_flip a b = Value_lt b a /\ Value_lt_flip b a = Value_lt a b.
Proof.
  induction a as [v al S|m al IH|m al IH] using Value_nested_ind; intros b.
  - destruct v as [ |i|u|r|s|x|m|m]; try contradiction;
      destruct b as [[ | | | | | | | ] ?]; split; reflexivity.
  - destruct b as [[ | | | | | |n|n] ?]; try (split; reflexivity).
    cbn. destruct (lexicographical_compare_flip_spec m IH n) as [E1 E2].
    rewrite E1, E2. split; reflexivity.
  - destruct b as [[ | | | | | |n|n] ?]; try (split; reflexivity).
    cbn. destruct (lexicographical_compare_flip_spec m IH n) as [E1 E2].
    rewrite E1, E2. split; reflexivity.
Qed.


(** [Value_lt_flip this other] is [other < this]. *)
Lemma Value_lt_flip_spec (this other : Value) :
  Value_lt_flip this other = Value_lt other this.
Proof. apply Value_lt_flip_both. Qed.


(** The equation of [operator<] on two stores of one tag, in terms of
    [operator<] alone. *)
Lemma Value_lt_stores (m n : list (CZString * Value)) (a b : bool) :
  Value_lt (mkValue (holds_array m) a) (mkValue (holds_array n) b)
  = (if negb (map_delta m n =? 0) then map_delta m n <? 0
     else ObjectValues.lexicographical_compare
            Value_lt (fun v1 v2 => Value_lt v2 v1) m n)
  /\ Value_lt (mkValue (holds_object m) a) (mkValue (holds_object n) b)
     = (if negb (map_delta m n =? 0) then map_delta m n <? 0
        else ObjectValues.lexicographical_compare
               Value_lt (fun v1 v2 => Value_lt v2 v1) m n).
Proof.
  assert (E : forall m n,
             ObjectValues.lexicographical_compare Value_lt Value_lt_flip m n
             = ObjectValues.lexicographical_compare
                 Value_lt (fun v1 v2 => Value_lt v2 v1) m n).
  { clear. induction m as [|[k1 v1] m IH]; intros [|[k2 v2] n]; cbn;
      try reflexivity.
    rewrite Value_lt_flip_spec, IH. reflexivity. }
  split; cbn; rewrite E; reflexivity.
Qed.

(** Between different tags the tag order decides. *)
Lemma Value_lt_different_tags (x y : Value) :
  type_ x <> type_ y ->
  Value_lt x y = (ValueType_to_Z (type_ x) <? ValueType_to_Z (type_ y)).
Proof.
  by_tags x y; intros H; try reflexivity; contradiction H; reflexivity.
Qed.


(** On scalar nodes [<] is irreflexive and transitive. *)
Lemma Value_lt_irrefl_scalar (x : Value) : is_scalar x -> Value_lt x x = false.
Proof.
  destruct x as [[ | | | | | | | ] ?]; cbn; intros S; try contradiction;
    try reflexivity.
  - apply Z.ltb_irrefl.
  - apply Z.ltb_irrefl.
  - apply SFltb_irrefl.
  - destruct string_ as [c|]; cbn; [|reflexivity].
    unfold strcmp. rewrite compare_chars_refl. reflexivity.
  - destruct bool_; reflexivity.
Qed.


Lemma Value_lt_trans_scalar (x y z : Value) :
  is_scalar x -> is_scalar y -> is_scalar z ->
  Value_lt x y = true -> Value_lt y z = true -> Value_lt x z = true.
Proof.
  destruct x as [[ | | | | | | | ] ?], y as [[ | | | | | | | ] ?],
           z as [[ | | | | | | | ] ?];
    cbn; intros Sx Sy Sz; try contradiction; try discriminate; try reflexivity;
    clear Sx Sy Sz.
  - rewrite !Z.ltb_lt. lia.
  - rewrite !Z.ltb_lt. lia.
  - apply SFltb_trans.
  - destruct string_ as [a|], string_0 as [b|], string_1 as [c|]; cbn;
      try discriminate; try reflexivity.
    unfold strcmp.
    destruct (compare_chars (bytes a) (bytes b)) eqn:C1; try discriminate.
    destruct (compare_chars (bytes b) (bytes c)) eqn:C2; try discriminate.
    rewrite (compare_chars_lt_trans _ _ _ C1 C2). reflexivity.
  - destruct bool_, bool_0, bool_1; cbn; auto.
Qed.


(** [==] holds exactly when neither node is below the other, and [<] is
    asymmetric. *)
Lemma Value_eq_lt_scalar (x y : Value) :
  is_scalar x -> is_scalar y -> not_nan x -> not_nan y -> strings_agree x y ->
  Value_eq x y = negb (Value_lt x y) && negb (Value_lt y x)
  /\ (Value_lt x y = true -> Value_lt y x = false).
Proof.
  unfold strings_agree.
  by_tags x y; intros Sx Sy Nx Ny A; try contradiction; clear Sx Sy;
    try (split; [reflexivity|]; (discriminate || reflexivity)).
  - split; [|rewrite Z.ltb_lt, Z.ltb_ge; lia].
    destruct (Z.eqb_spec int_ int_0), (Z.ltb_spec int_ int_0),
      (Z.ltb_spec int_0 int_); cbn; (reflexivity || lia).
  - split; [|rewrite Z.ltb_lt, Z.ltb_ge; lia].
    destruct (Z.eqb_spec uint_ uint_0), (Z.ltb_spec uint_ uint_0),
      (Z.ltb_spec uint_0 uint_); cbn; (reflexivity || lia).
  - apply SFeqb_SFltb; assumption.
  - destruct string_ as [a|], string_0 as [b|]; cbn in *;
      try (split; [reflexivity|]; (discriminate || reflexivity)).
    unfold strcmp. rewrite (compare_chars_antisym (bytes a) (bytes b)).
    destruct (N.eqb_spec (addr a) (addr b)) as [E|N].
    + rewrite (A E), compare_chars_refl. cbn. split; [reflexivity|discriminate].
    + destruct (compare_chars (bytes a) (bytes b)); cbn; split;
        (reflexivity || discriminate).
  - destruct bool_, bool_0; cbn; split; (reflexivity || discriminate).
Qed.


(** C8 (amended): between two nodes of different tags [<] is decided by
    the tag order Null < Int < UInt < Real < String < Bool < Array <
    Object alone; and on scalar nodes none of which is a Real NaN, [<] is
    a strict total order: irreflexive, transitive, and of two nodes
    exactly one is below the other unless they are [==]; [<=], [>=],
    [>], [!=] and [compare] agree with it. *)
Theorem Value_lt_tag_order_and_scalar_order :
  (forall x y : Value,
      type_ x <> type_ y ->
      Value_lt x y = (ValueType_to_Z (type_ x) <? ValueType_to_Z (type_ y)))
  /\ map ValueType_to_Z
       [nullValue; intValue; uintValue; realValue; stringValue; booleanValue;
        arrayValue; objectValue] = [0; 1; 2; 3; 4; 5; 6; 7]
  /\ (forall x y z : Value,
        is_scalar x -> is_scalar y -> is_scalar z ->
        not_nan x -> not_nan y -> strings_agree x y ->
        Value_lt x x = false
        /\ (Value_lt x y = true -> Value_lt y z = true -> Value_lt x z = true)
        /\ (Value_lt x y = true -> Value_lt y x = false)
        /\ (Value_lt x y = true \/ Value_eq x y = true \/ Value_lt y x = true)
        /\ (Value_eq x y = true <-> Value_lt x y = false /\ Value_lt y x = false)
        /\ (Value_ne x y = true <-> Value_lt x y = true \/ Value_lt y x = true)
        /\ (Value_le x y = true <-> Value_lt y x = false)
        /\ (Value_ge x y = true <-> Value_lt x y = false)
        /\ (Value_gt x y = true <-> Value_lt y x = true)
        /\ (Value_compare x y = -1 <-> Value_lt x y = true)
        /\ (Value_compare x y = 0 <-> Value_eq x y = true)
        /\ (Value_compare x y = 1 <-> Value_lt y x = true)).
Proof.
  split; [exact Value_lt_different_tags|]. split; [reflexivity|].
  intros x y z Sx Sy Sz Nx Ny A.
  destruct (Value_eq_lt_scalar x y Sx Sy Nx Ny A) as [E asym].
  unfold Value_compare, Value_ne, Value_le, Value_ge, Value_gt. rewrite E.
  split; [apply Value_lt_irrefl_scalar; exact Sx|].
  split; [apply Value_lt_trans_scalar; assumption|].
  split; [exact asym|].
  destruct (Value_lt x y) eqn:Lxy; [rewrite (asym eq_refl)|];
    destruct (Value_lt y x) eqn:Lyx; cbn;
    repeat split; intros; try tauto; try discriminate; try lia;
    try (destruct H; discriminate); auto.
Qed.


(** The order at work: on the Ints 1, 2, 3, and on two String nodes
    that hold the text "a" in different storage, which are [==]. *)
Lemma Value_lt_tag_order_and_scalar_order_witness :
  (is_scalar (Value_of_Int 1) /\ not_nan (Value_of_Int 1)
   /\ strings_agree (Value_of_Int 1) (Value_of_Int 2)
   /\ Value_lt (Value_of_Int 1) (Value_of_Int 2) = true)
  /\ (strings_agree (Value_of_StaticString (mkCstr 1 "a"))
                    (Value_of_StaticString (mkCstr 2 "a"))
      /\ Value_eq (Value_of_StaticString (mkCstr 1 "a"))
                  (Value_of_StaticString (mkCstr 2 "a")) = true).
Proof.
  destruct Value_lt_tag_order_and_scalar_order as (_ & _ & order).
  split.
  - split; [exact I|]. split; [exact I|]. split; [exact I|].
    destruct (order (Value_of_Int 1) (Value_of_Int 2) (Value_of_Int 3) I I I I I I)
      as (_ & _ & _ & total & _).
    destruct total as [H|[H|H]]; [exact H|discriminate H|discriminate H].
  - assert (A : strings_agree (Value_of_StaticString (mkCstr 1 "a"))
                              (Value_of_StaticString (mkCstr 2 "a")))
      by (cbn; discriminate).
    split; [exact A|].
    destruct (order (Value_of_StaticString (mkCstr 1 "a"))
                    (Value_of_StaticString (mkCstr 2 "a")) null I I I I I A)
      as (_ & _ & _ & _ & eq & _).
    apply eq. split; reflexivity.
Defined.

(** C8 (as stated, refuted): a Real node holding NaN is a scalar node
    that is not below itself and yet not [==] to itself; [compare]
    answers 0 while [!=] holds. *)
Lemma Value_lt_nan_not_total :
  Value_lt (Value_of_double S754_nan) (Value_of_double S754_nan) = false
  /\ Value_eq (Value_of_double S754_nan) (Value_of_double S754_nan) = false
  /\ Value_ne (Value_of_double S754_nan) (Value_of_double S754_nan) = true
  /\ Value_compare (Value_of_double S754_nan) (Value_of_double S754_nan) = 0.
Proof. repeat split. Qed.


(* ------------------------------------------------------------------ *)
(** ** Arrays: lookup, append, resize *)

(** Every lookup by index in a store that begins with an Index key
    finds its first entry, whatever index is asked for. *)
Lemma find_index_finds_first {V : Type} (k : CZString) (v : V)
    (m : list (CZString * V)) (index : Z) :
  is_index_key k = true ->
  ObjectValues.find_key ((k, v) :: m) (CZString_index index) = Ok 0%nat.
Proof.
  destruct k as [[c|] i]; cbn; [discriminate|reflexivity].
Qed.


(** Appending to a Null node or to an empty Array gives an Array of size
    1 whose entry of index 0 is the copy of the value. *)
Lemma Value_append_first (b : Build) (this value : Value) (h : allocator) :
  value_ this = holds_null \/ value_ this = holds_array [] ->
  exists value',
    Value_append b this value h
    = Ok ({| value_ := holds_array [(CZString_index 0, value')];
             allocated_ := allocated_ this |}, snd (Value_copy value h))
    /\ value_ value' = value_ (fst (Value_copy value h))
    /\ Value_size {| value_ := holds_array [(CZString_index 0, value')];
                     allocated_ := allocated_ this |} = 1.
Proof.
  intros [N|E]; destruct this as [v a]; cbn in N || cbn in E; subst v;
    exists {| value_ := value_ (fst (Value_copy value h)); allocated_ := false |};
    (split; [|split; reflexivity]);
    unfold Value_append, Value_subscript_index, Value_tryGet_index,
      JSONCPP_ASSERT, c_assert; cbn;
    destruct b as [[] []]; cbn; unfold Value_copy_assign;
    destruct (Value_copy value h); reflexivity.
Qed.

(** Appending to an array that is not empty writes over its first
    entry: no entry is added and [size()] stays what it was. *)
Lemma Value_append_nonempty (b : Build) (k : CZString) (x : Value)
    (m : list (CZString * Value)) (a : bool) (value : Value) (h : allocator) :
  is_index_key k = true ->
  let this := {| value_ := holds_array ((k, x) :: m); allocated_ := a |} in
  let this' := {| value_ := holds_array ((k, fst (Value_copy_assign x value h)) :: m);
                  allocated_ := a |} in
  Value_append b this value h = Ok (this', snd (Value_copy_assign x value h))
  /\ Value_size this' = Value_size this.
Proof.
  intros K this this'. split.
  - unfold Value_append, Value_subscript_index, Value_tryGet_index.
    assert (A : JSONCPP_ASSERT b (ValueType_eqb (type_ this) nullValue
                                  || ValueType_eqb (type_ this) arrayValue) = Ok tt).
    { unfold JSONCPP_ASSERT, c_assert; cbn. destruct b as [[] []]; reflexivity. }
    rewrite A. cbn [bind]. change (ValueType_eqb (type_ this) nullValue) with false.
    cbv iota. rewrite A. cbn [bind].
    change (Value_map this) with (Ok ((k, x) :: m)). cbn [bind].
    rewrite (find_index_finds_first k x m _ K). cbn.
    destruct (Value_copy_assign x value h); reflexivity.
  - unfold Value_size; cbn. destruct m; reflexivity.
Qed.


(** C2 (the code departs from the claim): [append(v)] on an array of
    size n should put v at index n, make [size()] n+1 and leave the
    entries below n alone.  On the array built by appending 10 to an
    empty array (size 1), appending 20 writes over the entry of index 0:
    the store has one entry, it holds 20, and [size()] is still 1. *)
Theorem Value_append_second_overwrites_first (h : allocator) :
  let a1 := array_of [(CZString_index 0, Value_of_Int 10)] in
  let a2 := array_of [(CZString_index 0, Value_of_Int 20)] in
  Value_append checked (Value_of_type arrayValue) (Value_of_Int 10) h = Ok (a1, h)
  /\ Value_size a1 = 1
  /\ Value_append checked a1 (Value_of_Int 20) h = Ok (a2, h)
  /\ Value_size a2 = 1
  /\ Value_read_index checked a2 0 = Ok (Some (Value_of_Int 20))
  /\ Value_read_index checked a2 1 = Ok (Some (Value_of_Int 20)).
Proof. repeat split. Qed.


(** [resize] on a node that is neither Null nor an Array fails the
    library's assertion in the checked build. *)
Lemma Value_resize_needs_null_or_array (this : Value) (newSize : Z) :
  type_ this <> nullValue -> type_ this <> arrayValue ->
  Value_resize checked this newSize = Failed AssertionFailed.
Proof.
  intros N A. destruct_type this; try contradiction; reflexivity.
Qed.


(** [resize(0)] on a Null or Array node gives an empty Array. *)
Lemma Value_resize_zero_clears (b : Build) (this : Value) :
  type_ this = nullValue \/ type_ this = arrayValue ->
  exists a, Value_resize b this 0 = Ok {| value_ := holds_array []; allocated_ := a |}.
Proof.
  intros [T|T]; destruct_type this; try discriminate;
    destruct b as [[] []]; eexists; reflexivity.
Qed.


(** Erasing from an empty store does nothing. *)
Lemma Value_resize_erase_nil (index : Z) (count : nat) :
  Value_resize_erase [] index count = Ok [].
Proof.
  revert index; induction count as [|count IH]; intros index; [reflexivity|].
  cbn. apply IH.
Qed.

(** Shrinking an array of one entry to a size that is not zero removes
    the entry, whatever its index: [size()] is then 0, and the closing
    [assert] fails where it is compiled in. *)
Lemma Value_resize_shrink_one_entry (b : Build) (k : CZString) (x : Value)
    (a : bool) (newSize : Z) :
  is_index_key k = true ->
  0 < newSize < to_uint32 (index_ k + 1) ->
  Value_resize b {| value_ := holds_array [(k, x)]; allocated_ := a |} newSize
  = if NDEBUG b
    then Ok {| value_ := holds_array []; allocated_ := a |}
    else Failed AssertionFailed.
Proof.
  intros K [L H]. unfold Value_resize.
  assert (A : JSONCPP_ASSERT b (ValueType_eqb arrayValue nullValue
                                || ValueType_eqb arrayValue arrayValue) = Ok tt).
  { unfold JSONCPP_ASSERT, c_assert; cbn. destruct b as [[] []]; reflexivity. }
  cbn [type_ value_]. rewrite A. cbn [bind].
  change (ValueType_eqb arrayValue nullValue) with false. cbv iota.
  change (Value_size {| value_ := holds_array [(k, x)]; allocated_ := a |})
    with (to_uint32 (index_ k + 1)).
  destruct (Z.eqb_spec newSize 0) as [E|_]; [lia|].
  destruct (Z.gtb_spec newSize (to_uint32 (index_ k + 1))) as [G|_]; [lia|].
  cbn [Value_map value_ bind].
  destruct (Z.to_nat (to_uint32 (index_ k + 1) - newSize)) as [|count] eqn:C; [lia|].
  cbn [Value_resize_erase]. unfold ObjectValues.erase.
  rewrite (find_index_finds_first k x [] newSize K). cbn [bind].
  cbn [ObjectValues.end_ length Nat.eqb ObjectValues.erase_at].
  rewrite Value_resize_erase_nil. cbn [bind Value_with_map value_ allocated_].
  unfold c_assert. cbn [Value_size value_ ObjectValues.empty negb].
  destruct (NDEBUG b); [reflexivity|].
  destruct (Z.eqb_spec 0 newSize); [lia|reflexivity].
Qed.

(** C3 (the code departs from the claim): [resize(5)] on a Null node
    does give an Array of size 5 whose five indices read Null, but the
    array holds the single entry of index 4; [resize(3)] on it should
    leave [size() == 3], as the function itself asserts.  The first
    [erase] removes the only entry: the store is empty, [size()] is 0,
    and in the checked build the closing [assert] fails. *)
Theorem Value_resize_shrink_empties :
  let a5 := array_of [(CZString_index 4, null)] in
  Value_resize checked null 5 = Ok a5
  /\ type_ a5 = arrayValue
  /\ Value_size a5 = 5
  /\ map (Value_read_index checked a5) [0; 1; 2; 3; 4]
     = [Ok (Some null); Ok (Some null); Ok (Some null); Ok (Some null); Ok (Some null)]
  /\ Value_resize checked a5 3 = Failed AssertionFailed
  /\ Value_resize unchecked a5 3 = Ok (array_of [])
  /\ Value_size (array_of []) = 0.
Proof. repeat split. Qed.


(* ------------------------------------------------------------------ *)
(** ** Path *)

(** The digit loop and the name loop leave a suffix of the text, and the
    name loop moves the cursor unless it starts on a character it stops
    at. *)
Lemma scan_index_rest (current : string) (index : Z) :
  (String.length (snd (Path.scan_index current index)) <= String.length current)%nat
  /\ (nul_free current = true -> nul_free (snd (Path.scan_index current index)) = true).
Proof.
  revert index; induction current as [|c rest IH]; intros index; cbn.
  - split; [lia|trivial].
  - destruct (Path.is_digit c); cbn.
    + destruct (IH (to_uint32 (index * 10 + (Z.of_N (N_of_ascii c) - 48)))) as [L F].
      split; [lia|]. intros H. apply andb_true_iff in H as [_ H]. auto.
    + split; [lia|trivial].
Qed.


Lemma scan_name_rest (current : string) :
  (String.length (snd (Path.scan_name current)) <= String.length current)%nat
  /\ (nul_free current = true -> nul_free (snd (Path.scan_name current)) = true)
  /\ (forall c rest, current = String c rest -> Path.strchr_bracket_dot c = false ->
      (String.length (snd (Path.scan_name current)) < String.length current)%nat).
Proof.
  induction current as [|c rest IH]; cbn.
  - split; [lia|split; [trivial|discriminate]].
  - destruct (Path.strchr_bracket_dot c) eqn:S; cbn.
    + split; [lia|split; [trivial|]]. intros c' rest' E. injection E as <- <-. congruence.
    + destruct IH as (L & F & _). destruct (Path.scan_name rest) as [name current']; cbn in *.
      split; [lia|split; [|intros; lia]].
      intros H. apply andb_true_iff in H as [_ H]. auto.
Qed.


(** With more rounds allowed than characters left, the loop ends on a
    text without NUL. *)
Lemma makePath_loop_returns (fuel : nat) :
  forall (in_ : list PathArgument.t) (itInArg : nat) (current : string)
         (args_ : list PathArgument.t),
    (String.length current < fuel)%nat -> nul_free current = true ->
    exists args', Path.makePath_loop fuel in_ itInArg current args_ = Some args'.
Proof.
  induction fuel as [|fuel IH]; intros in_ itInArg current args_ L F; [lia|].
  destruct current as [|c rest]; cbn [Path.makePath_loop]; [eexists; reflexivity|].
  cbn in L, F. apply andb_true_iff in F as [Fc Fr].
  destruct (Ascii.eqb c "[") eqn:E1.
  - destruct (Ascii.eqb (Path.peek rest) "%").
    + destruct (Path.addPathInArg in_ itInArg PathArgument.kindIndex args_) as [a it].
      destruct rest as [|c' rest']; apply IH; cbn in *; try lia; auto.
      apply andb_true_iff in Fr as [_ Fr]; exact Fr.
    + destruct (scan_index_rest rest 0) as [Ls Fs].
      destruct (Path.scan_index rest 0) as [index current']; cbn in *.
      destruct current' as [|c' rest']; apply IH; cbn in *; try lia; auto.
      specialize (Fs Fr). apply andb_true_iff in Fs as [_ Fs]; exact Fs.
  - destruct (Ascii.eqb c "%").
    + destruct (Path.addPathInArg in_ itInArg PathArgument.kindKey args_) as [a it].
      apply IH; [lia|exact Fr].
    + destruct (Ascii.eqb c ".") eqn:E3; [apply IH; [lia|exact Fr]|].
      destruct (scan_name_rest (String c rest)) as (_ & Fs & Ls).
      assert (S : Path.strchr_bracket_dot c = false).
      { unfold Path.strchr_bracket_dot. rewrite E1, E3.
        apply negb_true_iff in Fc. rewrite Fc. reflexivity. }
      specialize (Ls c rest eq_refl S).
      destruct (Path.scan_name (String c rest)) as [name current']; cbn in *.
      apply IH; [lia|]. apply Fs. rewrite Fc, Fr. reflexivity.
Qed.


(** Once the loop has ended, allowing more rounds changes nothing. *)
Lemma makePath_loop_more_fuel (fuel : nat) :
  forall (in_ : list PathArgument.t) (itInArg : nat) (current : string)
         (args_ args' : list PathArgument.t),
    Path.makePath_loop fuel in_ itInArg current args_ = Some args' ->
    Path.makePath_loop (S fuel) in_ itInArg current args_ = Some args'.
Proof.
  induction fuel as [|fuel IH]; intros in_ itInArg current args_ args' H;
    [discriminate|].
  remember (S fuel) as fuel1 eqn:F.
  cbn [Path.makePath_loop]. rewrite F in H at 1. cbn [Path.makePath_loop] in H.
  destruct current as [|c rest]; [exact H|].
  destruct (Ascii.eqb c "[").
  - destruct (Ascii.eqb (Path.peek rest) "%").
    + destruct (Path.addPathInArg in_ itInArg PathArgument.kindIndex args_).
      apply IH. exact H.
    + destruct (Path.scan_index rest 0). apply IH. exact H.
  - destruct (Ascii.eqb c "%").
    + destruct (Path.addPathInArg in_ itInArg PathArgument.kindKey args_).
      apply IH. exact H.
    + destruct (Ascii.eqb c ".").
      * apply IH. exact H.
      * destruct (Path.scan_name (String c rest)). apply IH. exact H.
Qed.

(** X1: [makePath] returns on every path that holds no NUL character. *)
Lemma makePath_returns (path : string) (in_ : list PathArgument.t) :
  nul_free path = true -> exists args_, Path.makePath path in_ = Some args_.
Proof. intros F. apply makePath_loop_returns; [lia|exact F]. Qed.


(** X2: A NUL where a name would start keeps the loop going for ever: the
    name loop stops at once, an empty name is pushed, and the cursor has
    not moved. *)
Lemma makePath_loop_nul_never_returns (fuel : nat) :
  forall (in_ : list PathArgument.t) (itInArg : nat) (rest : string)
         (args_ : list PathArgument.t),
    Path.makePath_loop fuel in_ itInArg (String zero rest) args_ = None.
Proof.
  induction fuel as [|fuel IH]; intros; [reflexivity|].
  cbn [Path.makePath_loop]. change (Ascii.eqb zero "[") with false.
  change (Ascii.eqb zero "%") with false. change (Ascii.eqb zero ".") with false.
  cbv iota. change (Path.scan_name (String zero rest)) with (EmptyString, String zero rest).
  cbv iota beta. apply IH.
Qed.


(** An Index step of the defaulted [resolve] on an Array gives the
    default exactly when the index is valid. *)
Lemma resolve_loop_index_step (b : Build) (index : Z)
    (rest : list PathArgument.t) (m : list (CZString * Value)) (a : bool)
    (defaultValue : Value) :
  let node := {| value_ := holds_array m; allocated_ := a |} in
  (Value_isValidIndex node index = true ->
   Path.resolve_loop b (PathArgument.of_index index :: rest) node defaultValue
   = Ok defaultValue)
  /\ (Value_isValidIndex node index = false ->
      Path.resolve_loop b (PathArgument.of_index index :: rest) node defaultValue
      = (temp <- Value_tryGet_index b node index ;;
         Path.resolve_loop b rest
           match temp with
           | Some it => match Value_at node it with Some n => n | None => null end
           | None => null
           end defaultValue)).
Proof.
  intros node. split; intros V; cbn [Path.resolve_loop PathArgument.kind_ PathArgument.of_index PathArgument.index_];
    change (Value_isArray node) with true; cbn [negb orb]; rewrite V; reflexivity.
Qed.

(** C4 (the code departs from the claim): the defaulted [resolve]
    should return the addressed node when every step fits the tree, and
    the default on an Index step out of bounds.  With root
    [{"a": [.., .., 7]}], whose element [root["a"][2]] is present, the
    path [.a[%]] with the Index argument 2 resolves to the default: the
    Index step returns the default because its index is valid.  The
    path also compiles with a third, stray step named by the closing
    bracket.  An index out of bounds does not give the default. *)
Theorem Path_resolve_present_element_gives_default (h : allocator) :
  let key_a := {| cstr_ := Some (mkCstr 1 "a"); index_ := duplicate |} in
  let root := object_of [(key_a, array_of [(CZString_index 2, Value_of_Int 7)])] in
  let defaultValue := Value_of_Int (-1) in
  let a := PathArgument.of_key "a" in
  let i2 := PathArgument.of_index 2 in
  Path.Path ".a[%]" i2 PathArgument.none PathArgument.none PathArgument.none
            PathArgument.none
    = Some [a; i2; PathArgument.of_key "]"]
  /\ (exists it, Value_tryGet_view checked root "a" = Ok (Some it)
                 /\ Value_at root it = Some (array_of [(CZString_index 2, Value_of_Int 7)]))
  /\ Value_read_index checked (array_of [(CZString_index 2, Value_of_Int 7)]) 2
     = Ok (Some (Value_of_Int 7))
  /\ Path.resolve checked [a; i2; PathArgument.of_key "]"] root defaultValue h
     = Ok (defaultValue, h)
  /\ Path.resolve checked [a; i2] root defaultValue h = Ok (defaultValue, h)
  /\ Path.resolve checked [a; PathArgument.of_index 5] root defaultValue h
     = Ok (Value_of_Int 7, h).
Proof.
  cbv zeta. repeat split. exists 0%nat. split; reflexivity.
Qed.


(* ================================================================== *)
(** * Further properties of the code *)

(* ------------------------------------------------------------------ *)
(** ** The other conversions *)

(** A 64-bit pattern read as an [Int64] is zero exactly when it is zero
    read as a [UInt64]. *)
Lemma to_int64_zero (u : Z) :
  0 <= u <= maxUInt64 -> (to_int64 u =? 0) = (u =? 0).
Proof.
  unfold maxUInt64, to_int64. intros R.
  destruct (Z.eqb_spec u 0) as [->|N]; [reflexivity|].
  apply Z.eqb_neq. intros E.
  destruct (Z.lt_ge_cases u (2 ^ 63)) as [L|G].
  - rewrite Z.mod_small in E by lia. lia.
  - replace (u + 2 ^ 63) with ((u - 2 ^ 63) + 1 * 2 ^ 64) in E by lia.
    rewrite Z.mod_add in E by lia. rewrite Z.mod_small in E by lia. lia.
Qed.

(** X3: [asBool] cannot fail.  A Null node gives the caller's default; any
    other node gives [true] exactly when it does not convert to Null:
    a number that is not zero (NaN included), [true], a string that is
    not empty, a container that is not empty. *)
Theorem Value_asBool_is_not_convertible_to_null (this : Value)
    (defaultValue : bool) :
  payload_valid this ->
  Value_asBool this defaultValue
  = if Value_isNull this then defaultValue
    else negb (Value_isConvertibleTo this nullValue).
Proof.
  intros V. destruct this as [[ |i|u|r|s|x|m|m] a];
    unfold Value_asBool, Value_isNull, Value_isConvertibleTo;
    cbn [value_ type_]; try reflexivity.
  - change (ValueType_eqb intValue nullValue) with false.
    change (ValueType_eqb nullValue nullValue) with true.
    change (ValueType_eqb nullValue intValue) with false.
    change (ValueType_eqb nullValue uintValue) with false.
    change (ValueType_eqb nullValue realValue) with false.
    change (ValueType_eqb nullValue stringValue) with false.
    change (ValueType_eqb nullValue booleanValue) with false.
    cbn [andb orb]. rewrite !orb_false_r. reflexivity.
  - change (ValueType_eqb uintValue nullValue) with false.
    change (ValueType_eqb nullValue nullValue) with true.
    change (ValueType_eqb nullValue intValue) with false.
    change (ValueType_eqb nullValue uintValue) with false.
    change (ValueType_eqb nullValue realValue) with false.
    change (ValueType_eqb nullValue stringValue) with false.
    change (ValueType_eqb nullValue booleanValue) with false.
    cbn [andb orb]. rewrite !orb_false_r. rewrite (to_int64_zero u V). reflexivity.
  - change (ValueType_eqb realValue nullValue) with false.
    change (ValueType_eqb nullValue nullValue) with true.
    change (ValueType_eqb nullValue intValue) with false.
    change (ValueType_eqb nullValue uintValue) with false.
    change (ValueType_eqb nullValue realValue) with false.
    change (ValueType_eqb nullValue stringValue) with false.
    change (ValueType_eqb nullValue booleanValue) with false.
    cbn [andb orb]. rewrite !orb_false_r. reflexivity.
  - destruct s as [c|]; reflexivity.
  - destruct x; reflexivity.
Qed.

(** [asBool] on the UInt 5, whose payload is a [UInt64]. *)
Lemma Value_asBool_is_not_convertible_to_null_witness :
  payload_valid (Value_of_UInt 5)
  /\ Value_asBool (Value_of_UInt 5) false
     = if Value_isNull (Value_of_UInt 5) then false
       else negb (Value_isConvertibleTo (Value_of_UInt 5) nullValue).
Proof.
  assert (V : payload_valid (Value_of_UInt 5)) by (vm_compute; split; discriminate).
  split; [exact V|].
  exact (Value_asBool_is_not_convertible_to_null (Value_of_UInt 5) false V).
Defined.

(** When a double passes the range test of [asUInt] its integer part is
    a [UInt], so the conversion [UInt(real)] is defined. *)
Lemma UInt_of_double_in_range (r : spec_float) :
  is_double r ->
  SFleb (double_of_Z 0) r = true -> SFleb r (double_of_Z maxUInt) = true ->
  exists z, double_trunc r = Some z /\ 0 <= z <= maxUInt
            /\ UInt_of_double r = Ok z.
Proof.
  intros V Hlo Hhi. rewrite double_of_0 in Hlo. rewrite double_of_maxUInt in Hhi.
  assert (G : forall z, double_trunc r = Some z -> 0 <= z <= maxUInt ->
              exists z, double_trunc r = Some z /\ 0 <= z <= maxUInt
                        /\ UInt_of_double r = Ok z).
  { intros z T B. exists z. repeat split; try tauto. unfold UInt_of_double.
    rewrite T. destruct (Z.leb_spec 0 z), (Z.leb_spec z maxUInt); cbn; (reflexivity || lia). }
  destruct r as [s|s| |s m e]; try discriminate.
  - apply (G 0); [reflexivity|unfold maxUInt; lia].
  - destruct s; discriminate.
  - apply is_double_mantissa in V as [M E].
    assert (P : forall k, 0 <= k -> 0 <= Zpos m / 2 ^ k)
      by (intros; apply Z.div_pos; [lia|apply Z.pow_pos_nonneg; lia]).
    destruct s; [discriminate|].
    clear Hlo. apply SFleb_finite_nonneg in Hhi. destruct Hhi as [Hhi|[-> Hhi]].
    + apply (G (Zpos m / 2 ^ (- e))).
      { cbn [double_trunc cond_Zopp]. destruct (Z.leb_spec 0 e); [lia|reflexivity]. }
      assert (Zpos m / 2 ^ (- e) <= Zpos m / 2 ^ 22) by (apply div_pow2_le; lia).
      assert (Zpos m / 2 ^ 22 < 2 ^ 31).
      { apply Z.div_lt_upper_bound; [lia|]. change (2 ^ 22 * 2 ^ 31) with (2 ^ 53). exact M. }
      specialize (P (- e)). unfold maxUInt. lia.
    + apply (G (Zpos m / 2 ^ 21)); [reflexivity|].
      assert (Zpos m / 2 ^ 21 <= 9007199252643840 / 2 ^ 21)
        by (apply Z.div_le_mono; lia).
      specialize (P 21).
      change (9007199252643840 / 2 ^ 21) with (2 ^ 32 - 1) in *.
      unfold maxUInt. lia.
Qed.

(** [asUInt] on a Real node, in the checked build. *)
Lemma Value_asUInt_real (r : spec_float) (a : bool) (defaultValue : Z) :
  Value_asUInt checked (mkValue (holds_real r) a) defaultValue
  = if SFleb (double_of_Z 0) r && SFleb r (double_of_Z maxUInt)
    then UInt_of_double r
    else Failed (RuntimeError "Real out of unsigned integer range").
Proof.
  unfold Value_asUInt, JSONCPP_ASSERT_MESSAGE, JSONCPP_FAIL_MESSAGE.
  cbn [value_ checked JSONCPP_ENABLE_ASSERTS].
  destruct (SFleb (double_of_Z 0) r && SFleb r (double_of_Z maxUInt));
    reflexivity.
Qed.

(** X4: In the checked build [asUInt] returns the value of an Int, UInt or
    Real node that lies between 0 and [maxUInt] (for a Real the integer
    part of the number it stands for, the integer next to it on the
    side of zero) and throws for one that does not; a Bool gives 0 or
    1, a Null node the caller's default, and a String, Array or Object
    node throws. *)
Theorem Value_asUInt_checked (this : Value) (defaultValue : Z) :
  payload_valid this ->
  match value_ this with
  | holds_null => Value_asUInt checked this defaultValue = Ok defaultValue
  | holds_int i =>
      (0 <= i <= maxUInt -> Value_asUInt checked this defaultValue = Ok i)
      /\ (i < 0 \/ maxUInt < i ->
          exists message,
            Value_asUInt checked this defaultValue = Failed (RuntimeError message))
  | holds_uint u =>
      (u <= maxUInt -> Value_asUInt checked this defaultValue = Ok u)
      /\ (maxUInt < u ->
          exists message,
            Value_asUInt checked this defaultValue = Failed (RuntimeError message))
  | holds_real r =>
      (double_within 0 maxUInt r ->
       exists z, integer_part r z /\ 0 <= z <= maxUInt
                 /\ Value_asUInt checked this defaultValue = Ok z)
      /\ (~ double_within 0 maxUInt r ->
          exists message,
            Value_asUInt checked this defaultValue = Failed (RuntimeError message))
  | holds_bool x => Value_asUInt checked this defaultValue = Ok (if x then 1 else 0)
  | holds_string _ | holds_array _ | holds_object _ =>
      exists message,
        Value_asUInt checked this defaultValue = Failed (RuntimeError message)
  end.
Proof.
  intros V.
  destruct this as [[ |i|u|r|s|x|m|m] a]; cbn [value_];
    try reflexivity; try (eexists; reflexivity).
  - (* Int *)
    unfold Value_asUInt, JSONCPP_ASSERT_MESSAGE, JSONCPP_FAIL_MESSAGE; cbn.
    split.
    + intros [Lo Hi]. apply Z.leb_le in Lo, Hi. rewrite Lo, Hi. cbn.
      apply Z.leb_le in Lo, Hi. unfold to_uint32, maxUInt in *.
      f_equal. rewrite Z.mod_small; lia.
    + intros [Lo|Hi].
      * apply Z.leb_gt in Lo. rewrite Lo. eexists; reflexivity.
      * apply Z.leb_gt in Hi. rewrite Hi. destruct (0 <=? i); eexists; reflexivity.
  - (* UInt *)
    unfold Value_asUInt, JSONCPP_ASSERT_MESSAGE, JSONCPP_FAIL_MESSAGE; cbn.
    cbn in V. split.
    + intros Hi. apply Z.leb_le in Hi. rewrite Hi. cbn.
      apply Z.leb_le in Hi. unfold to_uint32, maxUInt in *.
      f_equal. rewrite Z.mod_small; lia.
    + intros Hi. apply Z.leb_gt in Hi. rewrite Hi. eexists; reflexivity.
  - (* Real *)
    rewrite Value_asUInt_real. cbn in V.
    split.
    + intros W. apply (UInt_range_test r V) in W as [Lo Hi].
      destruct (UInt_of_double_in_range _ V Lo Hi) as (z & T & B & C).
      exists z. split; [exact (double_trunc_integer_part r z V T)|].
      rewrite Lo, Hi. cbn. auto.
    + intros W.
      destruct (SFleb (double_of_Z 0) r) eqn:Lo;
        [|eexists; reflexivity].
      destruct (SFleb r (double_of_Z maxUInt)) eqn:Hi;
        [|eexists; reflexivity].
      contradiction W. apply (UInt_range_test r V). split; assumption.
Qed.

(** [asUInt] on the Real 2.5, the double of mantissa 5 * 2^50 and
    exponent -51: the payload is a double within the range of [UInt],
    and the result is 2, its integer part. *)
Lemma Value_asUInt_checked_witness :
  let r := S754_finite false 5629499534213120 (-51) in
  payload_valid (Value_of_double r)
  /\ double_within 0 maxUInt r
  /\ Value_asUInt checked (Value_of_double r) 42 = Ok 2.
Proof.
  intros r.
  assert (V : payload_valid (Value_of_double r)) by (vm_compute; reflexivity).
  assert (W : double_within 0 maxUInt r).
  { exists (5629499534213120 * 2 ^ 1023). split; [vm_compute; reflexivity|].
    split; apply Z.leb_le; vm_compute; reflexivity. }
  split; [exact V|]. split; [exact W|].
  destruct (proj1 (Value_asUInt_checked (Value_of_double r) 42 V) W)
    as (z & P & _ & E).
  rewrite E. f_equal. apply (integer_part_unique r z 2 P).
  apply (integer_part_intro r (5629499534213120 * 2 ^ 1023));
    vm_compute; reflexivity.
Defined.

(** The bounds of the 64-bit range tests: the doubles next to those of
    [minInt64], [maxInt64] and [maxUInt64] on the side of zero. *)
Lemma nextafter_bounds :
  nextafter (double_of_Z minInt64) (S754_zero false) = double_of_Z (- (2 ^ 63 - 1024))
  /\ nextafter (double_of_Z maxInt64) (S754_zero false) = double_of_Z (2 ^ 63 - 1024)
  /\ nextafter (double_of_Z maxUInt64) (S754_zero false) = double_of_Z (2 ^ 64 - 2048).
Proof. repeat split; vm_compute; reflexivity. Qed.

(** The range tests of [asInt64] and [asUInt64] are exact. *)
Lemma Int64_range_test (r : spec_float) :
  is_double r ->
  (SFleb (double_of_Z (- (2 ^ 63 - 1024))) r = true
   /\ SFleb r (double_of_Z (2 ^ 63 - 1024)) = true
   <-> double_within (- (2 ^ 63 - 1024)) (2 ^ 63 - 1024) r).
Proof. intros V. apply range_test_exact; try exact V; vm_compute; reflexivity. Qed.

Lemma UInt64_range_test (r : spec_float) :
  is_double r ->
  (SFleb (double_of_Z 0) r = true /\ SFleb r (double_of_Z (2 ^ 64 - 2048)) = true
   <-> double_within 0 (2 ^ 64 - 2048) r).
Proof. intros V. apply range_test_exact; try exact V; vm_compute; reflexivity. Qed.

(** A double that stands for a number has an integer part. *)
Lemma double_within_trunc (lo hi : Z) (r : spec_float) :
  double_within lo hi r -> exists z, double_trunc r = Some z.
Proof.
  intros (v & S & _). destruct r as [s|s| |s m e]; try discriminate;
    eexists; reflexivity.
Qed.

(** [asInt64] and [asUInt64] on a Real node, in the checked build. *)
Lemma Value_asInt64_real (r : spec_float) (a : bool) (defaultValue : Z) :
  Value_asInt64 checked (mkValue (holds_real r) a) defaultValue
  = if SFleb (double_of_Z (- (2 ^ 63 - 1024))) r
       && SFleb r (double_of_Z (2 ^ 63 - 1024))
    then Int_of_double r
    else Failed (RuntimeError "Real out of Int64 range").
Proof.
  unfold Value_asInt64, JSONCPP_ASSERT_MESSAGE, JSONCPP_FAIL_MESSAGE.
  cbn [value_ checked JSONCPP_ENABLE_ASSERTS].
  destruct nextafter_bounds as (-> & -> & _).
  destruct (SFleb (double_of_Z (- (2 ^ 63 - 1024))) r
            && SFleb r (double_of_Z (2 ^ 63 - 1024))); reflexivity.
Qed.

Lemma Value_asUInt64_real (r : spec_float) (a : bool) (defaultValue : Z) :
  Value_asUInt64 checked (mkValue (holds_real r) a) defaultValue
  = if SFleb (double_of_Z 0) r && SFleb r (double_of_Z (2 ^ 64 - 2048))
    then UInt_of_double r
    else Failed (RuntimeError "Real out of UInt64 range").
Proof.
  unfold Value_asUInt64, JSONCPP_ASSERT_MESSAGE, JSONCPP_FAIL_MESSAGE.
  cbn [value_ checked JSONCPP_ENABLE_ASSERTS].
  destruct nextafter_bounds as (_ & _ & ->).
  destruct (SFleb (double_of_Z 0) r && SFleb r (double_of_Z (2 ^ 64 - 2048)));
    reflexivity.
Qed.

(** X5: In the checked build [asInt64] returns an Int payload as it is and
    a UInt payload up to [maxInt64], and throws for a larger one.  A Real
    is accepted when it lies between -(2^63 - 1024) and 2^63 - 1024, the
    doubles next to the bounds of [Int64], but is then converted to the
    32-bit [Int]: the result is its integer part when that is an [Int],
    and the conversion is undefined when it is not.  Outside those
    bounds the call throws, as it does for a String, Array or Object. *)
Theorem Value_asInt64_checked (this : Value) (defaultValue : Z) :
  payload_valid this ->
  match value_ this with
  | holds_null => Value_asInt64 checked this defaultValue = Ok defaultValue
  | holds_int i => Value_asInt64 checked this defaultValue = Ok i
  | holds_uint u =>
      (u <= maxInt64 -> Value_asInt64 checked this defaultValue = Ok u)
      /\ (maxInt64 < u ->
          exists message,
            Value_asInt64 checked this defaultValue = Failed (RuntimeError message))
  | holds_real r =>
      (double_within (- (2 ^ 63 - 1024)) (2 ^ 63 - 1024) r ->
       exists z, integer_part r z
                 /\ (minInt <= z <= maxInt ->
                     Value_asInt64 checked this defaultValue = Ok z)
                 /\ (z < minInt \/ maxInt < z ->
                     Value_asInt64 checked this defaultValue
                     = Failed UndefinedBehaviour))
      /\ (~ double_within (- (2 ^ 63 - 1024)) (2 ^ 63 - 1024) r ->
          exists message,
            Value_asInt64 checked this defaultValue = Failed (RuntimeError message))
  | holds_bool x => Value_asInt64 checked this defaultValue = Ok (if x then 1 else 0)
  | holds_string _ | holds_array _ | holds_object _ =>
      exists message,
        Value_asInt64 checked this defaultValue = Failed (RuntimeError message)
  end.
Proof.
  intros V.
  destruct this as [[ |i|u|r|s|x|m|m] a]; cbn [value_];
    try reflexivity; try (eexists; reflexivity).
  - (* UInt *)
    unfold Value_asInt64, JSONCPP_ASSERT_MESSAGE, JSONCPP_FAIL_MESSAGE; cbn.
    cbn in V. change (to_uint64 maxInt64) with maxInt64. split.
    + intros Hi. apply Z.leb_le in Hi. rewrite Hi. cbn.
      apply Z.leb_le in Hi. unfold to_int64, maxInt64 in *.
      f_equal. rewrite Z.mod_small; lia.
    + intros Hi. apply Z.leb_gt in Hi. rewrite Hi. eexists; reflexivity.
  - (* Real *)
    rewrite Value_asInt64_real. cbn in V.
    split.
    + intros W. destruct (double_within_trunc _ _ _ W) as [z T].
      apply (Int64_range_test r V) in W as [Lo Hi].
      exists z. split; [exact (double_trunc_integer_part r z V T)|].
      rewrite Lo, Hi. cbn [andb]. unfold Int_of_double. rewrite T.
      split.
      * intros [B1 B2]. apply Z.leb_le in B1, B2. rewrite B1, B2. reflexivity.
      * intros [B|B]; apply Z.leb_gt in B; rewrite B;
          [reflexivity|rewrite andb_false_r; reflexivity].
    + intros W.
      destruct (SFleb (double_of_Z (- (2 ^ 63 - 1024))) r) eqn:Lo;
        [|eexists; reflexivity].
      destruct (SFleb r (double_of_Z (2 ^ 63 - 1024))) eqn:Hi;
        [|eexists; reflexivity].
      contradiction W. apply (Int64_range_test r V). split; assumption.
Qed.

(** [asInt64] on the Real 2^31, which an [Int64] holds: it is within
    the bounds of the range test, its integer part 2^31 is no [Int],
    and the conversion is undefined. *)
Lemma Value_asInt64_checked_witness :
  payload_valid (Value_of_double (double_of_Z (2 ^ 31)))
  /\ double_within (- (2 ^ 63 - 1024)) (2 ^ 63 - 1024) (double_of_Z (2 ^ 31))
  /\ Value_asInt64 checked (Value_of_double (double_of_Z (2 ^ 31))) 0
     = Failed UndefinedBehaviour.
Proof.
  assert (V : payload_valid (Value_of_double (double_of_Z (2 ^ 31))))
    by (vm_compute; reflexivity).
  assert (W : double_within (- (2 ^ 63 - 1024)) (2 ^ 63 - 1024) (double_of_Z (2 ^ 31))).
  { exists (scaled (2 ^ 31)). split; [vm_compute; reflexivity|].
    split; apply Z.leb_le; vm_compute; reflexivity. }
  split; [exact V|]. split; [exact W|].
  destruct (proj1 (Value_asInt64_checked (Value_of_double (double_of_Z (2 ^ 31))) 0 V) W)
    as (z & P & _ & U).
  apply U. right.
  rewrite (integer_part_unique (double_of_Z (2 ^ 31)) z (2 ^ 31) P).
  - apply Z.ltb_lt. vm_compute. reflexivity.
  - apply (integer_part_intro (double_of_Z (2 ^ 31)) (scaled (2 ^ 31)));
      vm_compute; reflexivity.
Defined.

(** X6: In the checked build [asUInt64] returns a UInt payload as it is and
    an Int payload that is not negative, and throws for a negative one.
    A Real is accepted when it lies between 0 and 2^64 - 2048, the
    double next to the bound of [UInt64], but is then converted to the
    32-bit [UInt]: the result is its integer part when that is a
    [UInt], and the conversion is undefined when it is not.  Outside
    those bounds the call throws, as it does for a String, Array or
    Object. *)
Theorem Value_asUInt64_checked (this : Value) (defaultValue : Z) :
  payload_valid this ->
  match value_ this with
  | holds_null => Value_asUInt64 checked this defaultValue = Ok defaultValue
  | holds_int i =>
      (0 <= i -> Value_asUInt64 checked this defaultValue = Ok i)
      /\ (i < 0 ->
          exists message,
            Value_asUInt64 checked this defaultValue = Failed (RuntimeError message))
  | holds_uint u => Value_asUInt64 checked this defaultValue = Ok u
  | holds_real r =>
      (double_within 0 (2 ^ 64 - 2048) r ->
       exists z, integer_part r z
                 /\ (0 <= z <= maxUInt ->
                     Value_asUInt64 checked this defaultValue = Ok z)
                 /\ (z < 0 \/ maxUInt < z ->
                     Value_asUInt64 checked this defaultValue
                     = Failed UndefinedBehaviour))
      /\ (~ double_within 0 (2 ^ 64 - 2048) r ->
          exists message,
            Value_asUInt64 checked this defaultValue = Failed (RuntimeError message))
  | holds_bool x => Value_asUInt64 checked this defaultValue = Ok (if x then 1 else 0)
  | holds_string _ | holds_array _ | holds_object _ =>
      exists message,
        Value_asUInt64 checked this defaultValue = Failed (RuntimeError message)
  end.
Proof.
  intros V.
  destruct this as [[ |i|u|r|s|x|m|m] a]; cbn [value_];
    try reflexivity; try (eexists; reflexivity).
  - (* Int *)
    unfold Value_asUInt64, JSONCPP_ASSERT_MESSAGE, JSONCPP_FAIL_MESSAGE; cbn.
    cbn in V. split.
    + intros Lo. apply Z.leb_le in Lo. rewrite Lo. cbn.
      apply Z.leb_le in Lo. unfold to_uint64, minInt64, maxInt64 in *.
      f_equal. rewrite Z.mod_small; lia.
    + intros Lo. apply Z.leb_gt in Lo. rewrite Lo. eexists; reflexivity.
  - (* Real *)
    rewrite Value_asUInt64_real. cbn in V.
    split.
    + intros W. destruct (double_within_trunc _ _ _ W) as [z T].
      apply (UInt64_range_test r V) in W as [Lo Hi].
      exists z. split; [exact (double_trunc_integer_part r z V T)|].
      rewrite Lo, Hi. cbn [andb]. unfold UInt_of_double. rewrite T.
      split.
      * intros [B1 B2]. apply Z.leb_le in B1, B2. rewrite B1, B2. reflexivity.
      * intros [B|B]; apply Z.leb_gt in B; rewrite B;
          [reflexivity|rewrite andb_false_r; reflexivity].
    + intros W.
      destruct (SFleb (double_of_Z 0) r) eqn:Lo;
        [|eexists; reflexivity].
      destruct (SFleb r (double_of_Z (2 ^ 64 - 2048))) eqn:Hi;
        [|eexists; reflexivity].
      contradiction W. apply (UInt64_range_test r V). split; assumption.
Qed.

(** [asUInt64] on the Real 2^32, which a [UInt64] holds: it is within
    the bounds of the range test, its integer part 2^32 is no [UInt],
    and the conversion is undefined. *)
Lemma Value_asUInt64_checked_witness :
  payload_valid (Value_of_double (double_of_Z (2 ^ 32)))
  /\ double_within 0 (2 ^ 64 - 2048) (double_of_Z (2 ^ 32))
  /\ Value_asUInt64 checked (Value_of_double (double_of_Z (2 ^ 32))) 0
     = Failed UndefinedBehaviour.
Proof.
  assert (V : payload_valid (Value_of_double (double_of_Z (2 ^ 32))))
    by (vm_compute; reflexivity).
  assert (W : double_within 0 (2 ^ 64 - 2048) (double_of_Z (2 ^ 32))).
  { exists (scaled (2 ^ 32)). split; [vm_compute; reflexivity|].
    split; apply Z.leb_le; vm_compute; reflexivity. }
  split; [exact V|]. split; [exact W|].
  destruct (proj1 (Value_asUInt64_checked (Value_of_double (double_of_Z (2 ^ 32))) 0 V) W)
    as (z & P & _ & U).
  apply U. right.
  rewrite (integer_part_unique (double_of_Z (2 ^ 32)) z (2 ^ 32) P).
  - apply Z.ltb_lt. vm_compute. reflexivity.
  - apply (integer_part_intro (double_of_Z (2 ^ 32)) (scaled (2 ^ 32)));
      vm_compute; reflexivity.
Defined.

(** What the two conversions do at those inputs. *)
Example Value_asInt64_examples :
  Value_asInt64 checked (Value_of_double (double_of_Z (2 ^ 31))) 0
  = Failed UndefinedBehaviour
  /\ Value_asInt64 checked (Value_of_double (double_of_Z (- 2 ^ 63))) 0
     = Failed (RuntimeError "Real out of Int64 range")
  /\ Value_asInt64 checked (Value_of_double (double_of_Z (-7))) 0 = Ok (-7)
  /\ Value_asUInt64 checked (Value_of_double (double_of_Z (2 ^ 32))) 0
     = Failed UndefinedBehaviour
  /\ Value_asLargestInt checked (Value_of_UInt (2 ^ 63)) 
     = Failed (RuntimeError "unsigned integer out of Int64 range")
  /\ Value_asLargestUInt checked (Value_of_Int (-1))
     = Failed (RuntimeError "Negative integer can not be converted to UInt64").
Proof. repeat (split; [vm_compute; reflexivity|]); vm_compute; reflexivity. Qed.

(** X7: In the checked build [asDouble] succeeds on exactly the nodes that
    [isConvertibleTo(realValue)] accepts: all but Strings, Arrays and
    Objects, for which it throws.  In the unchecked build it returns the
    default for those. *)
Theorem Value_asDouble_succeeds_iff_convertible (this : Value)
    (defaultValue : spec_float) :
  ((exists r, Value_asDouble checked this defaultValue = Ok r)
   <-> Value_isConvertibleTo this realValue = true)
  /\ (Value_isConvertibleTo this realValue = false ->
      Value_asDouble checked this defaultValue
      = Failed (RuntimeError "Type is not convertible to double")
      /\ Value_asDouble unchecked this defaultValue = Ok defaultValue).
Proof.
  destruct this as [[ |i|u|r|s|x|m|m] a]; split;
    try (split; [reflexivity|eexists; reflexivity]);
    try (split; [intros [r' E]; discriminate E|discriminate]);
    try discriminate; try (intros _; split; reflexivity).
Qed.

(** X8: [isConvertibleTo(stringValue)] accepts every node but an Array or
    an Object, yet [asString] gives a text only for a Null, a String or
    a Bool: for an Int, a UInt or a Real, which are declared
    convertible, it throws in the checked build and returns the
    default in the unchecked one. *)
Theorem Value_asString_refuses_numbers (this : Value) (defaultValue : string) :
  ((exists s, Value_asString checked this defaultValue = Ok s)
   <-> type_ this = nullValue \/ type_ this = stringValue
       \/ type_ this = booleanValue)
  /\ (Value_isConvertibleTo this stringValue = true
      <-> type_ this <> arrayValue /\ type_ this <> objectValue)
  /\ (type_ this = intValue \/ type_ this = uintValue \/ type_ this = realValue ->
      Value_isConvertibleTo this stringValue = true
      /\ Value_asString checked this defaultValue
         = Failed (RuntimeError "Type is not convertible to string")
      /\ Value_asString unchecked this defaultValue = Ok defaultValue).
Proof.
  destruct this as [[ |i|u|r|s|x|m|m] a]; cbn [type_ value_];
    (split; [|split]);
    try (split; [intros _; tauto|intros _; eexists; reflexivity]);
    try (split; [intros [s' E]; discriminate E
                |intros [E|[E|E]]; discriminate E]);
    try (split; [intros _; split; discriminate|reflexivity]);
    try (split; [discriminate|intros [A B]; congruence]);
    try (intros [E|[E|E]]; discriminate E);
    try (intros _; repeat split).
Qed.

(* ------------------------------------------------------------------ *)
(** ** Strings built from a text with its length *)

Lemma substring_all (s : string) : substring 0 (String.length s) s = s.
Proof. induction s as [|c s IH]; cbn; [reflexivity|]. rewrite IH. reflexivity. Qed.

Lemma until_nul_without_nul (s : string) : has_nul s = false -> until_nul s = s.
Proof.
  induction s as [|c s IH]; cbn; [reflexivity|].
  intros H. apply orb_false_iff in H as [C H]. rewrite C, (IH H). reflexivity.
Qed.

(** What [duplicateStringValue] makes of a text of fewer than 2^32 - 1
    characters handed over with its length: no storage for the empty
    text, else fresh storage holding the characters before the first
    NUL. *)
Lemma duplicateStringValue_length_whole (value : string) (h : allocator) :
  Z.of_nat (String.length value) < maxUInt ->
  duplicateStringValue_length value
    (to_uint32 (Z.of_nat (String.length value))) h
  = match value with
    | EmptyString => Ok (None, h)
    | String _ _ => Ok (Some {| addr := h; bytes := until_nul value |}, N.succ h)
    end.
Proof.
  intros L. unfold duplicateStringValue_length, unknown.
  assert (E : to_uint32 (Z.of_nat (String.length value)) = Z.of_nat (String.length value)).
  { unfold to_uint32. apply Z.mod_small. unfold maxUInt in L. lia. }
  rewrite E.
  destruct (Z.eqb_spec (Z.of_nat (String.length value)) maxUInt) as [X|_]; [lia|].
  destruct value as [|c rest]; [reflexivity|].
  destruct (Z.eqb_spec (Z.of_nat (String.length (String c rest))) 0) as [X|_];
    [cbn in X; lia|].
  rewrite Nat2Z.id, substring_all. reflexivity.
Qed.

(** X9: A String node built from a [std::string] of fewer than 2^32 - 1
    characters gives back, with [asString], the characters before the
    first NUL of the text: the whole text when it holds no NUL.  The
    empty text is stored as a null pointer, and only the empty text. *)
Theorem Value_of_string_asString (b : Build) (value : string) (h : allocator)
    (defaultValue : string) :
  Z.of_nat (String.length value) < maxUInt ->
  exists this h',
    Value_of_string value h = Ok (this, h')
    /\ type_ this = stringValue
    /\ Value_asString b this defaultValue = Ok (until_nul value)
    /\ (has_nul value = false -> Value_asString b this defaultValue = Ok value)
    /\ (Value_asCString b this = Ok None <-> value = EmptyString).
Proof.
  intros L. unfold Value_of_string, Value_of_view. cbn [view_chars].
  rewrite (duplicateStringValue_length_whole value h L).
  assert (A : JSONCPP_ASSERT b true = Ok tt).
  { unfold JSONCPP_ASSERT, c_assert. destruct b as [[] []]; reflexivity. }
  destruct value as [|c rest]; cbn [bind]; eexists; eexists;
    (split; [reflexivity|]); (split; [reflexivity|]);
    (split; [reflexivity|]); split.
  - reflexivity.
  - unfold Value_asCString. cbn [type_ value_].
    change (ValueType_eqb stringValue stringValue) with true. rewrite A.
    split; reflexivity.
  - intros N. unfold Value_asString; cbn [value_ bytes].
    rewrite (until_nul_without_nul _ N). reflexivity.
  - unfold Value_asCString. cbn [type_ value_].
    change (ValueType_eqb stringValue stringValue) with true. rewrite A.
    split; discriminate.
Qed.

(** The text [a], a NUL, [b]: three characters, of which [asString]
    gives back the first. *)
Lemma Value_of_string_asString_witness :
  Z.of_nat (String.length (String "a" (String zero (String "b" EmptyString)))) < maxUInt
  /\ exists this h',
       Value_of_string (String "a" (String zero (String "b" EmptyString))) 7%N
       = Ok (this, h')
       /\ type_ this = stringValue
       /\ Value_asString checked this EmptyString = Ok "a"%string
       /\ (has_nul (String "a" (String zero (String "b" EmptyString))) = false ->
           Value_asString checked this EmptyString
           = Ok (String "a" (String zero (String "b" EmptyString))))
       /\ (Value_asCString checked this = Ok None
           <-> String "a" (String zero (String "b" EmptyString)) = EmptyString).
Proof.
  assert (L : Z.of_nat (String.length (String "a" (String zero (String "b" EmptyString))))
              < maxUInt) by (vm_compute; reflexivity).
  split; [exact L|].
  exact (Value_of_string_asString checked
           (String "a" (String zero (String "b" EmptyString))) 7%N EmptyString L).
Defined.

(* ------------------------------------------------------------------ *)
(** ** Members by name: lookup *)

(** When the first key is ordered before what is looked up, [find]
    goes on in the rest of the store. *)
Lemma find_cons_less {V : Type} (key_lt_x x_lt_key : CZString -> outcome bool)
    (k : CZString) (v : V) (m : list (CZString * V)) :
  key_lt_x k = Ok true ->
  ObjectValues.find key_lt_x x_lt_key ((k, v) :: m)
  = (it <- ObjectValues.find key_lt_x x_lt_key m ;; Ok (S it)).
Proof.
  intros H. unfold ObjectValues.find. cbn [ObjectValues.lower_bound].
  rewrite H. cbn [bind].
  destruct (ObjectValues.lower_bound key_lt_x m) as [it|f]; cbn [bind]; [|reflexivity].
  unfold ObjectValues.deref, ObjectValues.end_. cbn [nth_error List.length].
  destruct (nth_error m it) as [[k' v']|]; [|reflexivity].
  destruct (x_lt_key k') as [[]|]; reflexivity.
Qed.

(** The comparator on a Name key and a text compares the characters. *)
Lemma key_view_name (k : CZString) (name x : string) :
  key_name k = Some name ->
  CZStringCompare.key_view k x = Ok (is_Lt (compare_chars name x))
  /\ CZStringCompare.view_key x k = Ok (is_Lt (compare_chars x name)).
Proof.
  unfold key_name, CZStringCompare.key_view, CZStringCompare.view_key,
    CZStringCompare.view_of, CZString_length.
  destruct (cstr_ k) as [c|]; [|discriminate].
  intros E. injection E as <-. split; reflexivity.
Qed.

Lemma key_named_true (k : CZString) (x : string) :
  key_named k x = true <-> key_name k = Some x.
Proof.
  unfold key_named. destruct (key_name k) as [n|]; [|split; discriminate].
  rewrite String.eqb_eq. split; congruence.
Qed.

Lemma key_named_compare (k : CZString) (name x : string) :
  key_name k = Some name ->
  key_named k x = is_Eq (compare_chars name x).
Proof.
  intros E. unfold key_named. rewrite E.
  destruct (compare_chars name x) eqn:C; cbn.
  - apply compare_chars_eq in C. subst. apply String.eqb_refl.
  - apply String.eqb_neq. intros ->. rewrite compare_chars_refl in C. discriminate.
  - apply String.eqb_neq. intros ->. rewrite compare_chars_refl in C. discriminate.
Qed.

(** A name that is not above the first of an ascending run is not in
    the rest of it. *)
Lemma name_above_absent (m : list (CZString * Value)) (name x : string) :
  Forall (fun e => exists name', key_name (fst e) = Some name'
                                 /\ compare_chars name name' = Lt) m ->
  compare_chars x name <> Gt ->
  name_position m x = List.length m /\ member m x = None.
Proof.
  intros F C. induction F as [|[k v] m (n' & K & L) F IH]; [split; reflexivity|].
  cbn [name_position member fst List.length] in *.
  assert (X : compare_chars n' x = Gt).
  { rewrite compare_chars_antisym.
    destruct (compare_chars x name) eqn:Cx; [| |contradiction].
    - apply compare_chars_eq in Cx. subst. rewrite L. reflexivity.
    - rewrite (compare_chars_lt_trans _ _ _ Cx L). reflexivity. }
  rewrite (key_named_compare k n' x K), X. cbn.
  destruct IH as [-> ->]. split; reflexivity.
Qed.

(** In an ascending store [find] by text returns the position of the
    entry of that name, and [end()] when there is none. *)
Lemma find_view_position (m : list (CZString * Value)) (x : string) :
  names_ascend m ->
  ObjectValues.find_view m x = Ok (name_position m x).
Proof.
  intros A. induction A as [|k v name m K F A IH]; [reflexivity|].
  destruct (key_view_name k name x K) as [KV VK].
  unfold ObjectValues.find_view in *. cbn [name_position].
  rewrite (key_named_compare k name x K).
  destruct (compare_chars name x) eqn:C; cbn [is_Eq].
  - unfold ObjectValues.find. cbn [ObjectValues.lower_bound]. rewrite KV.
    cbn [is_Lt bind ObjectValues.deref nth_error]. rewrite VK.
    rewrite compare_chars_antisym, C. reflexivity.
  - rewrite find_cons_less by (rewrite KV; reflexivity).
    rewrite IH. reflexivity.
  - unfold ObjectValues.find. cbn [ObjectValues.lower_bound]. rewrite KV.
    cbn [is_Lt bind ObjectValues.deref nth_error]. rewrite VK.
    rewrite compare_chars_antisym, C. cbn [CompOpp is_Lt bind].
    destruct (name_above_absent m name x F) as [-> _]; [|reflexivity].
    rewrite compare_chars_antisym, C. discriminate.
Qed.

(** The entry at the position of a name is the member of that name. *)
Lemma member_at_position (m : list (CZString * Value)) (x : string) :
  option_map snd (nth_error m (name_position m x)) = member m x
  /\ (name_position m x <= List.length m)%nat
  /\ (Nat.eqb (name_position m x) (List.length m) = true <-> member m x = None).
Proof.
  induction m as [|[k v] m (IH1 & IH2 & IH3)]; cbn [name_position member List.length].
  - repeat split; cbn; lia.
  - destruct (key_named k x).
    + cbn. repeat split; try lia; discriminate.
    + cbn [nth_error]. split; [exact IH1|]. split; [lia|]. exact IH3.
Qed.

(** A member is an entry of the store under a key of that name, and in
    an ascending store every such entry is the member. *)
Lemma member_In (m : list (CZString * Value)) (x : string) (v : Value) :
  member m x = Some v -> exists k, In (k, v) m /\ key_name k = Some x.
Proof.
  induction m as [|[k' v'] m IH]; cbn [member]; [discriminate|].
  destruct (key_named k' x) eqn:N.
  - intros E. injection E as <-. exists k'. split; [left; reflexivity|].
    apply key_named_true. exact N.
  - intros E. destruct (IH E) as (k & I & K). exists k. split; [right; exact I|exact K].
Qed.

Lemma In_member (m : list (CZString * Value)) (x : string) (k : CZString)
    (v : Value) :
  names_ascend m -> In (k, v) m -> key_name k = Some x -> member m x = Some v.
Proof.
  intros A. induction A as [|k' v' name m K F A IH]; intros I E; [contradiction|].
  cbn [member]. destruct I as [I|I].
  - injection I as -> ->. apply key_named_true in E. rewrite E. reflexivity.
  - rewrite (key_named_compare k' name x K).
    rewrite Forall_forall in F. destruct (F _ I) as (n' & K' & L).
    cbn [fst] in K'. rewrite E in K'. injection K' as <-.
    rewrite L. cbn. apply IH; assumption.
Qed.

Lemma member_None (m : list (CZString * Value)) (x : string) :
  member m x = None <-> (forall k v, In (k, v) m -> key_name k <> Some x).
Proof.
  induction m as [|[k' v'] m IH]; cbn [member].
  - split; [intros _ k v []|reflexivity].
  - destruct (key_named k' x) eqn:N.
    + split; [discriminate|]. intros H. exfalso.
      apply (H k' v'); [left; reflexivity|]. apply key_named_true. exact N.
    + rewrite IH. split.
      * intros H k v [I|I]; [|apply (H k v I)].
        injection I as <- <-. intros E. apply key_named_true in E. congruence.
      * intros H k v I. apply (H k v). right. exact I.
Qed.

(** Reading an Object by name, through [tryGet]. *)
Lemma Value_read_view_member (b : Build) (m : list (CZString * Value))
    (a : bool) (x : string) :
  names_ascend m ->
  Value_tryGet_view b (mkValue (holds_object m) a) x
  = Ok (if Nat.eqb (name_position m x) (List.length m) then None
        else Some (name_position m x))
  /\ Value_read_view b (mkValue (holds_object m) a) x = Ok (member m x).
Proof.
  intros A.
  assert (T : Value_tryGet_view b (mkValue (holds_object m) a) x
              = Ok (if Nat.eqb (name_position m x) (List.length m) then None
                    else Some (name_position m x))).
  { unfold Value_tryGet_view. cbn [type_ value_ Value_map].
    assert (J : JSONCPP_ASSERT b (ValueType_eqb objectValue nullValue
                                  || ValueType_eqb objectValue objectValue) = Ok tt).
    { unfold JSONCPP_ASSERT, c_assert. destruct b as [[] []]; reflexivity. }
    rewrite J. cbn [bind]. change (ValueType_eqb objectValue nullValue) with false.
    cbv iota. rewrite (find_view_position m x A). cbn [bind].
    unfold ObjectValues.end_. destruct (Nat.eqb (name_position m x) (List.length m)); reflexivity. }
  split; [exact T|].
  unfold Value_read_view. rewrite T. cbn [bind].
  destruct (member_at_position m x) as (P1 & P2 & P3).
  destruct (Nat.eqb (name_position m x) (List.length m)) eqn:E.
  - f_equal. symmetry. apply P3. reflexivity.
  - unfold Value_at, ObjectValues.deref. cbn [value_]. rewrite P1. reflexivity.
Qed.

(** X10: [tryGet(key)] and [isMember(key)] on an Object whose names ascend:
    the entry whose key has exactly the characters of [key] is found,
    whatever the policy of that key, and when no entry has them the
    result is [nullptr] and [false].  At most one entry has them. *)
Theorem Value_tryGet_view_finds_the_member (b : Build)
    (m : list (CZString * Value)) (a : bool) (key : string) :
  names_ascend m ->
  let this := mkValue (holds_object m) a in
  (forall k v, In (k, v) m -> key_name k = Some key ->
     Value_read_view b this key = Ok (Some v)
     /\ Value_isMember_view b this key = Ok true)
  /\ ((forall k v, In (k, v) m -> key_name k <> Some key) ->
      Value_read_view b this key = Ok None
      /\ Value_isMember_view b this key = Ok false).
Proof.
  intros A this. destruct (Value_read_view_member b m a key A) as [T R].
  fold this in T, R. destruct (member_at_position m key) as (_ & _ & P3).
  split.
  - intros k v I K. pose proof (In_member m key k v A I K) as M.
    split; [rewrite R, M; reflexivity|].
    unfold Value_isMember_view. rewrite T. cbn [bind].
    destruct (Nat.eqb (name_position m key) (List.length m)); [|reflexivity].
    rewrite (proj1 P3 eq_refl) in M. discriminate.
  - intros H. apply member_None in H.
    split; [rewrite R, H; reflexivity|].
    unfold Value_isMember_view. rewrite T. cbn [bind].
    rewrite (proj2 P3 H). reflexivity.
Qed.

(** Witness of the lookup: the Object of members [a] and [b]. *)
Lemma Value_tryGet_view_finds_the_member_witness :
  let m := [({| cstr_ := Some (mkCstr 1 "a"); index_ := duplicate |}, Value_of_Int 1);
            ({| cstr_ := Some (mkCstr 2 "b"); index_ := noDuplication |}, Value_of_Int 2)] in
  names_ascend m
  /\ Value_read_view checked (mkValue (holds_object m) false) "b" = Ok (Some (Value_of_Int 2))
  /\ Value_isMember_view checked (mkValue (holds_object m) false) "b" = Ok true.
Proof.
  intros m.
  assert (A : names_ascend m).
  { repeat (econstructor; [reflexivity| |]); repeat constructor.
    eexists; split; reflexivity. }
  split; [exact A|].
  exact (proj1 (Value_tryGet_view_finds_the_member checked m false "b" A)
           {| cstr_ := Some (mkCstr 2 "b"); index_ := noDuplication |}
           (Value_of_Int 2) (or_intror (or_introl eq_refl)) eq_refl).
Defined.

(* ------------------------------------------------------------------ *)
(** ** Members by name: [operator[]] *)

(** Two Name keys whose pointers agree are ordered by their names. *)
Lemma CZString_lt_names (k1 k2 : CZString) (n1 n2 : string) :
  key_name k1 = Some n1 -> key_name k2 = Some n2 ->
  ptr_agree (cstr_ k1) (cstr_ k2) ->
  CZString_lt k1 k2 = is_Lt (compare_chars n1 n2)
  /\ CZString_lt k2 k1 = is_Lt (compare_chars n2 n1).
Proof.
  unfold key_name. destruct k1 as [[a|] pa], k2 as [[c|] pc]; cbn [cstr_];
    try discriminate.
  intros E1 E2 G. injection E1 as <-. injection E2 as <-.
  split.
  - apply (CZString_name_keys_by_content a c pa pc G).
  - apply (CZString_name_keys_by_content c a pc pa).
    cbn in *. intros E. symmetry. apply G. symmetry. exact E.
Qed.

(** [emplace] keeps what holds of every entry and of the new one. *)
Lemma emplace_Forall (P : CZString * Value -> Prop)
    (m : list (CZString * Value)) (k : CZString) (v : Value) :
  Forall P m -> P (k, v) -> Forall P (fst (ObjectValues.emplace m k v)).
Proof.
  intros F N. induction F as [|[k' v'] m H F IH]; cbn [ObjectValues.emplace].
  - repeat constructor. exact N.
  - destruct (CZString_lt k' k).
    + destruct (ObjectValues.emplace m k v) as [r' it]. cbn [fst] in *.
      constructor; assumption.
    + destruct (CZString_lt k k'); cbn [fst]; repeat constructor; assumption.
Qed.

(** [emplace] of a Name key into an ascending store: the store still
    ascends, the iterator returned is the position of the name, the
    entry of that name is the one that was there or else the new one,
    and the other members are as they were. *)
Lemma emplace_names (m : list (CZString * Value)) (k : CZString)
    (name : string) (v : Value) :
  names_ascend m -> key_name k = Some name ->
  Forall (fun e => ptr_agree (cstr_ (fst e)) (cstr_ k)) m ->
  names_ascend (fst (ObjectValues.emplace m k v))
  /\ snd (ObjectValues.emplace m k v)
     = name_position (fst (ObjectValues.emplace m k v)) name
  /\ member (fst (ObjectValues.emplace m k v)) name
     = Some (match member m name with Some old => old | None => v end)
  /\ (forall x, x <> name ->
      member (fst (ObjectValues.emplace m k v)) x = member m x)
  /\ List.length (fst (ObjectValues.emplace m k v))
     = match member m name with
       | Some _ => List.length m
       | None => S (List.length m)
       end
  /\ (member m name <> None -> fst (ObjectValues.emplace m k v) = m).
Proof.
  intros A K G. induction A as [|k' v' n' m K' F A IH].
  - cbn [ObjectValues.emplace fst snd name_position member List.length].
    assert (N : key_named k name = true) by (apply key_named_true; exact K).
    rewrite N. repeat split.
    + econstructor; [exact K|constructor|constructor].
    + intros x X. destruct (key_named k x) eqn:Nx; [|reflexivity].
      apply key_named_true in Nx. congruence.
    + intros X. contradiction X. reflexivity.
  - inversion G as [|e l G1 G2]; subst. cbn [fst] in G1.
    destruct (CZString_lt_names k' k n' name K' K G1) as [L1 L2].
    cbn [ObjectValues.emplace]. rewrite L1, L2.
    cbn [member List.length]. rewrite (key_named_compare k' n' name K').
    destruct (compare_chars n' name) eqn:C; cbn [is_Lt is_Eq].
    + (* the name is that of the first entry *)
      rewrite compare_chars_antisym, C. cbn [CompOpp is_Lt fst snd].
      cbn [name_position member List.length].
      rewrite (key_named_compare k' n' name K'), C. cbn [is_Eq].
      repeat split; try reflexivity.
      econstructor; eassumption.
    + (* the name comes after the first entry *)
      specialize (IH G2). destruct IH as (I1 & I2 & I3 & I4 & I5 & I6).
      pose proof (emplace_Forall
                    (fun e => exists name', key_name (fst e) = Some name'
                                            /\ compare_chars n' name' = Lt)
                    m k v F) as EF.
      destruct (ObjectValues.emplace m k v) as [r' it]. cbn [fst snd] in *.
      cbn [name_position member List.length].
      rewrite (key_named_compare k' n' name K'), C. cbn [is_Eq].
      split; [econstructor; [exact K'| |exact I1]|].
      { apply EF. exists name. split; [exact K|exact C]. }
      split; [congruence|]. split; [exact I3|]. split.
      { intros x X. rewrite (I4 x X). reflexivity. }
      split.
      { rewrite I5. destruct (member m name); reflexivity. }
      intros X. rewrite (I6 X). reflexivity.
    + (* the name comes before the first entry *)
      rewrite compare_chars_antisym, C. cbn [CompOpp is_Lt fst snd].
      assert (Lt' : compare_chars name n' = Lt)
        by (rewrite compare_chars_antisym, C; reflexivity).
      assert (N : key_named k name = true) by (apply key_named_true; exact K).
      destruct (name_above_absent m n' name F) as [_ M];
        [rewrite Lt'; discriminate|].
      cbn [name_position member List.length]. rewrite N, M.
      split.
      { econstructor; [exact K| |econstructor; eassumption].
        constructor.
        - exists n'. split; [exact K'|exact Lt'].
        - eapply Forall_impl; [|exact F]. cbn. intros e (n2 & K2 & L2').
          exists n2. split; [exact K2|].
          apply (compare_chars_lt_trans _ _ _ Lt' L2'). }
      repeat split.
      * intros x X. destruct (key_named k x) eqn:Nx; [|reflexivity].
        apply key_named_true in Nx. congruence.
      * intros X. contradiction X. reflexivity.
Qed.

(** A store none of whose keys lives at [h] agrees with a key whose
    characters are stored there. *)
Lemma storage_free_agree (h : N) (m : list (CZString * Value)) (s : string)
    (policy : Z) :
  storage_free h m ->
  Forall (fun e => ptr_agree (cstr_ (fst e))
                     (cstr_ {| cstr_ := Some {| addr := h; bytes := s |};
                               index_ := policy |})) m.
Proof.
  intros F. eapply Forall_impl; [|exact F]. intros [k v]. cbn.
  destruct (cstr_ k) as [c|]; [|trivial]. intros N E. contradiction.
Qed.

(** The key that [operator[]] builds from a text that is not empty,
    holds no NUL and has fewer than 2^32 - 1 characters: an owned
    duplicate of the text. *)
Lemma CZString_view_text (key : string) (h : allocator) :
  key <> EmptyString -> has_nul key = false ->
  Z.of_nat (String.length key) < maxUInt ->
  CZString_view (Some key) h
  = Ok ({| cstr_ := Some {| addr := h; bytes := key |}; index_ := duplicate |},
        N.succ h).
Proof.
  intros NE NN L. unfold CZString_view.
  rewrite (duplicateStringValue_length_whole key h L).
  destruct key as [|c rest]; [contradiction NE; reflexivity|].
  cbn [bind]. rewrite (until_nul_without_nul _ NN). reflexivity.
Qed.

(** On a Null node [operator[]] by name does what it does on an Object
    without members. *)
Lemma Value_subscript_view_null (b : Build) (a : bool) (key : string_view)
    (h : allocator) :
  Value_subscript_view b (mkValue holds_null a) key h
  = Value_subscript_view b (mkValue (holds_object []) a) key h.
Proof.
  unfold Value_subscript_view, JSONCPP_ASSERT, c_assert.
  destruct b as [[] []]; reflexivity.
Qed.

(** [operator[]] by name on an Object whose names ascend. *)
Lemma Value_subscript_view_object (b : Build) (m : list (CZString * Value))
    (a : bool) (key : string) (h : allocator) :
  names_ascend m -> storage_free h m ->
  key <> EmptyString -> has_nul key = false ->
  Z.of_nat (String.length key) < maxUInt ->
  let this := mkValue (holds_object m) a in
  exists m' it h',
    Value_subscript_view b this (Some key) h
    = Ok (mkValue (holds_object m') a, it, h')
    /\ names_ascend m'
    /\ Value_tryGet_view b (mkValue (holds_object m') a) key = Ok (Some it)
    /\ Value_at (mkValue (holds_object m') a) it
       = Some (match member m key with Some v => v | None => null end)
    /\ (forall other, other <> key -> member m' other = member m other)
    /\ List.length m'
       = match member m key with
         | Some _ => List.length m
         | None => S (List.length m)
         end
    /\ (member m key <> None -> m' = m /\ h' = h).
Proof.
  intros A SF NE NN L this. subst this.
  destruct (Value_read_view_member b m a key A) as [T _].
  destruct (member_at_position m key) as (P1 & P2 & P3).
  assert (S : Value_subscript_view b (mkValue (holds_object m) a) (Some key) h
              = if Nat.eqb (name_position m key) (List.length m)
                then Ok (mkValue (holds_object
                           (fst (ObjectValues.emplace m
                                   {| cstr_ := Some {| addr := h; bytes := key |};
                                      index_ := duplicate |} null))) a,
                         snd (ObjectValues.emplace m
                                {| cstr_ := Some {| addr := h; bytes := key |};
                                   index_ := duplicate |} null),
                         N.succ h)
                else Ok (mkValue (holds_object m) a, name_position m key, h)).
  { assert (J : JSONCPP_ASSERT b (ValueType_eqb objectValue nullValue
                                  || ValueType_eqb objectValue objectValue) = Ok tt).
    { unfold JSONCPP_ASSERT, c_assert. destruct b as [[] []]; reflexivity. }
    unfold Value_subscript_view. cbn [type_ value_]. rewrite J. cbn [bind].
    change (ValueType_eqb objectValue nullValue) with false. cbv iota.
    cbn [view_chars]. rewrite T.
    destruct (Nat.eqb (name_position m key) (List.length m)); cbn [bind];
      [|reflexivity].
    cbn [Value_map value_ bind]. rewrite (CZString_view_text key h NE NN L).
    cbn [bind].
    destruct (ObjectValues.emplace m
                {| cstr_ := Some {| addr := h; bytes := key |}; index_ := duplicate |}
                null) as [m' it].
    reflexivity. }
  rewrite S. clear S.
  destruct (Nat.eqb (name_position m key) (List.length m)) eqn:E.
  - (* no member of that name: one is made *)
    pose proof (proj1 P3 eq_refl) as M.
    pose proof (emplace_names m
                  {| cstr_ := Some {| addr := h; bytes := key |}; index_ := duplicate |}
                  key null A eq_refl
                  (storage_free_agree h m key duplicate SF))
      as (I1 & I2 & I3 & I4 & I5 & _).
    destruct (ObjectValues.emplace m
                {| cstr_ := Some {| addr := h; bytes := key |}; index_ := duplicate |}
                null) as [m' it].
    cbn [fst snd] in *. rewrite M in *.
    exists m', it, (N.succ h).
    split; [reflexivity|]. split; [exact I1|].
    destruct (Value_read_view_member b m' a key I1) as [T' _].
    destruct (member_at_position m' key) as (Q1 & Q2 & Q3).
    destruct (Nat.eqb (name_position m' key) (List.length m')) eqn:E'.
    { rewrite (proj1 Q3 eq_refl) in I3. discriminate. }
    split; [rewrite I2; exact T'|].
    split.
    { unfold Value_at, ObjectValues.deref. cbn [value_]. rewrite I2, Q1. exact I3. }
    split; [exact I4|]. split; [exact I5|].
    intros X. contradiction X. reflexivity.
  - (* the member is there *)
    exists m, (name_position m key), h.
    split; [reflexivity|]. split; [exact A|]. split; [exact T|].
    destruct (member m key) as [v|] eqn:M.
    + split.
      { unfold Value_at, ObjectValues.deref. cbn [value_]. rewrite P1. reflexivity. }
      repeat split; reflexivity.
    + discriminate (proj2 P3 eq_refl).
Qed.

(** X11: [operator[](key)] on a Null node or on an Object whose names
    ascend, for a name that is not empty, holds no NUL and has fewer
    than 2^32 - 1 characters.  The node is an Object afterwards and its
    names still ascend.  The reference returned is the entry that
    [tryGet(key)] finds from then on: the member of that name if there
    was one, and the node and the allocator are then left as they were;
    else a new Null member.  Every other member is as it was, and the
    number of members grows by one exactly when the name was new. *)
Theorem Value_subscript_view_finds_or_inserts (b : Build) (this : Value)
    (key : string) (h : allocator) :
  type_ this = nullValue \/ type_ this = objectValue ->
  names_ascend (entries this) -> storage_free h (entries this) ->
  key <> EmptyString -> has_nul key = false ->
  Z.of_nat (String.length key) < maxUInt ->
  exists this' it h',
    Value_subscript_view b this (Some key) h = Ok (this', it, h')
    /\ type_ this' = objectValue
    /\ names_ascend (entries this')
    /\ Value_tryGet_view b this' key = Ok (Some it)
    /\ Value_at this' it
       = Some (match member (entries this) key with Some v => v | None => null end)
    /\ (forall other, other <> key ->
        member (entries this') other = member (entries this) other)
    /\ List.length (entries this')
       = match member (entries this) key with
         | Some _ => List.length (entries this)
         | None => S (List.length (entries this))
         end
    /\ (member (entries this) key <> None -> this' = this /\ h' = h).
Proof.
  intros T A SF NE NN L.
  destruct this as [[ |i|u|r|s|x|m|m] a]; cbn [type_ value_] in T;
    try (destruct T as [T|T]; discriminate T); unfold entries in *; cbn [value_] in *.
  - rewrite Value_subscript_view_null.
    destruct (Value_subscript_view_object b [] a key h A SF NE NN L)
      as (m' & it & h' & E & I1 & I2 & I3 & I4 & I5 & I6).
    exists (mkValue (holds_object m') a), it, h'. cbn [value_ type_].
    repeat split; try assumption.
    + contradiction H. reflexivity.
    + contradiction H. reflexivity.
  - destruct (Value_subscript_view_object b m a key h A SF NE NN L)
      as (m' & it & h' & E & I1 & I2 & I3 & I4 & I5 & I6).
    exists (mkValue (holds_object m') a), it, h'. cbn [value_ type_].
    repeat split; try assumption.
    + destruct (I6 H) as [-> _]. reflexivity.
    + apply (I6 H).
Qed.

(** [operator[]] with the name [b] on the Object of the one member [a]. *)
Lemma Value_subscript_view_finds_or_inserts_witness :
  let this := mkValue (holds_object
                [({| cstr_ := Some (mkCstr 1 "a"); index_ := duplicate |},
                  Value_of_Int 1)]) false in
  exists this' it h',
    Value_subscript_view checked this (Some "b"%string) 5%N = Ok (this', it, h')
    /\ type_ this' = objectValue
    /\ names_ascend (entries this')
    /\ Value_tryGet_view checked this' "b" = Ok (Some it)
    /\ Value_at this' it
       = Some (match member (entries this) "b" with Some v => v | None => null end)
    /\ (forall other, other <> "b"%string ->
        member (entries this') other = member (entries this) other)
    /\ List.length (entries this')
       = match member (entries this) "b" with
         | Some _ => List.length (entries this)
         | None => S (List.length (entries this))
         end
    /\ (member (entries this) "b" <> None -> this' = this /\ h' = 5%N).
Proof.
  intros this.
  apply (Value_subscript_view_finds_or_inserts checked this "b" 5%N).
  - right; reflexivity.
  - econstructor; [reflexivity|constructor|constructor].
  - repeat constructor. cbn. discriminate.
  - discriminate.
  - reflexivity.
  - vm_compute; reflexivity.
Defined.

(* ------------------------------------------------------------------ *)
(** ** The heap and the destructors *)

Lemma In_malloced (h h' q : N) : In q (malloced h h') <-> (h <= q < h')%N.
Proof.
  unfold malloced. split.
  - intros I. apply addresses_bounds in I. lia.
  - intros B. assert (G : forall n lo, (lo <= q < lo + N.of_nat n)%N ->
                            In q (addresses lo n)).
    { induction n as [|n IH]; intros lo L; cbn [addresses]; [lia|].
      destruct (N.eq_dec lo q) as [->|D]; [left; reflexivity|right].
      apply IH. lia. }
    apply G. lia.
Qed.

Lemma malloced_nil (h : N) : malloced h h = [].
Proof. unfold malloced. rewrite N.sub_diag. reflexivity. Qed.

Lemma releases_nil (live : heap) : releases [] live (Ok live).
Proof.
  split; [constructor|]. split; [intros q []|].
  intros q. split; [intros I; split; [exact I|intros []]|intros [I _]; exact I].
Qed.

(** [free] releases the block it is given. *)
Lemma releases_free (p : N) (live : heap) : releases [p] live (free p live).
Proof.
  unfold free. destruct (existsb (N.eqb p) live) eqn:E; cbn [releases].
  - apply existsb_exists in E as (x & I & X). apply N.eqb_eq in X. subst x.
    split; [repeat constructor; intros []|].
    split; [intros q [<-|[]]; exact I|].
    intros q. rewrite filter_In. split.
    + intros [J Q]. split; [exact J|]. intros [<-|[]].
      rewrite N.eqb_refl in Q. discriminate Q.
    + intros [J Q]. split; [exact J|].
      destruct (N.eqb_spec p q) as [->|D]; [|reflexivity].
      contradiction Q. left; reflexivity.
  - split; [reflexivity|]. intros [_ I].
    assert (X : existsb (N.eqb p) live = true).
    { apply existsb_exists. exists p. split; [apply I; left; reflexivity|].
      apply N.eqb_refl. }
    rewrite X in E. discriminate E.
Qed.

(** The blocks to release, in another order. *)
Lemma releases_Permutation (ps ps' : list N) (live : heap) (r : outcome heap) :
  Permutation ps ps' -> releases ps live r -> releases ps' live r.
Proof.
  intros P. assert (P' : Permutation ps' ps) by (symmetry; exact P).
  destruct r as [live'|e]; cbn [releases].
  - intros (D & I & C). split; [exact (Permutation_NoDup P D)|].
    split; [intros q Q; apply I; exact (Permutation_in q P' Q)|].
    intros q. rewrite (C q). split; intros [J Q]; (split; [exact J|]);
      intros X; apply Q.
    + exact (Permutation_in q P' X).
    + exact (Permutation_in q P X).
  - intros [E F]. split; [exact E|]. intros [D I]. apply F.
    split; [exact (Permutation_NoDup P' D)|].
    intros q Q; apply I; exact (Permutation_in q P Q).
Qed.

(** One destructor after another. *)
Lemma releases_bind (ps qs : list N) (live : heap) (r : outcome heap)
    (k : heap -> outcome heap) :
  releases ps live r ->
  (forall live1, r = Ok live1 -> releases qs live1 (k live1)) ->
  releases (ps ++ qs) live (bind r k).
Proof.
  intros R K. destruct r as [live1|e]; cbn [bind releases] in *.
  - destruct R as (D & I & C). specialize (K live1 eq_refl).
    destruct (k live1) as [live'|e]; cbn [releases] in *.
    + destruct K as (D2 & I2 & C2).
      split.
      { apply NoDup_app; [exact D|exact D2|].
        intros a A B. apply I2 in B. apply C in B. apply (proj2 B), A. }
      split.
      { intros q Q. apply in_app_iff in Q as [Q|Q]; [apply I, Q|].
        apply I2 in Q. apply C in Q. apply Q. }
      intros q. rewrite (C2 q), (C q), in_app_iff. tauto.
    + destruct K as [E F]. split; [exact E|]. intros [D' I']. apply F.
      split; [exact (NoDup_app_remove_l _ _ D')|].
      intros q Q. apply C. split; [apply I', in_app_iff; right; exact Q|].
      intros A. apply NoDup_app_remove_l in D' as D2.
      revert A Q. clear - D'. revert D'. induction ps as [|x ps IH]; cbn.
      * intros _ [].
      * intros D' [<-|A] Q.
        -- inversion D' as [|? ? N _]; subst. apply N, in_app_iff. right; exact Q.
        -- inversion D' as [|? ? _ D'']; subst. exact (IH D'' A Q).
  - destruct R as [E F]. split; [exact E|]. intros [D' I']. apply F. split.
    + clear - D'. induction ps as [|x ps IH]; [constructor|].
      cbn in D'. inversion D' as [|? ? N D'']; subst. constructor; [|exact (IH D'')].
      intros A. apply N, in_app_iff. left; exact A.
    + intros q Q. apply I', in_app_iff. left; exact Q.
Qed.

(** The destructor of a key releases what the key owns. *)
Lemma CZString_destroy_releases (k : CZString) (live : heap) :
  releases (key_owned k) live (CZString_destroy k live).
Proof.
  unfold CZString_destroy, key_owned, releaseStringValue.
  destruct (cstr_ k) as [c|]; cbn [is_null negb andb]; [|apply releases_nil].
  destruct (index_ k =? duplicate); [apply releases_free|apply releases_nil].
Qed.

(** The destructor of a store releases what the keys and the nodes of
    the entries own. *)
Lemma ObjectValues_destroy_releases (m : list (CZString * Value)) :
  Forall (fun e => forall live : heap,
              releases (owned (snd e)) live (Value_destroy (snd e) live)) m ->
  forall live : heap,
    releases (flat_map (fun e => key_owned (fst e) ++ owned (snd e)) m) live
             (ObjectValues.destroy Value_destroy m live).
Proof.
  induction 1 as [|[k v] r Hv _ IH]; intros live; cbn [flat_map ObjectValues.destroy].
  - apply releases_nil.
  - cbn [fst snd] in *.
    apply (releases_Permutation
             (owned v ++ key_owned k
              ++ flat_map (fun e => key_owned (fst e) ++ owned (snd e)) r)).
    { rewrite <- app_assoc. apply Permutation_app_swap_app. }
    apply releases_bind; [apply Hv|]. intros live1 _.
    apply releases_bind; [apply CZString_destroy_releases|]. intros live2 _.
    apply IH.
Qed.

(** The destructor of a node releases what the node owns: it returns
    exactly when those blocks are live and distinct. *)
Lemma Value_destroy_releases (this : Value) :
  forall live : heap, releases (owned this) live (Value_destroy this live).
Proof.
  induction this as [v a S|m a IH|m a IH] using Value_nested_ind; intros live.
  - destruct v as [ |i|u|r|[s|]|x|m|m]; try contradiction;
      cbn [owned Value_destroy value_ allocated_ releaseStringValue];
      try apply releases_nil;
      destruct a; try apply releases_nil; apply releases_free.
  - cbn [owned Value_destroy value_]. apply ObjectValues_destroy_releases, IH.
  - cbn [owned Value_destroy value_]. apply ObjectValues_destroy_releases, IH.
Qed.

(** A destructor that has a block to release that is not live does not
    return. *)
Lemma releases_not_live (ps : list N) (live : heap) (r : outcome heap) (p : N) :
  releases ps live r -> In p ps -> ~ In p live -> r = Failed UndefinedBehaviour.
Proof.
  intros R I N. destruct r as [live'|e]; cbn [releases] in R.
  - destruct R as (_ & J & _). contradiction N. apply J, I.
  - destruct R as [-> _]. reflexivity.
Qed.

(* ------------------------------------------------------------------ *)
(** ** Members by name: [removeMember] *)

Lemma erase_at_Forall {V : Type} (P : CZString * V -> Prop)
    (m : list (CZString * V)) (it : nat) :
  Forall P m -> Forall P (ObjectValues.erase_at m it).
Proof.
  intros F. revert it. induction F as [|e m H F IH]; intros [|it];
    cbn [ObjectValues.erase_at]; try constructor; auto.
Qed.

(** Erasing the entry at the position of a name, in an ascending store:
    the store still ascends, the name is gone, and the other members are
    as they were.  Nothing is erased at [end()]. *)
Lemma erase_at_names (m : list (CZString * Value)) (x : string) :
  names_ascend m ->
  let m' := ObjectValues.erase_at m (name_position m x) in
  names_ascend m'
  /\ member m' x = None
  /\ (forall y, y <> x -> member m' y = member m y)
  /\ List.length m'
     = match member m x with
       | Some _ => pred (List.length m)
       | None => List.length m
       end
  /\ (member m x = None -> m' = m).
Proof.
  intros A. induction A as [|k v n m K F A IH]; cbn zeta in *.
  - cbn. repeat split; constructor.
  - cbn [name_position member]. destruct (key_named k x) eqn:N.
    + cbn [ObjectValues.erase_at List.length pred].
      apply key_named_true in N. rewrite K in N. injection N as ->.
      split; [exact A|]. split.
      { apply (name_above_absent m x x F). rewrite compare_chars_refl. discriminate. }
      split.
      { intros y Y. destruct (key_named k y) eqn:Ny; [|reflexivity].
        apply key_named_true in Ny. congruence. }
      split; [reflexivity|discriminate].
    + destruct IH as (I1 & I2 & I3 & I4 & I5).
      cbn [ObjectValues.erase_at member List.length]. rewrite N.
      split; [econstructor; [exact K| |exact I1]|].
      { apply erase_at_Forall. exact F. }
      split; [exact I2|]. split.
      { intros y Y. rewrite (I3 y Y). reflexivity. }
      split.
      { rewrite I4. destruct (member m x) eqn:M; [|reflexivity].
        destruct m; [discriminate M|reflexivity]. }
      intros M. rewrite (I5 M). reflexivity.
Qed.

(** The entry at the position of a name is what [member_owned] looks
    at. *)
Lemma member_owned_at_position (m : list (CZString * Value)) (x : string) :
  member_owned m x
  = match nth_error m (name_position m x) with
    | Some (k, v) => key_owned k ++ owned v
    | None => []
    end.
Proof.
  induction m as [|[k v] m IH]; cbn [member_owned name_position]; [reflexivity|].
  destruct (key_named k x); [reflexivity|exact IH].
Qed.

(** The destructor of an entry releases what the entry owns. *)
Lemma entry_destroy_releases (k : CZString) (v : Value) (live : heap) :
  releases (key_owned k ++ owned v) live
           (live1 <- Value_destroy v live ;; CZString_destroy k live1).
Proof.
  apply (releases_Permutation (owned v ++ key_owned k));
    [apply Permutation_app_comm|].
  apply releases_bind; [apply Value_destroy_releases|].
  intros live1 _. apply CZString_destroy_releases.
Qed.

(** [removeMember] on an Object whose names ascend, step by step: the
    entry of the name is looked up; its node is copied, the entry is
    destroyed and the copy is moved out. *)
Lemma Value_removeMember_object (b : Build) (m : list (CZString * Value))
    (a : bool) (key : string) (h : allocator) (live : heap) :
  names_ascend m ->
  Value_removeMember b (mkValue (holds_object m) a) key h live
  = match nth_error m (name_position m key) with
    | Some (k, second) =>
        live2 <- (live1 <- Value_destroy second
                             (live ++ malloced h (snd (Value_copy second h))) ;;
                  CZString_destroy k live1) ;;
        Ok (mkValue (holds_object (ObjectValues.erase_at m (name_position m key))) a,
            mkValue (value_ (fst (Value_copy second h))) false,
            snd (Value_copy second h), live2)
    | None => Ok (mkValue (holds_object m) a, null, h, live)
    end.
Proof.
  intros A.
  destruct (member_at_position m key) as (P1 & P2 & P3).
  assert (J : JSONCPP_ASSERT b (ValueType_eqb objectValue nullValue
                                || ValueType_eqb objectValue objectValue) = Ok tt).
  { unfold JSONCPP_ASSERT, c_assert. destruct b as [[] []]; reflexivity. }
  unfold Value_removeMember. cbn [type_ value_]. rewrite J. cbn [bind].
  change (ValueType_eqb objectValue nullValue) with false. cbv iota.
  cbn [Value_map value_ bind]. rewrite (find_view_position m key A). cbn [bind].
  unfold ObjectValues.end_, ObjectValues.deref.
  destruct (Nat.eqb (name_position m key) (List.length m)) eqn:E; cbn [negb].
  - apply Nat.eqb_eq in E. rewrite E.
    rewrite (proj2 (nth_error_None m (List.length m)) (Nat.le_refl _)).
    change (Value_copy null h) with (null, h). cbv iota.
    rewrite malloced_nil, app_nil_r. reflexivity.
  - destruct (nth_error m (name_position m key)) as [[k second]|] eqn:Nth.
    + destruct (Value_copy second h) as [old h'] eqn:C. cbn [fst snd].
      destruct (Value_destroy second (live ++ malloced h h')) as [live1|e];
        cbn [bind]; [|reflexivity].
      destruct (CZString_destroy k live1) as [live2|e]; cbn [bind]; [|reflexivity].
      reflexivity.
    + apply nth_error_None in Nth. apply Nat.eqb_neq in E. lia.
Qed.

(** X12: [removeMember(key)] on an Object whose names ascend.  When what
    the entry of that name owns is live on the heap, no block twice:
    the node returned has the tag and payload of a copy of the member,
    or is Null when there is no such member; afterwards the names
    still ascend, [isMember(key)] is false, every other member is as
    it was, the number of members is one less exactly when the name
    was there, and the heap has gained the blocks of the copy and lost
    those of the entry.  When the entry owns a block that is not live,
    text that [malloc] did not hand out for one, its destructor is
    undefined.  On a Null node the call returns Null and changes
    nothing. *)
Theorem Value_removeMember_removes (b : Build) (m : list (CZString * Value))
    (a : bool) (key : string) (h : allocator) (live : heap) :
  names_ascend m ->
  let old := match member m key with Some v => v | None => null end in
  (NoDup (member_owned m key) -> incl (member_owned m key) live ->
   exists m' r live',
     Value_removeMember b (mkValue (holds_object m) a) key h live
     = Ok (mkValue (holds_object m') a, r, snd (Value_copy old h), live')
     /\ value_ r = value_ (fst (Value_copy old h))
     /\ names_ascend m'
     /\ Value_isMember_view b (mkValue (holds_object m') a) key = Ok false
     /\ (forall other, other <> key -> member m' other = member m other)
     /\ List.length m'
        = match member m key with
          | Some _ => pred (List.length m)
          | None => List.length m
          end
     /\ (forall q, In q live'
                   <-> (In q live \/ (h <= q < snd (Value_copy old h))%N)
                       /\ ~ In q (member_owned m key))
     /\ (member m key = None -> m' = m /\ live' = live))
  /\ (forall p, In p (member_owned m key) -> ~ In p live -> (p < h)%N ->
      Value_removeMember b (mkValue (holds_object m) a) key h live
      = Failed UndefinedBehaviour)
  /\ Value_removeMember b (mkValue holds_null a) key h live
     = Ok (mkValue holds_null a, null, h, live).
Proof.
  intros A old. split; [|split].
  - intros D I.
    destruct (erase_at_names m key A) as (I1 & I2 & I3 & I4 & I5).
    destruct (member_at_position m key) as (P1 & P2 & P3).
    assert (F : forall m1, names_ascend m1 -> member m1 key = None ->
                  Value_isMember_view b (mkValue (holds_object m1) a) key = Ok false).
    { intros m1 A1 M1. unfold Value_isMember_view.
      rewrite (proj1 (Value_read_view_member b m1 a key A1)). cbn [bind].
      destruct (member_at_position m1 key) as (_ & _ & Q3).
      rewrite (proj2 Q3 M1). reflexivity. }
    rewrite (Value_removeMember_object b m a key h live A).
    rewrite member_owned_at_position in D, I |- *.
    subst old. rewrite <- P1.
    destruct (nth_error m (name_position m key)) as [[k second]|] eqn:Nth;
      cbn [option_map snd].
    + pose proof (entry_destroy_releases k second
                    (live ++ malloced h (snd (Value_copy second h)))) as R.
      destruct (live1 <- Value_destroy second
                           (live ++ malloced h (snd (Value_copy second h))) ;;
                CZString_destroy k live1) as [live2|e]; cbn [bind releases] in *.
      * destruct R as (_ & _ & C).
        exists (ObjectValues.erase_at m (name_position m key)),
          (mkValue (value_ (fst (Value_copy second h))) false), live2.
        split; [reflexivity|]. split; [reflexivity|]. split; [exact I1|].
        split; [apply F; assumption|]. split; [exact I3|].
        split; [rewrite I4, <- P1; reflexivity|].
        split; [|discriminate].
        intros q. rewrite (C q), in_app_iff, In_malloced. tauto.
      * destruct R as [_ R]. contradiction R. split; [exact D|].
        intros q Q. apply in_app_iff. left. apply I, Q.
    + cbn [option_map] in P1. symmetry in P1.
      exists m, null, live. change (Value_copy null h) with (null, h). cbn [fst snd].
      split; [reflexivity|]. split; [reflexivity|]. split; [exact A|].
      split; [apply F; assumption|]. split; [reflexivity|].
      split; [reflexivity|].
      split; [|intros _; split; reflexivity].
      intros q. split; [intros Q; split; [left; exact Q|intros []]|].
      intros [[Q|Q] _]; [exact Q|lia].
  - intros p P N L.
    rewrite (Value_removeMember_object b m a key h live A).
    rewrite member_owned_at_position in P.
    destruct (nth_error m (name_position m key)) as [[k second]|] eqn:Nth;
      [|contradiction P].
    pose proof (entry_destroy_releases k second
                  (live ++ malloced h (snd (Value_copy second h)))) as R.
    rewrite (releases_not_live _ _ _ p R P); [reflexivity|].
    intros Q. apply in_app_iff in Q as [Q|Q]; [exact (N Q)|].
    apply In_malloced in Q. lia.
  - unfold Value_removeMember, JSONCPP_ASSERT, c_assert.
    change (Value_copy null h) with (null, h). cbn [type_ value_].
    change (ValueType_eqb nullValue nullValue) with true. cbv iota.
    rewrite malloced_nil, app_nil_r.
    destruct b as [[] []]; reflexivity.
Qed.

(** [removeMember] of [a] from an Object of two members whose keys and
    first node own their text: the text of the key and that of the
    node are released, and the copy returned is at the fresh address.
    From the Object whose member [a] claims text that [malloc] did not
    hand out, the call is undefined. *)
Lemma Value_removeMember_removes_witness :
  let ka := {| cstr_ := Some (mkCstr 1 "a"); index_ := duplicate |} in
  let kb := {| cstr_ := Some (mkCstr 2 "b"); index_ := duplicate |} in
  let text := mkValue (holds_string (Some (mkCstr 3 "x"))) true in
  let m := [(ka, text); (kb, Value_of_Int 2)] in
  names_ascend m
  /\ (exists r,
        Value_removeMember checked (mkValue (holds_object m) false) "a" 9%N
          [1; 2; 3]%N
        = Ok (mkValue (holds_object [(kb, Value_of_Int 2)]) false, r, 10%N, [2; 9]%N)
        /\ value_ r = holds_string (Some (mkCstr 9 "x")))
  /\ Value_removeMember checked (mkValue (holds_object m) false) "a" 9%N [1; 2]%N
     = Failed UndefinedBehaviour.
Proof.
  intros ka kb text m.
  assert (A : names_ascend m).
  { repeat (econstructor; [reflexivity| |]); repeat constructor.
    eexists; split; reflexivity. }
  split; [exact A|]. split.
  - assert (D : NoDup (member_owned m "a")).
    { cbn. constructor; [intros [E|[]]; discriminate E|].
      constructor; [intros []|constructor]. }
    assert (I : incl (member_owned m "a") [1; 2; 3]%N).
    { intros q [<-|[<-|[]]]; cbn; auto. }
    destruct (proj1 (Value_removeMember_removes checked m false "a" 9%N [1; 2; 3]%N A)
                D I) as (m' & r & live' & E & V & _).
    exists r. split; [|exact V].
    rewrite E. vm_compute in E. injection E as <- <- <-. reflexivity.
  - apply (proj1 (proj2 (Value_removeMember_removes checked m false "a" 9%N
                           [1; 2]%N A)) 3%N).
    + right; left; reflexivity.
    + intros [E|[E|[]]]; discriminate E.
    + reflexivity.
Defined.

(* ------------------------------------------------------------------ *)
(** ** Members by name: the empty name, a missing member, a node of
    another type *)

(** X13: [operator[]] with the empty text, on a Null node or on an Object
    without members: [duplicateStringValue] returns [nullptr] for the
    length 0, so the entry made has a key without characters, the key
    of an Index.  From then on every access by name is undefined:
    the comparator takes [strlen] of that null pointer.  On an Object
    of one member, whatever its name as long as it is not empty, the
    empty text is found equivalent to that member's key: the reference
    returned is that member and nothing is added. *)
Theorem Value_subscript_view_empty_name (b : Build) (a : bool) (h : allocator) :
  let stored :=
    mkValue (holds_object [({| cstr_ := None; index_ := duplicate |}, null)]) a in
  Value_subscript_view b (mkValue holds_null a) (Some EmptyString) h
  = Ok (stored, 0%nat, h)
  /\ Value_subscript_view b (mkValue (holds_object []) a) (Some EmptyString) h
     = Ok (stored, 0%nat, h)
  /\ Value_size stored = 1
  /\ (forall key, Value_tryGet_view b stored key = Failed UndefinedBehaviour)
  /\ (forall key, Value_isMember_view b stored key = Failed UndefinedBehaviour)
  /\ (forall key h', Value_subscript_view b stored key h' = Failed UndefinedBehaviour)
  /\ (forall key h' live,
        Value_removeMember b stored key h' live = Failed UndefinedBehaviour)
  /\ (forall k v name,
        key_name k = Some name -> name <> EmptyString ->
        Value_subscript_view b (mkValue (holds_object [(k, v)]) a) (Some EmptyString) h
        = Ok (mkValue (holds_object [(k, v)]) a, 0%nat, h)).
Proof.
  intros stored. subst stored.
  assert (E : Value_subscript_view b (mkValue (holds_object []) a) (Some EmptyString) h
              = Ok (mkValue (holds_object
                      [({| cstr_ := None; index_ := duplicate |}, null)]) a,
                    0%nat, h)).
  { unfold Value_subscript_view, Value_tryGet_view, JSONCPP_ASSERT, c_assert.
    destruct b as [[] []]; reflexivity. }
  split; [rewrite Value_subscript_view_null; exact E|]. split; [exact E|].
  split; [reflexivity|].
  split.
  { intros key. unfold Value_tryGet_view, JSONCPP_ASSERT, c_assert.
    destruct b as [[] []]; reflexivity. }
  split.
  { intros key. unfold Value_isMember_view, Value_tryGet_view, JSONCPP_ASSERT, c_assert.
    destruct b as [[] []]; reflexivity. }
  split.
  { intros key h'. unfold Value_subscript_view, Value_tryGet_view, JSONCPP_ASSERT,
      c_assert. destruct b as [[] []]; reflexivity. }
  split.
  { intros key h' live. unfold Value_removeMember, JSONCPP_ASSERT, c_assert.
    destruct b as [[] []]; reflexivity. }
  intros k v name K NE.
  destruct (key_view_name k name EmptyString K) as [KV VK].
  assert (C : compare_chars name EmptyString = Gt)
    by (destruct name; [contradiction NE; reflexivity|reflexivity]).
  assert (J : JSONCPP_ASSERT b (ValueType_eqb objectValue nullValue
                                || ValueType_eqb objectValue objectValue) = Ok tt).
  { unfold JSONCPP_ASSERT, c_assert. destruct b as [[] []]; reflexivity. }
  unfold Value_subscript_view. cbn [type_ value_]. rewrite J. cbn [bind].
  change (ValueType_eqb objectValue nullValue) with false. cbv iota.
  unfold Value_tryGet_view. cbn [type_ value_]. rewrite J. cbn [bind].
  change (ValueType_eqb objectValue nullValue) with false. cbv iota.
  cbn [Value_map value_ bind view_chars].
  unfold ObjectValues.find_view, ObjectValues.find.
  cbn [ObjectValues.lower_bound]. rewrite KV, C.
  cbn [is_Lt bind ObjectValues.deref nth_error]. rewrite VK.
  rewrite compare_chars_antisym, C.
  cbn [CompOpp is_Lt bind ObjectValues.end_ List.length Nat.eqb negb].
  unfold key_name in K. destruct k as [[c|] p]; [|discriminate K].
  reflexivity.
Qed.

(** X14: [get(key)] on an Object whose names ascend returns the reference
    that [tryGet(key)] returns when the member is there.  When it is
    not, the assertion fails in the checked build, and the unchecked
    build dereferences a null pointer. *)
Theorem Value_get_view_needs_the_member (m : list (CZString * Value))
    (a : bool) (key : string) :
  names_ascend m ->
  let this := mkValue (holds_object m) a in
  (member m key <> None ->
   forall b, exists it,
     Value_tryGet_view b this key = Ok (Some it)
     /\ Value_get_view b this key = Ok it
     /\ Value_at this it = member m key)
  /\ (member m key = None ->
      Value_get_view checked this key = Failed AssertionFailed
      /\ Value_get_view unchecked this key = Failed UndefinedBehaviour).
Proof.
  intros A this. subst this.
  destruct (member_at_position m key) as (P1 & P2 & P3). split.
  - intros M b. destruct (Value_read_view_member b m a key A) as [T _].
    unfold Value_get_view. rewrite T.
    destruct (Nat.eqb (name_position m key) (List.length m)) eqn:E.
    + contradiction M. apply P3. reflexivity.
    + exists (name_position m key). split; [reflexivity|]. split.
      * cbn [bind]. unfold Value_get_tail, JSONCPP_ASSERT, c_assert.
        destruct b as [[] []]; reflexivity.
      * unfold Value_at, ObjectValues.deref. cbn [value_]. exact P1.
  - intros M. unfold Value_get_view.
    rewrite (proj1 (Value_read_view_member checked m a key A)).
    rewrite (proj1 (Value_read_view_member unchecked m a key A)).
    rewrite (proj2 P3 M). split; reflexivity.
Qed.

(** [get] of the member [b] of the Object of members [a] and [b]. *)
Lemma Value_get_view_needs_the_member_witness :
  let m := [({| cstr_ := Some (mkCstr 1 "a"); index_ := duplicate |}, Value_of_Int 1);
            ({| cstr_ := Some (mkCstr 2 "b"); index_ := duplicate |}, Value_of_Int 2)] in
  names_ascend m
  /\ member m "b" <> None
  /\ exists it,
       Value_tryGet_view checked (mkValue (holds_object m) false) "b" = Ok (Some it)
       /\ Value_get_view checked (mkValue (holds_object m) false) "b" = Ok it
       /\ Value_at (mkValue (holds_object m) false) it = member m "b".
Proof.
  intros m.
  assert (A : names_ascend m).
  { repeat (econstructor; [reflexivity| |]); repeat constructor.
    eexists; split; reflexivity. }
  assert (M : member m "b" <> None) by discriminate.
  split; [exact A|]. split; [exact M|].
  exact (proj1 (Value_get_view_needs_the_member m false "b" A) M checked).
Defined.

(** X15: Every access by name asserts that the node is Null or an Object:
    on a node of another type, an Array among them, [tryGet],
    [isMember], [get], [operator[]] and [removeMember] fail that
    assertion in the checked build; [isMember] does not answer false.
    On a Null node [tryGet] and [isMember] find nothing in either
    build, and [get] fails its own assertion in the checked one. *)
Theorem Value_by_name_asserts_the_type (this : Value) (key : string)
    (h : allocator) :
  (type_ this <> nullValue -> type_ this <> objectValue ->
   Value_tryGet_view checked this key = Failed AssertionFailed
   /\ Value_isMember_view checked this key = Failed AssertionFailed
   /\ Value_get_view checked this key = Failed AssertionFailed
   /\ Value_subscript_view checked this (Some key) h = Failed AssertionFailed
   /\ (forall live, Value_removeMember checked this key h live = Failed AssertionFailed)
   /\ Value_items checked this = Failed AssertionFailed)
  /\ (type_ this = nullValue ->
      (forall b,
         Value_tryGet_view b this key = Ok None
         /\ Value_isMember_view b this key = Ok false)
      /\ Value_get_view checked this key = Failed AssertionFailed
      /\ Value_items checked this = Failed AssertionFailed).
Proof.
  split.
  - intros N O. destruct this as [[ |i|u|r|s|x|m|m] a]; cbn [type_ value_] in *;
      try contradiction; repeat split.
  - intros N. destruct this as [[ |i|u|r|s|x|m|m] a]; cbn [type_ value_] in *;
      try discriminate.
    split; [|split; reflexivity].
    intros b. unfold Value_isMember_view, Value_tryGet_view, JSONCPP_ASSERT, c_assert.
    destruct b as [[] []]; split; reflexivity.
Qed.

(* ------------------------------------------------------------------ *)
(** ** Members by name: assignment *)

Lemma assign_at_Forall_keys (Q : CZString -> Prop)
    (m : list (CZString * Value)) (it : nat) (v : Value) :
  Forall (fun e => Q (fst e)) m ->
  Forall (fun e => Q (fst e)) (ObjectValues.assign_at m it v).
Proof.
  intros F. revert it. induction F as [|[k v0] m H F IH]; intros [|it];
    cbn [ObjectValues.assign_at]; try constructor; auto.
Qed.

(** Writing through the reference to the member of a name, in an
    ascending store: the member is the node written, the keys and the
    other members are as they were. *)
Lemma assign_at_names (m : list (CZString * Value)) (x : string) (v : Value) :
  names_ascend m -> member m x <> None ->
  let m' := ObjectValues.assign_at m (name_position m x) v in
  names_ascend m'
  /\ member m' x = Some v
  /\ (forall y, y <> x -> member m' y = member m y)
  /\ List.length m' = List.length m.
Proof.
  intros A. induction A as [|k v0 n m K F A IH]; cbn zeta in *; intros M.
  - contradiction M. reflexivity.
  - cbn [name_position member] in *. destruct (key_named k x) eqn:N.
    + cbn [ObjectValues.assign_at member List.length]. rewrite N.
      split; [econstructor; eassumption|]. split; [reflexivity|].
      split; [|reflexivity].
      intros y Y. destruct (key_named k y) eqn:Ny; [|reflexivity].
      apply key_named_true in N, Ny. congruence.
    + destruct (IH M) as (I1 & I2 & I3 & I4).
      cbn [ObjectValues.assign_at member List.length]. rewrite N.
      split; [econstructor; [exact K| |exact I1]|].
      { apply (assign_at_Forall_keys
                 (fun k' => exists name', key_name k' = Some name'
                                          /\ compare_chars n name' = Lt)).
        exact F. }
      split; [exact I2|]. split; [|rewrite I4; reflexivity].
      intros y Y. rewrite (I3 y Y). reflexivity.
Qed.

(** The flag of a copy: set exactly for a String that has text. *)
Lemma Value_copy_allocated (other : Value) (h : allocator) :
  allocated_ (fst (Value_copy other h))
  = match value_ other with
    | holds_string (Some _) => true
    | _ => false
    end.
Proof.
  destruct other as [[ |i|u|r|[c|]|x|m|m] a]; cbn [Value_copy value_]; try reflexivity;
    destruct (ObjectValues.copy Value_copy m h); reflexivity.
Qed.

(** [operator=(const Value&)] with the heap: the node is the one that
    copy and swap leave, and the temporary releases what
    [assign_released] says. *)
Lemma Value_assign_releases (this other : Value) (h : allocator) (live : heap) :
  exists r,
    releases (assign_released this other)
             (live ++ malloced h (snd (Value_copy other h))) r
    /\ Value_assign this other h live
       = (live' <- r ;;
          Ok (fst (Value_copy_assign this other h), snd (Value_copy other h), live')).
Proof.
  unfold Value_assign, Value_copy_assign, assign_released.
  rewrite <- (Value_copy_allocated other h).
  destruct (Value_copy other h) as [temp h']. cbn [Value_swap fst snd].
  eexists. split; [apply Value_destroy_releases|reflexivity].
Qed.

(** [operator[]] by name does not move the allocator backwards. *)
Lemma Value_subscript_view_allocator (b : Build) (this this' : Value)
    (key : string_view) (it : ObjectValues.iterator) (h h' : allocator) :
  Value_subscript_view b this key h = Ok (this', it, h') -> (h <= h')%N.
Proof.
  unfold Value_subscript_view.
  destruct (JSONCPP_ASSERT b _); cbn [bind]; [|discriminate].
  destruct (Value_tryGet_view b _ _) as [[i|]|]; cbn [bind]; try discriminate.
  - intros E. injection E as _ _ <-. lia.
  - destruct (Value_map _); cbn [bind]; [|discriminate].
    unfold CZString_view, duplicateStringValue_length.
    destruct key as [s|]; cbn [bind].
    + destruct (_ =? unknown).
      * destruct (has_nul s); cbn [bind]; [|discriminate].
        destruct (ObjectValues.emplace _ _ _). intros E. injection E as _ _ <-. lia.
      * destruct (_ =? 0); cbn [bind];
          destruct (ObjectValues.emplace _ _ _); intros E; injection E as _ _ <-; lia.
    + destruct (ObjectValues.emplace _ _ _). intros E. injection E as _ _ <-. lia.
Qed.

(** X16: [this[key] = value] on a Null node or on an Object whose names
    ascend, for a name that is not empty, holds no NUL and has fewer
    than 2^32 - 1 characters.  The temporary of the assignment takes
    over the payload that the member of that name had and releases it
    under the flag of the copy of [value].  When the blocks it has to
    release are live, no block twice: afterwards the node is an Object
    whose names ascend, [tryGet(key)] leads to a node with the tag and
    payload of a copy of [value], every other member is as it was, and
    the heap has gained the blocks of the key and of the copy and lost
    those released.  When one of them is not live the assignment is
    undefined: so it is when the member borrows static text and
    [value] is a String that has text. *)
Theorem Value_set_view_then_read (b : Build) (this : Value) (key : string)
    (value : Value) (h : allocator) (live : heap) :
  type_ this = nullValue \/ type_ this = objectValue ->
  names_ascend (entries this) -> storage_free h (entries this) ->
  key <> EmptyString -> has_nul key = false ->
  Z.of_nat (String.length key) < maxUInt ->
  let old := match member (entries this) key with Some v => v | None => null end in
  (NoDup (assign_released old value) -> incl (assign_released old value) live ->
   exists this' h' live' element h1,
     Value_set_view b this key value h live = Ok (this', h', live')
     /\ type_ this' = objectValue
     /\ names_ascend (entries this')
     /\ Value_read_view b this' key = Ok (Some element)
     /\ value_ element = value_ (fst (Value_copy value h1))
     /\ h' = snd (Value_copy value h1)
     /\ (forall other, other <> key ->
         member (entries this') other = member (entries this) other)
     /\ (forall q, In q live'
                   <-> (In q live \/ (h <= q < h')%N)
                       /\ ~ In q (assign_released old value)))
  /\ (forall p, In p (assign_released old value) -> ~ In p live -> (p < h)%N ->
      Value_set_view b this key value h live = Failed UndefinedBehaviour)
  /\ (forall c s a,
        member (entries this) key = Some (mkValue (holds_string (Some c)) a) ->
        value_ value = holds_string (Some s) ->
        ~ In (addr c) live -> (addr c < h)%N ->
        Value_set_view b this key value h live = Failed UndefinedBehaviour).
Proof.
  intros T A SF NE NN L old.
  assert (G : forall m a,
            names_ascend m -> storage_free h m ->
            let old := match member m key with Some v => v | None => null end in
            exists m1 h1 r element,
              releases (assign_released old value)
                       ((live ++ malloced h h1)
                        ++ malloced h1 (snd (Value_copy value h1))) r
              /\ (h <= h1 <= snd (Value_copy value h1))%N
              /\ Value_set_view b (mkValue (holds_object m) a) key value h live
                 = (live' <- r ;;
                    Ok (mkValue (holds_object m1) a, snd (Value_copy value h1), live'))
              /\ names_ascend m1
              /\ Value_read_view b (mkValue (holds_object m1) a) key = Ok (Some element)
              /\ value_ element = value_ (fst (Value_copy value h1))
              /\ (forall other, other <> key -> member m1 other = member m other)).
  { clear this T A SF old. intros m a A SF old.
    destruct (Value_subscript_view_object b m a key h A SF NE NN L)
      as (m1 & it & h1 & E & I1 & I2 & I3 & I4 & _ & _).
    pose proof (Value_subscript_view_allocator _ _ _ _ _ _ _ E) as H1.
    destruct (Value_read_view_member b m1 a key I1) as [T1 _].
    destruct (member_at_position m1 key) as (P1 & _ & P3).
    rewrite T1 in I2.
    destruct (Nat.eqb (name_position m1 key) (List.length m1)) eqn:Q;
      [discriminate I2|].
    injection I2 as <-.
    assert (M1 : member m1 key <> None).
    { intros X. apply P3 in X. discriminate X. }
    destruct (Value_assign_releases old value h1 (live ++ malloced h h1))
      as (r & R & S).
    set (element := fst (Value_copy_assign old value h1)) in *.
    destruct (assign_at_names m1 key element I1 M1) as (J1 & J2 & J3 & J4).
    exists (ObjectValues.assign_at m1 (name_position m1 key) element), h1, r, element.
    split; [exact R|]. split.
    { split; [exact H1|]. apply (Value_copy_owned value h1). }
    split.
    { unfold Value_set_view. rewrite E. cbn [bind]. rewrite I3.
      fold old. rewrite S. destruct r as [live'|e]; reflexivity. }
    split; [exact J1|]. split.
    { rewrite (proj2 (Value_read_view_member b _ a key J1)), J2. reflexivity. }
    split.
    { subst element. unfold Value_copy_assign.
      destruct (Value_copy value h1); reflexivity. }
    intros other O. rewrite (J3 other O). apply I4, O. }
  assert (G' : exists m a,
            names_ascend m /\ storage_free h m /\ entries this = m
            /\ Value_set_view b this key value h live
               = Value_set_view b (mkValue (holds_object m) a) key value h live).
  { destruct this as [[ |i|u|r|s|x|m|m] a]; cbn [type_ value_] in T;
      try (destruct T as [T|T]; discriminate T); unfold entries in *; cbn [value_] in *.
    - exists [], a. split; [exact A|]. split; [exact SF|]. split; [reflexivity|].
      unfold Value_set_view. rewrite Value_subscript_view_null. reflexivity.
    - exists m, a. repeat split; assumption. }
  destruct G' as (m & a & Am & SFm & Em & ->).
  subst old. rewrite Em in *. clear Em.
  destruct (G m a Am SFm) as (m1 & h1 & r & element & R & H & S & I1 & I2 & I3 & I4).
  cbv zeta in R.
  set (old := match member m key with Some v => v | None => null end) in *.
  assert (U : forall p, In p (assign_released old value) -> ~ In p live -> (p < h)%N ->
                Value_set_view b (mkValue (holds_object m) a) key value h live
                = Failed UndefinedBehaviour).
  { intros p P N Lp. rewrite S.
    rewrite (releases_not_live _ _ _ p R P); [reflexivity|].
    intros Q. apply in_app_iff in Q as [Q|Q];
      [apply in_app_iff in Q as [Q|Q]; [exact (N Q)|]|];
      apply In_malloced in Q; lia. }
  split; [|split; [exact U|]].
  - intros D I. rewrite S.
    destruct r as [live'|e]; cbn [releases bind] in *.
    + destruct R as (_ & _ & C).
      exists (mkValue (holds_object m1) a), (snd (Value_copy value h1)), live',
        element, h1.
      split; [reflexivity|]. split; [reflexivity|]. split; [exact I1|].
      split; [exact I2|]. split; [exact I3|]. split; [reflexivity|].
      split; [exact I4|].
      intros q. rewrite (C q), !in_app_iff, !In_malloced.
      split; intros [Q1 Q2]; (split; [|exact Q2]).
      * destruct Q1 as [[Q1|Q1]|Q1]; [left; exact Q1|right; lia|right; lia].
      * destruct Q1 as [Q1|Q1]; [left; left; exact Q1|].
        destruct (N.lt_ge_cases q h1); [left; right; lia|right; lia].
    + destruct R as [_ R]. contradiction R. split; [exact D|].
      intros q Q. apply in_app_iff. left. apply in_app_iff. left. apply I, Q.
  - intros c s0 a0 M V N Lc. apply (U (addr c)); [|exact N|exact Lc].
    subst old. rewrite M. unfold assign_released. rewrite V. cbn. left; reflexivity.
Qed.

(** [this["b"] = 7] on the Object of the one member [a], whose key owns
    its text: the key of the new member is the block at the address 5.
    [this["a"] = "y"] on the Object whose member [a] borrows static
    text: the temporary of the assignment frees that text, which is
    undefined. *)
Lemma Value_set_view_then_read_witness :
  let ka := {| cstr_ := Some (mkCstr 1 "a"); index_ := duplicate |} in
  let this := mkValue (holds_object [(ka, Value_of_Int 1)]) false in
  let borrows :=
    mkValue (holds_object [(ka, Value_of_StaticString (mkCstr 2 "x"))]) false in
  (exists this' element,
     Value_set_view checked this "b" (Value_of_Int 7) 5%N [1%N]
     = Ok (this', 6%N, [1; 5]%N)
     /\ Value_read_view checked this' "b" = Ok (Some element)
     /\ value_ element = holds_int 7)
  /\ Value_set_view checked borrows "a" (Value_of_StaticString (mkCstr 3 "y")) 5%N [1%N]
     = Failed UndefinedBehaviour.
Proof.
  intros ka this borrows.
  assert (A : forall v, names_ascend [(ka, v)]).
  { intros v. econstructor; [reflexivity|constructor|constructor]. }
  assert (SF : forall v, storage_free 5 [(ka, v)]).
  { intros v. repeat constructor. cbn. discriminate. }
  assert (L : Z.of_nat 1 < maxUInt) by (vm_compute; reflexivity).
  split.
  - destruct (proj1 (Value_set_view_then_read checked this "b" (Value_of_Int 7) 5%N
                       [1%N] (or_intror eq_refl) (A _) (SF _)
                       ltac:(discriminate) eq_refl L)
                (NoDup_nil N) (incl_nil_l _))
      as (this' & h' & live' & element & h1 & E & _ & _ & R & V & _).
    exists this', element.
    split; [|split; [exact R|]].
    + rewrite E. vm_compute in E. injection E as <- <- <-. reflexivity.
    + rewrite V. reflexivity.
  - apply (proj2 (proj2 (Value_set_view_then_read checked borrows "a"
                           (Value_of_StaticString (mkCstr 3 "y")) 5%N [1%N]
                           (or_intror eq_refl) (A _) (SF _)
                           ltac:(discriminate) eq_refl L))
             (mkCstr 2 "x") (mkCstr 3 "y") false eq_refl eq_refl).
    + intros [E|[]]. discriminate E.
    + reflexivity.
Defined.

(* ------------------------------------------------------------------ *)
(** ** Elements by index; [clear] and [empty] *)

(** X17: [operator[](index)] on a Null node or on an Array without entries
    makes the one entry of that index, Null, and [size()] is then
    [index + 1] in [ArrayIndex] arithmetic.  On an Array of one entry,
    whatever the index of that entry and whatever the index asked for,
    [tryGet] and [get] find that entry and [operator[]] returns it:
    nothing is added, so an Array built through [operator[]] never
    holds a second entry.  [get] on an Array without entries fails its
    assertion in the checked build. *)
Theorem Value_subscript_index_one_entry (b : Build) (a : bool) (index : Z) :
  let made := mkValue (holds_array [(CZString_index index, null)]) a in
  Value_subscript_index b (mkValue holds_null a) index = Ok (made, 0%nat)
  /\ Value_subscript_index b (mkValue (holds_array []) a) index = Ok (made, 0%nat)
  /\ Value_size made = to_uint32 (index + 1)
  /\ Value_get_index checked (mkValue (holds_array []) a) index
     = Failed AssertionFailed
  /\ (forall k x other,
        is_index_key k = true ->
        let this := mkValue (holds_array [(k, x)]) a in
        Value_tryGet_index b this other = Ok (Some 0%nat)
        /\ Value_read_index b this other = Ok (Some x)
        /\ Value_get_index b this other = Ok 0%nat
        /\ Value_subscript_index b this other = Ok (this, 0%nat)).
Proof.
  intros made. subst made.
  split; [unfold Value_subscript_index, Value_tryGet_index, JSONCPP_ASSERT, c_assert;
          destruct b as [[] []]; reflexivity|].
  split; [unfold Value_subscript_index, Value_tryGet_index, JSONCPP_ASSERT, c_assert;
          destruct b as [[] []]; reflexivity|].
  split; [reflexivity|]. split; [reflexivity|].
  intros k x other K this. subst this.
  assert (J : JSONCPP_ASSERT b (ValueType_eqb arrayValue nullValue
                                || ValueType_eqb arrayValue arrayValue) = Ok tt).
  { unfold JSONCPP_ASSERT, c_assert. destruct b as [[] []]; reflexivity. }
  assert (T : Value_tryGet_index b (mkValue (holds_array [(k, x)]) a) other
              = Ok (Some 0%nat)).
  { unfold Value_tryGet_index. cbn [type_ value_]. rewrite J. cbn [bind].
    change (ValueType_eqb arrayValue nullValue) with false. cbv iota.
    cbn [Value_map value_ bind]. rewrite (find_index_finds_first k x [] other K).
    reflexivity. }
  split; [exact T|]. split; [|split].
  - unfold Value_read_index. rewrite T. reflexivity.
  - unfold Value_get_index, Value_get_tail, JSONCPP_ASSERT, c_assert. rewrite T.
    destruct b as [[] []]; reflexivity.
  - unfold Value_subscript_index. cbn [type_ value_]. rewrite J. cbn [bind].
    change (ValueType_eqb arrayValue nullValue) with false. cbv iota.
    rewrite T. reflexivity.
Qed.


(* ------------------------------------------------------------------ *)
(** ** Iterators *)

(** The loop of [computeDistance] counts the steps forwards to
    [other]... *)
Lemma computeDistance_loop_forward (n : nat) :
  forall (rounds it : nat) (d : Z),
    (n <= rounds)%nat -> d + Z.of_nat n <= maxInt ->
    ValueIteratorBase.computeDistance_loop rounds it (it + n)%nat d
    = Ok (d + Z.of_nat n).
Proof.
  induction n as [|n IH]; intros rounds it d R B.
  - replace (it + 0)%nat with it by lia.
    destruct rounds; cbn [ValueIteratorBase.computeDistance_loop];
      rewrite Nat.eqb_refl; f_equal; lia.
  - destruct rounds as [|rounds]; [lia|].
    cbn [ValueIteratorBase.computeDistance_loop].
    destruct (Nat.eqb_spec it (it + S n)) as [E|_]; [lia|].
    destruct (Z.leb_spec (d + 1) maxInt) as [_|G]; [|lia].
    replace (it + S n)%nat with (S it + n)%nat by lia.
    rewrite IH by lia. f_equal. lia.
Qed.

(** ... and runs off the end of the store when [other] is behind. *)
Lemma computeDistance_loop_backward (rounds : nat) :
  forall (it other : nat) (d : Z),
    (other < it)%nat ->
    ValueIteratorBase.computeDistance_loop rounds it other d
    = Failed UndefinedBehaviour.
Proof.
  induction rounds as [|rounds IH]; intros it other d L;
    cbn [ValueIteratorBase.computeDistance_loop];
    destruct (Nat.eqb_spec it other) as [E|_]; try lia; [reflexivity|].
  destruct (d + 1 <=? maxInt); [|reflexivity].
  apply IH. lia.
Qed.

(** Forwards, between two positions of one store. *)
Lemma computeDistance_forward (m : list (CZString * Value)) (i j : nat) :
  (i <= j <= List.length m)%nat -> Z.of_nat (j - i) <= maxInt ->
  ValueIteratorBase.computeDistance m (ValueIteratorBase.of_iterator i)
    (ValueIteratorBase.of_iterator j) = Ok (Z.of_nat (j - i)).
Proof.
  unfold ValueIteratorBase.computeDistance, ValueIteratorBase.of_iterator.
  cbn [ValueIteratorBase.isNull_ ValueIteratorBase.current_ andb].
  intros R B. replace j with (i + (j - i))%nat at 1 by lia.
  rewrite computeDistance_loop_forward; [reflexivity| |lia].
  unfold ObjectValues.end_. lia.
Qed.

(** X19: [other - this] on two iterators of one store, at the positions [i]
    and [j]: the number of entries from [i] to [j] when [j] is not
    before [i], and undefined when it is, so [begin() - end()] is
    undefined on a store that is not empty. *)
Theorem ValueIteratorBase_computeDistance_forwards_only
    (m : list (CZString * Value)) (i j : nat) :
  ((i <= j <= List.length m)%nat -> Z.of_nat (j - i) <= maxInt ->
   ValueIteratorBase.computeDistance m (ValueIteratorBase.of_iterator i)
     (ValueIteratorBase.of_iterator j) = Ok (Z.of_nat (j - i)))
  /\ ((j < i)%nat ->
      ValueIteratorBase.computeDistance m (ValueIteratorBase.of_iterator i)
        (ValueIteratorBase.of_iterator j) = Failed UndefinedBehaviour).
Proof.
  split; [apply computeDistance_forward|].
  unfold ValueIteratorBase.computeDistance, ValueIteratorBase.of_iterator.
  cbn [ValueIteratorBase.isNull_ ValueIteratorBase.current_ andb].
  intros L. apply computeDistance_loop_backward. exact L.
Qed.

(** X20: From [begin()] to [end()] of any node with at most [maxInt]
    entries the distance is the number of entries, 0 for a node without
    a store.  That is [size()] for every node but an Array: the
    [size()] of an Array of one entry is the index of that entry plus
    one, in [ArrayIndex] arithmetic. *)
Theorem ValueIteratorBase_distance_begin_end (this : Value) :
  Z.of_nat (List.length (entries this)) <= maxInt ->
  ValueIteratorBase.computeDistance (entries this) (Value_begin this) (Value_end this)
  = Ok (Z.of_nat (List.length (entries this)))
  /\ (type_ this <> arrayValue ->
      Value_size this = Z.of_nat (List.length (entries this)))
  /\ (forall k x, value_ this = holds_array [(k, x)] ->
      Value_size this = to_uint32 (index_ k + 1)).
Proof.
  intros B.
  assert (G : forall m : list (CZString * Value),
            Z.of_nat (List.length m) <= maxInt ->
            ValueIteratorBase.computeDistance m (ValueIteratorBase.of_iterator 0%nat)
              (ValueIteratorBase.of_iterator (ObjectValues.end_ m))
            = Ok (Z.of_nat (List.length m))).
  { intros m Bm.
    pose proof (computeDistance_forward m 0%nat (List.length m)) as F.
    rewrite Nat.sub_0_r in F. apply F; [lia|exact Bm]. }
  destruct this as [[ |i|u|r|s|x|m|m] a]; unfold entries, Value_begin, Value_end in *;
    cbn [value_ type_] in *; (split; [try reflexivity|split]);
    try reflexivity; try (intros; discriminate); try (apply G; exact B).
  - intros N. contradiction N. reflexivity.
  - intros k x E. injection E as ->. reflexivity.
  - intros _. unfold Value_size. cbn [value_]. unfold ObjectValues.size, to_uint32.
    apply Z.mod_small. unfold maxInt in B. lia.
Qed.

(** The distance on the Object of members [a] and [b]. *)
Lemma ValueIteratorBase_distance_begin_end_witness :
  let this := mkValue (holds_object
                [({| cstr_ := Some (mkCstr 1 "a"); index_ := duplicate |}, Value_of_Int 1);
                 ({| cstr_ := Some (mkCstr 2 "b"); index_ := duplicate |}, Value_of_Int 2)])
                false in
  Z.of_nat (List.length (entries this)) <= maxInt
  /\ ValueIteratorBase.computeDistance (entries this) (Value_begin this) (Value_end this)
     = Ok 2
  /\ Value_size this = 2.
Proof.
  intros this.
  assert (B : Z.of_nat (List.length (entries this)) <= maxInt)
    by (vm_compute; discriminate).
  split; [exact B|].
  split; [exact (proj1 (ValueIteratorBase_distance_begin_end this B))|reflexivity].
Defined.

(** X21: The assignments between iterators.  [iterator = iterator], the
    copy assignment that [ValueIterator] declares, and
    [const_iterator = iterator], the operator that [ValueConstIterator]
    declares, both assign the position and leave [isNull_] as it was.
    So an iterator that was default-constructed and is then assigned an
    iterator of a store by one of them does not compare equal to the
    iterator it was assigned, and still compares equal to a
    default-constructed one; assigned to an iterator made from a
    store, the result is equal to it.  [const_iterator = const_iterator]
    is another assignment, the one the compiler supplies: it assigns
    [isNull_] too, and the result is the iterator assigned. *)
Theorem ValueIterator_assignment_keeps_isNull
    (this other : ValueIteratorBase.t) :
  ValueConstIterator_assign_base this other = ValueIterator_assign this other
  /\ ValueIteratorBase.current_ (ValueIterator_assign this other)
     = ValueIteratorBase.current_ other
  /\ ValueIteratorBase.isNull_ (ValueIterator_assign this other)
     = ValueIteratorBase.isNull_ this
  /\ (ValueIteratorBase.isNull_ this = true ->
      ValueIteratorBase.isNull_ other = false ->
      ValueIteratorBase.isEqual (ValueIterator_assign this other) other = Ok false
      /\ ValueIteratorBase.isEqual (ValueIterator_assign this other)
           ValueIteratorBase.default = Ok true)
  /\ (ValueIteratorBase.isNull_ this = false ->
      ValueIteratorBase.isEqual (ValueIterator_assign this other) other = Ok true)
  /\ ValueConstIterator_assign this other = other
  /\ ValueIteratorBase.isEqual (ValueConstIterator_assign this other) other = Ok true.
Proof.
  destruct this as [c n], other as [c' n'].
  unfold ValueConstIterator_assign_base, ValueIterator_assign,
    ValueConstIterator_assign, ValueIteratorBase.copy, ValueIteratorBase.isEqual,
    ValueIteratorBase.default.
  cbn [ValueIteratorBase.isNull_ ValueIteratorBase.current_].
  split; [reflexivity|]. split; [reflexivity|]. split; [reflexivity|].
  split; [|split; [|split]].
  - intros -> ->. split; reflexivity.
  - intros ->. destruct c' as [it|]; [rewrite Nat.eqb_refl|]; reflexivity.
  - reflexivity.
  - destruct n'; [reflexivity|].
    destruct c' as [it|]; [rewrite Nat.eqb_refl|]; reflexivity.
Qed.

(** X22: What an iterator reports of the entry it is on.  On an Index key:
    [key()] is the UInt node of the index, [index()] the index and
    [memberName()] the empty text.  On a Name key: [memberName()] is
    the name, [index()] is [UInt(-1)], 4294967295, and [key()] is a
    String node of the characters of the name, which borrows the key's
    storage when the key is static and owns fresh storage when it is
    not.  At [end()] all three are undefined. *)
Theorem ValueIteratorBase_reports_the_key (m : list (CZString * Value))
    (it : nat) (h : allocator) :
  let this := ValueIteratorBase.of_iterator it in
  (forall k v, nth_error m it = Some (k, v) ->
     match cstr_ k with
     | None =>
         ValueIteratorBase.key m this h = Ok (Value_of_UInt (index_ k), h)
         /\ ValueIteratorBase.index m this h = Ok (index_ k, h)
         /\ ValueIteratorBase.memberName m this = Ok EmptyString
     | Some c =>
         ValueIteratorBase.memberName m this = Ok (bytes c)
         /\ (exists h', ValueIteratorBase.index m this h = Ok (4294967295, h'))
         /\ exists node h',
              ValueIteratorBase.key m this h = Ok (node, h')
              /\ Value_asString checked node EmptyString = Ok (bytes c)
              /\ (if index_ k =? noDuplication
                  then value_ node = holds_string (Some c)
                       /\ allocated_ node = false /\ h' = h
                  else exists p, value_ node
                                 = holds_string (Some {| addr := p; bytes := bytes c |})
                                 /\ allocated_ node = true /\ (h <= p < h')%N)
     end)
  /\ (nth_error m it = None ->
      ValueIteratorBase.key m this h = Failed UndefinedBehaviour
      /\ ValueIteratorBase.index m this h = Failed UndefinedBehaviour
      /\ ValueIteratorBase.memberName m this = Failed UndefinedBehaviour).
Proof.
  intros this. subst this.
  unfold ValueIteratorBase.key, ValueIteratorBase.index, ValueIteratorBase.memberName,
    ValueIteratorBase.first, ValueIteratorBase.of_iterator, ObjectValues.deref.
  cbn [ValueIteratorBase.current_]. split.
  - intros k v ->. cbn [bind]. destruct k as [[c|] p]; cbn [cstr_ index_].
    + split; [reflexivity|]. unfold CZString_copy. cbn [cstr_ index_ is_null negb].
      destruct (Z.eqb_spec p noDuplication) as [->|N].
      * cbn. split; [eexists; reflexivity|].
        eexists; eexists. repeat split.
      * cbn. split; [eexists; reflexivity|].
        eexists; eexists. split; [reflexivity|]. split; [reflexivity|].
        exists (N.succ h). repeat split; lia.
    + repeat split.
  - intros ->. repeat split.
Qed.


(* ------------------------------------------------------------------ *)
(** ** Paths: compiling the text *)

(** [addPathInArg] leaves the iterator over the arguments where it
    was. *)
Lemma addPathInArg_iterator (in_ : list PathArgument.t) (itInArg : nat)
    (kind : PathArgument.Kind) (args_ : list PathArgument.t) :
  Path.addPathInArg in_ itInArg kind args_
  = (match nth_error in_ itInArg with
     | Some a =>
         if negb (PathArgument.Kind_eqb (PathArgument.kind_ a) kind)
         then args_ else args_ ++ [a]
     | None => args_
     end, itInArg).
Proof.
  unfold Path.addPathInArg. destruct (nth_error in_ itInArg) as [a|]; [|reflexivity].
  destruct (negb (PathArgument.Kind_eqb (PathArgument.kind_ a) kind)); reflexivity.
Qed.

(** The loop of [makePath] reads no argument but the one under the
    iterator it starts with. *)
Lemma makePath_loop_one_argument (fuel : nat) :
  forall (in1 in2 : list PathArgument.t) (itInArg : nat) (current : string)
         (args_ : list PathArgument.t),
    nth_error in1 itInArg = nth_error in2 itInArg ->
    Path.makePath_loop fuel in1 itInArg current args_
    = Path.makePath_loop fuel in2 itInArg current args_.
Proof.
  induction fuel as [|fuel IH]; intros in1 in2 itInArg current args_ E;
    [reflexivity|].
  cbn [Path.makePath_loop]. destruct current as [|c rest]; [reflexivity|].
  rewrite !addPathInArg_iterator, E.
  destruct (Ascii.eqb c "[").
  - destruct (Ascii.eqb (Path.peek rest) "%").
    + apply IH, E.
    + destruct (Path.scan_index rest 0). apply IH, E.
  - destruct (Ascii.eqb c "%"); [apply IH, E|].
    destruct (Ascii.eqb c "."); [apply IH, E|].
    destruct (Path.scan_name (String c rest)). apply IH, E.
Qed.

(** X23: Of the five arguments of [Path::Path] only the first is ever read:
    the iterator over them is never advanced, so every placeholder of
    the path takes the first argument, or nothing when its kind does
    not fit, and the path compiled does not depend on the other four. *)
Theorem Path_reads_its_first_argument_only (path : string)
    (a1 a2 a3 a4 a5 b2 b3 b4 b5 : PathArgument.t) :
  Path.Path path a1 a2 a3 a4 a5 = Path.Path path a1 b2 b3 b4 b5
  /\ (forall key1 key2 : string,
        Path.Path ".%.%" (PathArgument.of_key key1) (PathArgument.of_key key2)
          PathArgument.none PathArgument.none PathArgument.none
        = Some [PathArgument.of_key key1; PathArgument.of_key key1])
  /\ (forall (key1 : string) (index2 : Z),
        Path.Path ".%[%]" (PathArgument.of_key key1) (PathArgument.of_index index2)
          PathArgument.none PathArgument.none PathArgument.none
        = Some [PathArgument.of_key key1; PathArgument.of_key "]"]).
Proof.
  split; [|split; intros; reflexivity].
  unfold Path.Path, Path.makePath. apply makePath_loop_one_argument. reflexivity.
Qed.

(** The name loop on a plain name followed by a dot or by the end of
    the text: the name is taken whole. *)
Lemma scan_name_plain (name rest : string) :
  (fix plain (s : string) : Prop :=
     match s with
     | EmptyString => True
     | String x r => Path.strchr_bracket_dot x = false /\ plain r
     end) name ->
  Path.peek rest = "."%char \/ rest = EmptyString ->
  Path.scan_name (name ++ rest) = (name, rest).
Proof.
  intros P R. induction name as [|c name IH]; cbn [append].
  - destruct R as [R| ->]; [|reflexivity].
    destruct rest as [|x r]; [reflexivity|]. cbn in R. subst x. reflexivity.
  - destruct P as [C P]. cbn [Path.scan_name]. rewrite C, (IH P). reflexivity.
Qed.

(** The loop of [makePath] on the dotted path of plain names. *)
Lemma makePath_loop_dotted (names : list string) :
  forall (fuel : nat) (in_ : list PathArgument.t) (itInArg : nat)
         (args_ : list PathArgument.t),
    Forall plain_name names -> (2 * List.length names < fuel)%nat ->
    Path.makePath_loop fuel in_ itInArg (dotted names) args_
    = Some (args_ ++ map PathArgument.of_key names).
Proof.
  induction names as [|name names IH]; intros fuel in_ itInArg args_ F L.
  - destruct fuel; [cbn in L; lia|]. cbn. rewrite app_nil_r. reflexivity.
  - inversion F as [|n l P F']; subst.
    destruct fuel as [|[|fuel]]; cbn [List.length] in L; try lia.
    cbn [dotted]. remember (S fuel) as fuel1 eqn:Hf.
    cbn [Path.makePath_loop].
    change (Ascii.eqb "." "[") with false. change (Ascii.eqb "." "%") with false.
    change (Ascii.eqb "." ".") with true. cbv iota.
    destruct name as [|c name]; [contradiction P|]. destruct P as [Pc P].
    pose proof P as [C _]. unfold Path.strchr_bracket_dot in C.
    apply orb_false_iff in C as [C C3]. apply orb_false_iff in C as [C1 C2].
    subst fuel1. cbn [append]. cbn [Path.makePath_loop]. rewrite C1, Pc, C2.
    change (String c (name ++ dotted names)) with ((String c name) ++ dotted names)%string.
    rewrite (scan_name_plain (String c name) (dotted names) P).
    + rewrite IH by (assumption || lia). rewrite <- app_assoc. reflexivity.
    + destruct names; [right|left]; reflexivity.
Qed.

Lemma dotted_length (names : list string) :
  Forall plain_name names ->
  (2 * List.length names <= String.length (dotted names))%nat.
Proof.
  induction 1 as [|name names P F IH]; [cbn; lia|].
  cbn [dotted List.length String.length].
  destruct name as [|c name]; [contradiction P|].
  cbn [append String.length].
  assert (A : forall a b, String.length (a ++ b) = (String.length a + String.length b)%nat).
  { induction a as [|x a IHa]; intros b'; cbn; [reflexivity|]. rewrite IHa. reflexivity. }
  rewrite A. lia.
Qed.

(** X24: The path made of plain names, each after a dot, compiles to the
    Key steps of those names, in order, whatever the arguments. *)
Theorem Path_makePath_dotted_names (names : list string)
    (in_ : list PathArgument.t) :
  Forall plain_name names ->
  Path.makePath (dotted names) in_ = Some (map PathArgument.of_key names).
Proof.
  intros F. unfold Path.makePath.
  rewrite (makePath_loop_dotted names _ in_ 0%nat [] F); [reflexivity|].
  pose proof (dotted_length names F). lia.
Qed.

(** The path [.a.bc]. *)
Lemma Path_makePath_dotted_names_witness :
  Forall plain_name ["a"%string; "bc"%string]
  /\ Path.makePath ".a.bc" []
     = Some [PathArgument.of_key "a"; PathArgument.of_key "bc"].
Proof.
  assert (F : Forall plain_name ["a"%string; "bc"%string]).
  { repeat constructor. }
  split; [exact F|].
  exact (Path_makePath_dotted_names ["a"%string; "bc"%string] [] F).
Defined.

(* ------------------------------------------------------------------ *)
(** ** Paths: resolving *)

(** On a Null node [tryGet] finds nothing, by index or by name. *)
Lemma Value_tryGet_of_null (b : Build) (this : Value) (index : Z) (key : string) :
  type_ this = nullValue ->
  Value_tryGet_index b this index = Ok None
  /\ Value_tryGet_view b this key = Ok None.
Proof.
  intros T. destruct this as [[ |i|u|r|s|x|m|m] a]; try discriminate T.
  unfold Value_tryGet_index, Value_tryGet_view, JSONCPP_ASSERT, c_assert.
  destruct b as [[] []]; split; reflexivity.
Qed.

(** X25: [resolve(root)] on a Null root ends on a Null node for every path,
    in either build.  [resolve(root, defaultValue)] on a Null root gives
    the default as soon as the path has a Key step, and a Null node when
    it has none (an [ArrayIndex] is not negative). *)
Theorem Path_resolve_of_null (b : Build) (args_ : list PathArgument.t)
    (root defaultValue : Value) :
  type_ root = nullValue ->
  (exists node, Path.resolve_node b args_ root = Ok node /\ type_ node = nullValue)
  /\ ((exists arg, In arg args_ /\ PathArgument.kind_ arg = PathArgument.kindKey) ->
      Path.resolve_loop b args_ root defaultValue = Ok defaultValue)
  /\ ((forall arg, In arg args_ ->
         PathArgument.kind_ arg <> PathArgument.kindKey
         /\ 0 <= PathArgument.index_ arg) ->
      exists node, Path.resolve_loop b args_ root defaultValue = Ok node
                   /\ type_ node = nullValue).
Proof.
  revert root. induction args_ as [|arg rest IH]; intros root T.
  - split; [exists root; split; [reflexivity|exact T]|]. split.
    + intros (arg & [] & _).
    + intros _. exists root. split; [reflexivity|exact T].
  - assert (A : Value_isArray root = true /\ Value_isObject root = true
                /\ forall index, Value_isValidIndex root index
                                 = (index <? 0)).
    { destruct root as [[ |i|u|r|s|x|m|m] a]; try discriminate T. repeat split. }
    destruct A as (IA & IO & IV).
    destruct (Value_tryGet_of_null b root (PathArgument.index_ arg)
                (PathArgument.key_ arg) T) as [TI TV].
    destruct (IH null eq_refl) as (N1 & N2 & N3).
    destruct (IH root T) as (R1 & R2 & R3).
    cbn [Path.resolve_node Path.resolve_loop]. rewrite TI, TV, IA, IO.
    cbn [bind negb orb].
    destruct (PathArgument.kind_ arg) eqn:K.
    + (* no step *)
      split; [exact R1|]. split.
      * intros (arg' & [E|I] & K'); [subst; congruence|].
        apply R2. exists arg'. split; assumption.
      * intros H. apply R3. intros arg' I. apply H. right. exact I.
    + (* an Index step *)
      split; [exact N1|]. rewrite IV.
      destruct (PathArgument.index_ arg <? 0) eqn:Neg.
      * split; [intros _; reflexivity|].
        intros H. destruct (H arg (or_introl eq_refl)) as [_ P].
        apply Z.ltb_lt in Neg. lia.
      * split.
        -- intros (arg' & [E|I] & K'); [subst; congruence|].
           apply N2. exists arg'. split; assumption.
        -- intros H. apply N3. intros arg' I. apply H. right. exact I.
    + (* a Key step *)
      split; [exact N1|]. split; [intros _; reflexivity|].
      intros H. exfalso. apply (proj1 (H arg (or_introl eq_refl))). exact K.
Qed.

(** The Null root and the path of two steps. *)
Lemma Path_resolve_of_null_witness :
  type_ null = nullValue
  /\ exists node,
       Path.resolve_node checked
         [PathArgument.of_key "a"; PathArgument.of_index 3] null = Ok node
       /\ type_ node = nullValue.
Proof.
  split; [reflexivity|].
  exact (proj1 (Path_resolve_of_null checked
                  [PathArgument.of_key "a"; PathArgument.of_index 3]
                  null null eq_refl)).
Defined.

(** X26: A step that meets a node of the wrong type: an Index step on a node
    that is neither Null nor an Array, a Key step on a node that is
    neither Null nor an Object.  [resolve(root)] goes on to [tryGet],
    whose assertion fails in the checked build, where
    [resolve(root, defaultValue)] returns the default. *)
Theorem Path_resolve_node_asserts_the_type (arg : PathArgument.t)
    (rest : list PathArgument.t) (node defaultValue : Value) :
  (PathArgument.kind_ arg = PathArgument.kindIndex -> Value_isArray node = false ->
   Path.resolve_node checked (arg :: rest) node = Failed AssertionFailed
   /\ Path.resolve_loop checked (arg :: rest) node defaultValue = Ok defaultValue)
  /\ (PathArgument.kind_ arg = PathArgument.kindKey -> Value_isObject node = false ->
      Path.resolve_node checked (arg :: rest) node = Failed AssertionFailed
      /\ Path.resolve_loop checked (arg :: rest) node defaultValue = Ok defaultValue).
Proof.
  split; intros K T; cbn [Path.resolve_node Path.resolve_loop]; rewrite K, T;
    destruct node as [[ |i|u|r|s|x|m|m] a]; try discriminate T; split; reflexivity.
Qed.

(* ------------------------------------------------------------------ *)
(** ** Paths: [make], then [resolve] *)

(** A tree that is in order stays so when the allocator moves on. *)
Lemma tree_ok_mono (v : Value) :
  forall h h' : N, tree_ok h v -> (h <= h')%N -> tree_ok h' v.
Proof.
  apply (Value_nested_ind
           (fun v => forall h h' : N, tree_ok h v -> (h <= h')%N -> tree_ok h' v)).
  - intros p a S h h' T L. constructor. exact S.
  - intros m a F h h' T L. inversion T as [p a' S| m' a' Len Fm| m' a' A Fm]; subst.
    + contradiction S.
    + apply tree_ok_array; [exact Len|].
      rewrite Forall_forall in *. intros e I. destruct (Fm e I) as [K Te].
      split; [exact K|]. apply (F e I h h' Te L).
  - intros m a F h h' T L. inversion T as [p a' S| m' a' Len Fm| m' a' A Fm]; subst.
    + contradiction S.
    + apply tree_ok_object; [exact A|].
      rewrite Forall_forall in *. intros e I. destruct (Fm e I) as [K Te].
      split.
      * unfold key_below in *. destruct (cstr_ (fst e)); [lia|trivial].
      * apply (F e I h h' Te L).
Qed.

(** [operator[]] by index in the three shapes an Array built through it
    can have. *)
Lemma Value_subscript_index_shapes (b : Build) (a : bool) (index : Z) :
  Value_subscript_index b (mkValue holds_null a) index
  = Ok (mkValue (holds_array [(CZString_index index, null)]) a, 0%nat)
  /\ Value_subscript_index b (mkValue (holds_array []) a) index
     = Ok (mkValue (holds_array [(CZString_index index, null)]) a, 0%nat)
  /\ (forall k x,
        is_index_key k = true ->
        Value_tryGet_index b (mkValue (holds_array [(k, x)]) a) index = Ok (Some 0%nat)
        /\ Value_subscript_index b (mkValue (holds_array [(k, x)]) a) index
           = Ok (mkValue (holds_array [(k, x)]) a, 0%nat)).
Proof.
  split; [unfold Value_subscript_index, Value_tryGet_index, JSONCPP_ASSERT, c_assert;
          destruct b as [[] []]; reflexivity|].
  split; [unfold Value_subscript_index, Value_tryGet_index, JSONCPP_ASSERT, c_assert;
          destruct b as [[] []]; reflexivity|].
  intros k x K.
  assert (J : JSONCPP_ASSERT b (ValueType_eqb arrayValue nullValue
                                || ValueType_eqb arrayValue arrayValue) = Ok tt).
  { unfold JSONCPP_ASSERT, c_assert. destruct b as [[] []]; reflexivity. }
  assert (T : Value_tryGet_index b (mkValue (holds_array [(k, x)]) a) index
              = Ok (Some 0%nat)).
  { unfold Value_tryGet_index. cbn [type_ value_]. rewrite J. cbn [bind].
    change (ValueType_eqb arrayValue nullValue) with false. cbv iota.
    cbn [Value_map value_ bind]. rewrite (find_index_finds_first k x [] index K).
    reflexivity. }
  split; [exact T|].
  unfold Value_subscript_index. cbn [type_ value_]. rewrite J. cbn [bind].
  change (ValueType_eqb arrayValue nullValue) with false. cbv iota.
  rewrite T. reflexivity.
Qed.

(** An Index step of [make] on a tree in order, in the checked build:
    the node is afterwards an Array of the one entry returned. *)
Lemma Value_subscript_index_tree (node : Value) (index : Z) (h : N)
    (node1 : Value) (it : nat) :
  tree_ok h node ->
  Value_subscript_index checked node index = Ok (node1, it) ->
  exists k child a,
    node1 = mkValue (holds_array [(k, child)]) a /\ it = 0%nat
    /\ is_index_key k = true /\ tree_ok h child.
Proof.
  intros T E. inversion T as [p a S| m a Len Fm| m a A Fm]; subst.
  - destruct p; try contradiction; try discriminate E.
    rewrite (proj1 (Value_subscript_index_shapes checked a index)) in E.
    injection E as <- <-. exists (CZString_index index), null, a.
    repeat split. constructor. exact I.
  - destruct m as [|[k x] [|e m]]; [| |cbn in Len; lia].
    + rewrite (proj1 (proj2 (Value_subscript_index_shapes checked a index))) in E.
      injection E as <- <-. exists (CZString_index index), null, a.
      repeat split. constructor. exact I.
    + inversion Fm as [|e l [K Tx] _]; subst. cbn [fst snd] in *.
      rewrite (proj2 (proj2 (proj2 (Value_subscript_index_shapes checked a index))
                        k x K)) in E.
      injection E as <- <-. exists k, x, a. repeat split; assumption.
  - discriminate E.
Qed.

(** [operator[]] by name on an Object whose names ascend: either the
    member was there, and the store and the allocator are as they were,
    or the store has the new entry besides what it had. *)
Lemma Value_subscript_view_store (b : Build) (m : list (CZString * Value))
    (a : bool) (key : string) (h : allocator) (this1 : Value) (it : nat)
    (h1 : allocator) :
  names_ascend m -> key <> EmptyString -> has_nul key = false ->
  Z.of_nat (String.length key) < maxUInt ->
  Value_subscript_view b (mkValue (holds_object m) a) (Some key) h = Ok (this1, it, h1) ->
  (this1 = mkValue (holds_object m) a /\ h1 = h)
  \/ (h1 = N.succ h
      /\ exists m1, this1 = mkValue (holds_object m1) a
         /\ forall P : CZString * Value -> Prop,
              Forall P m ->
              P ({| cstr_ := Some {| addr := h; bytes := key |}; index_ := duplicate |},
                 null) ->
              Forall P m1).
Proof.
  intros A NE NN L.
  destruct (Value_read_view_member b m a key A) as [T _].
  assert (J : JSONCPP_ASSERT b (ValueType_eqb objectValue nullValue
                                || ValueType_eqb objectValue objectValue) = Ok tt).
  { unfold JSONCPP_ASSERT, c_assert. destruct b as [[] []]; reflexivity. }
  unfold Value_subscript_view. cbn [type_ value_]. rewrite J. cbn [bind].
  change (ValueType_eqb objectValue nullValue) with false. cbv iota.
  cbn [view_chars]. rewrite T.
  destruct (Nat.eqb (name_position m key) (List.length m)); cbn [bind].
  - cbn [Value_map value_ bind]. rewrite (CZString_view_text key h NE NN L).
    cbn [bind].
    pose proof (fun P => emplace_Forall P m
                  {| cstr_ := Some {| addr := h; bytes := key |}; index_ := duplicate |}
                  null) as EF.
    destruct (ObjectValues.emplace m
                {| cstr_ := Some {| addr := h; bytes := key |}; index_ := duplicate |}
                null) as [m1 it1].
    cbn [fst] in EF. intros E. injection E as <- <- <-.
    right. split; [reflexivity|]. exists m1. split; [reflexivity|exact EF].
  - intros E. injection E as <- <- <-. left. split; reflexivity.
Qed.

Lemma assign_at_position (m : list (CZString * Value)) (x : string)
    (it : nat) (v : Value) :
  name_position (ObjectValues.assign_at m it v) x = name_position m x.
Proof.
  revert it. induction m as [|[k v0] m IH]; intros [|it];
    cbn [ObjectValues.assign_at name_position]; try reflexivity.
  rewrite IH. reflexivity.
Qed.

Lemma assign_at_Forall_pairs (Q : CZString -> Prop) (R : Value -> Prop)
    (m : list (CZString * Value)) (it : nat) (v : Value) :
  Forall (fun e => Q (fst e) /\ R (snd e)) m -> R v ->
  Forall (fun e => Q (fst e) /\ R (snd e)) (ObjectValues.assign_at m it v).
Proof.
  intros F Rv. revert it. induction F as [|[k v0] m [Hq Hr] F IH]; intros [|it];
    cbn [ObjectValues.assign_at]; constructor; auto.
Qed.

(** The round trip of [make] and [resolve], step by step. *)
Lemma make_then_resolve_steps (args_ : list PathArgument.t) :
  forall (node : Value) (h : allocator) (node' : Value)
         (ref : list ObjectValues.iterator) (h' : allocator),
    tree_ok h node -> Forall step_ok args_ ->
    Path.make checked args_ node h = Ok (node', ref, h') ->
    exists found,
      Value_at_path node' ref = Some found
      /\ Path.resolve_node checked args_ node' = Ok found
      /\ tree_ok h' node' /\ (h <= h')%N.
Proof.
  induction args_ as [|arg rest IH]; intros node h node' ref h' T F M.
  - cbn in M. injection M as <- <- <-. exists node.
    repeat split; [exact T|lia].
  - inversion F as [|x l Sx F']; subst. cbn [Path.make] in M.
    cbn [Path.resolve_node]. unfold step_ok in Sx.
    destruct (PathArgument.kind_ arg) eqn:K.
    + (* no step *) apply (IH node h node' ref h' T F' M).
    + (* an Index step *)
      destruct (Value_subscript_index checked node (PathArgument.index_ arg))
        as [[node1 it]|f] eqn:E; [|discriminate M]. cbn [bind] in M.
      destruct (Value_subscript_index_tree node _ h node1 it T E)
        as (k & child & a & -> & -> & Kk & Tc).
      cbn [Value_at value_ ObjectValues.deref nth_error option_map snd] in M.
      destruct (Path.make checked rest child h) as [[[child' ref'] h'']|f] eqn:Mc;
        [|discriminate M].
      cbn [bind] in M. injection M as <- <- <-.
      destruct (IH child h child' ref' h'' Tc F' Mc) as (found & P1 & P2 & P3 & P4).
      exists found.
      cbn [Value_assign_at Value_with_map value_ allocated_ ObjectValues.assign_at].
      split; [exact P1|]. split.
      * rewrite (proj1 (proj2 (proj2 (Value_subscript_index_shapes checked a
                                        (PathArgument.index_ arg))) k child' Kk)).
        cbn [bind Value_at value_ ObjectValues.deref nth_error option_map snd].
        exact P2.
      * split; [|exact P4]. apply tree_ok_array; [cbn; lia|].
        repeat constructor; assumption.
    + (* a Key step *)
      destruct Sx as (NE & NN & L).
      assert (G : forall m a,
                names_ascend m ->
                Forall (fun e => key_below h (fst e) /\ tree_ok h (snd e)) m ->
                forall r,
                  Value_subscript_view checked (mkValue (holds_object m) a)
                    (Some (PathArgument.key_ arg)) h = Ok r ->
                  (let '(node1, it, h1) := r in
                   match Value_at node1 it with
                   | Some child =>
                       r' <- Path.make checked rest child h1 ;;
                       (let '(child', ref0, h'0) := r' in
                        Ok (Value_assign_at node1 it child', it :: ref0, h'0))
                   | None => Failed UndefinedBehaviour
                   end) = Ok (node', ref, h') ->
                  exists found,
                    Value_at_path node' ref = Some found
                    /\ (temp <- Value_tryGet_view checked node' (PathArgument.key_ arg) ;;
                        Path.resolve_node checked rest
                          match temp with
                          | Some it =>
                              match Value_at node' it with
                              | Some n => n
                              | None => null
                              end
                          | None => null
                          end) = Ok found
                    /\ tree_ok h' node' /\ (h <= h')%N).
      { clear T M. intros m a A Fm [[node1 it] h1] E M.
        assert (SF : storage_free h m).
        { eapply Forall_impl; [|exact Fm]. intros e [Kb _]. unfold key_below in Kb.
          destruct (cstr_ (fst e)); [lia|trivial]. }
        destruct (Value_subscript_view_object checked m a _ h A SF NE NN L)
          as (m1 & it1 & h1' & E' & I1 & I2 & I3 & _).
        rewrite E in E'. injection E' as -> -> ->.
        assert (Fm1 : (h <= h1')%N
                      /\ Forall (fun e => key_below h1' (fst e)
                                          /\ tree_ok h1' (snd e)) m1).
        { destruct (Value_subscript_view_store checked m a _ h _ _ _ A NE NN L E)
            as [[Em ->]|[-> (m1' & Em & Tr)]].
          - injection Em as ->. split; [lia|exact Fm].
          - injection Em as <-. split; [lia|]. apply Tr.
            + eapply Forall_impl; [|exact Fm]. intros e [Kb Te]. split.
              * unfold key_below in *. destruct (cstr_ (fst e)); [lia|trivial].
              * apply (tree_ok_mono _ h); [exact Te|lia].
            + split; [cbn; lia|constructor; exact I]. }
        destruct Fm1 as [Hle Fm1].
        destruct (Value_read_view_member checked m1 a (PathArgument.key_ arg) I1)
          as [T1 _].
        destruct (member_at_position m1 (PathArgument.key_ arg)) as (Q1 & _ & Q3).
        rewrite T1 in I2.
        destruct (Nat.eqb (name_position m1 (PathArgument.key_ arg)) (List.length m1))
          eqn:Q; [discriminate I2|].
        injection I2 as <-.
        assert (M1 : member m1 (PathArgument.key_ arg) <> None).
        { intros X. apply Q3 in X. discriminate X. }
        rewrite I3 in M.
        set (child := match member m (PathArgument.key_ arg) with
                      | Some v => v
                      | None => null
                      end) in *.
        assert (Tc : tree_ok h1' child).
        { unfold Value_at, ObjectValues.deref in I3. cbn [value_] in I3.
          destruct (nth_error m1 (name_position m1 (PathArgument.key_ arg)))
            as [[k c]|] eqn:Nth; [|discriminate I3].
          cbn in I3. injection I3 as ->.
          apply nth_error_In in Nth. rewrite Forall_forall in Fm1.
          apply (Fm1 _ Nth). }
        destruct (Path.make checked rest child h1') as [[[child' ref'] h'']|f] eqn:Mc;
          [|discriminate M].
        cbn [bind] in M. injection M as <- <- <-.
        destruct (IH child h1' child' ref' h'' Tc F' Mc) as (found & P1 & P2 & P3 & P4).
        destruct (assign_at_names m1 (PathArgument.key_ arg) child' I1 M1)
          as (J1 & J2 & _ & _).
        set (m2 := ObjectValues.assign_at m1
                     (name_position m1 (PathArgument.key_ arg)) child') in *.
        assert (Pos : name_position m2 (PathArgument.key_ arg)
                      = name_position m1 (PathArgument.key_ arg))
          by apply assign_at_position.
        assert (At : Value_at (mkValue (holds_object m2) a)
                       (name_position m1 (PathArgument.key_ arg)) = Some child').
        { unfold Value_at, ObjectValues.deref. cbn [value_]. rewrite <- Pos.
          rewrite (proj1 (member_at_position m2 (PathArgument.key_ arg))). exact J2. }
        exists found.
        change (Value_assign_at (mkValue (holds_object m1) a)
                  (name_position m1 (PathArgument.key_ arg)) child')
          with (mkValue (holds_object m2) a).
        split; [cbn [Value_at_path]; rewrite At; exact P1|]. split.
        - rewrite (proj1 (Value_read_view_member checked m2 a _ J1)), Pos.
          destruct (member_at_position m2 (PathArgument.key_ arg)) as (_ & _ & R3).
          destruct (Nat.eqb (name_position m1 (PathArgument.key_ arg)) (List.length m2))
            eqn:Q2.
          + rewrite <- Pos in Q2. rewrite (proj1 R3 Q2) in J2. discriminate J2.
          + cbn [bind]. rewrite At. exact P2.
        - split; [|lia]. apply tree_ok_object; [exact J1|].
          apply assign_at_Forall_pairs; [|exact P3].
          eapply Forall_impl; [|exact Fm1]. intros e [Kb Te]. split.
          + unfold key_below in *. destruct (cstr_ (fst e)); [lia|trivial].
          + apply (tree_ok_mono _ h1'); [exact Te|exact P4]. }
      inversion T as [p a S| m a Len Fm| m a A Fm]; subst.
      * destruct p; try contradiction; try discriminate M.
        rewrite Value_subscript_view_null in M.
        destruct (Value_subscript_view checked (mkValue (holds_object []) a)
                    (Some (PathArgument.key_ arg)) h) as [r|f] eqn:E;
          [|discriminate M].
        cbn [bind] in M.
        apply (G [] a (names_ascend_nil) (Forall_nil _) r E M).
      * discriminate M.
      * destruct (Value_subscript_view checked (mkValue (holds_object m) a)
                    (Some (PathArgument.key_ arg)) h) as [r|f] eqn:E;
          [|discriminate M].
        cbn [bind] in M.
        apply (G m a A Fm r E M).
Qed.

(** From a Null node [make] takes every step. *)
Lemma make_from_null (args_ : list PathArgument.t) :
  Forall step_ok args_ ->
  forall (node : Value) (h : allocator),
    type_ node = nullValue ->
    exists node' ref h', Path.make checked args_ node h = Ok (node', ref, h').
Proof.
  induction 1 as [|arg rest Sx F IH]; intros node h T.
  - eexists; eexists; eexists. reflexivity.
  - destruct node as [[ |i|u|r|s|x|m|m] a]; try discriminate T.
    cbn [Path.make]. unfold step_ok in Sx.
    destruct (PathArgument.kind_ arg).
    + apply IH. reflexivity.
    + rewrite (proj1 (Value_subscript_index_shapes checked a (PathArgument.index_ arg))).
      cbn [bind Value_at value_ ObjectValues.deref nth_error option_map snd].
      destruct (IH null h eq_refl) as (child' & ref' & h' & ->).
      eexists; eexists; eexists. reflexivity.
    + destruct Sx as (NE & NN & L). rewrite Value_subscript_view_null.
      destruct (Value_subscript_view_object checked [] a (PathArgument.key_ arg) h
                  names_ascend_nil (Forall_nil _) NE NN L)
        as (m1 & it & h1 & E & _ & _ & At & _).
      rewrite E. cbn [bind]. rewrite At. cbn [member].
      destruct (IH null h1 eq_refl) as (child' & ref' & h' & ->).
      eexists; eexists; eexists. reflexivity.
Qed.

(** X27: [make(root)], then [resolve(root)] with the same path, in the
    checked build, on a tree in order and a path whose names
    [operator[]] can take.  When [make] returns, [resolve] ends on the
    very node [make] returned a reference to, and the tree is still in
    order.  On a Null root [make] does return: it builds every node of
    the path. *)
Theorem Path_make_then_resolve (args_ : list PathArgument.t) (root : Value)
    (h : allocator) :
  tree_ok h root -> Forall step_ok args_ ->
  (forall root' ref h',
     Path.make checked args_ root h = Ok (root', ref, h') ->
     exists found,
       Value_at_path root' ref = Some found
       /\ Path.resolve_node checked args_ root' = Ok found
       /\ tree_ok h' root' /\ (h <= h')%N)
  /\ (type_ root = nullValue ->
      exists root' ref h', Path.make checked args_ root h = Ok (root', ref, h')).
Proof.
  intros T F. split.
  - intros root' ref h' M. apply (make_then_resolve_steps args_ root h root' ref h' T F M).
  - intros N. apply (make_from_null args_ F root h N).
Qed.

(** The path of the member [a] and, inside it, the element of index 2,
    made from a Null root: [make] returns, and [resolve] finds the node
    made. *)
Lemma Path_make_then_resolve_witness :
  let args_ := [PathArgument.of_key "a"; PathArgument.of_index 2] in
  tree_ok 5 null /\ Forall step_ok args_
  /\ exists root' ref h',
       Path.make checked args_ null 5%N = Ok (root', ref, h')
       /\ exists found,
            Value_at_path root' ref = Some found
            /\ Path.resolve_node checked args_ root' = Ok found
            /\ tree_ok h' root' /\ (5 <= h')%N.
Proof.
  intros args_.
  assert (T : tree_ok 5 null) by (constructor; exact I).
  assert (F : Forall step_ok args_).
  { repeat constructor; discriminate. }
  split; [exact T|]. split; [exact F|].
  destruct (Path_make_then_resolve args_ null 5%N T F) as [R M].
  destruct (M eq_refl) as (root' & ref & h' & E).
  exists root', ref, h'. split; [exact E|]. apply (R root' ref h' E).
Defined.

(** What [make] builds there. *)
Example Path_make_example :
  Path.make checked [PathArgument.of_key "a"; PathArgument.of_index 2] null 5%N
  = Ok (mkValue (holds_object
          [({| cstr_ := Some (mkCstr 5 "a"); index_ := duplicate |},
            mkValue (holds_array [(CZString_index 2, null)]) false)]) false,
        [0%nat; 0%nat], 6%N).
Proof. vm_compute. reflexivity. Qed.

(* ------------------------------------------------------------------ *)
(** ** A copy compares equal to its original *)

(** A key is equal to its copy. *)
Lemma CZString_eq_copy (k : CZString) (h : N) :
  CZString_eq k (fst (CZString_copy k h)) = true.
Proof.
  destruct k as [[c|] p]; unfold CZString_copy, CZString_eq; cbn [cstr_ index_];
    [|reflexivity].
  destruct (p =? noDuplication); cbn.
  - rewrite N.eqb_refl. reflexivity.
  - destruct (N.eqb (addr c) h); [reflexivity|].
    unfold strcmp. cbn. rewrite compare_chars_refl. reflexivity.
Qed.

(** A double that is not NaN is equal to itself. *)
Lemma SFeqb_refl (r : spec_float) : is_nan r = false -> SFeqb r r = true.
Proof.
  intros N. rewrite (proj1 (SFeqb_SFltb r r N N)), SFltb_irrefl. reflexivity.
Qed.

(** The stores of a container and of its copy are equal, entry by
    entry, when the nodes are. *)
Lemma ObjectValues_copy_equal (m : list (CZString * Value)) :
  Forall (fun e => forall h : N, nan_free (snd e) ->
                     Value_eq (snd e) (fst (Value_copy (snd e) h)) = true) m ->
  fold_right (fun e rest => nan_free (snd e) /\ rest) True m ->
  forall h : N,
    Nat.eqb (ObjectValues.size m)
            (ObjectValues.size (fst (ObjectValues.copy Value_copy m h))) = true
    /\ ObjectValues.equal Value_eq m (fst (ObjectValues.copy Value_copy m h)) = true.
Proof.
  induction 1 as [|[k v] r Hv _ IH]; intros NF h; cbn [ObjectValues.copy].
  - split; reflexivity.
  - cbn [fold_right snd] in NF. destruct NF as [Nv Nr].
    pose proof (CZString_eq_copy k h) as Ek.
    destruct (CZString_copy k h) as [k' h1]. cbn [fst] in Ek.
    specialize (Hv h1 Nv). cbn [snd] in Hv.
    destruct (Value_copy v h1) as [v' h2]. cbn [fst] in Hv.
    specialize (IH Nr h2).
    destruct (ObjectValues.copy Value_copy r h2) as [r' h3]. cbn [fst] in *.
    destruct IH as [I1 I2]. split.
    + unfold ObjectValues.size in *. cbn [List.length Nat.eqb]. exact I1.
    + cbn [ObjectValues.equal]. rewrite Ek, Hv. cbn [andb]. exact I2.
Qed.

Lemma Value_eq_copy (other : Value) :
  forall h : N, nan_free other ->
    Value_eq other (fst (Value_copy other h)) = true.
Proof.
  induction other as [v a S|m a IH|m a IH] using Value_nested_ind; intros h NF.
  - destruct v as [ |i|u|r|[s|]|x|m|m]; try contradiction; cbn in *.
    + reflexivity.
    + apply Z.eqb_refl.
    + apply Z.eqb_refl.
    + apply SFeqb_refl. exact NF.
    + unfold strcmp. cbn. rewrite compare_chars_refl. apply orb_true_r.
    + reflexivity.
    + destruct x; reflexivity.
  - destruct (ObjectValues_copy_equal m IH NF h) as [E1 E2].
    cbn [Value_copy value_]. 
    destruct (ObjectValues.copy Value_copy m h) as [m' h']. cbn [fst] in *.
    cbn [Value_eq type_ value_]. rewrite ValueType_eqb_refl. cbn [negb].
    rewrite E1. cbn [andb]. exact E2.
  - destruct (ObjectValues_copy_equal m IH NF h) as [E1 E2].
    cbn [Value_copy value_].
    destruct (ObjectValues.copy Value_copy m h) as [m' h']. cbn [fst] in *.
    cbn [Value_eq type_ value_]. rewrite ValueType_eqb_refl. cbn [negb].
    rewrite E1. cbn [andb]. exact E2.
Qed.

(** X28: The copy of a tree that holds no Real NaN compares equal to the
    tree: [other == copy] is true and [other != copy] false, for
    scalars, strings and containers alike, whatever storage the copy
    got.  A Real NaN is equal neither to its copy nor to itself. *)
Theorem Value_copy_equals_original (other : Value) (h : allocator) :
  nan_free other ->
  Value_eq other (fst (Value_copy other h)) = true
  /\ Value_ne other (fst (Value_copy other h)) = false
  /\ Value_eq (Value_of_double S754_nan)
       (fst (Value_copy (Value_of_double S754_nan) h)) = false
  /\ Value_eq (Value_of_double S754_nan) (Value_of_double S754_nan) = false.
Proof.
  intros NF. pose proof (Value_eq_copy other h NF) as E.
  split; [exact E|]. split; [unfold Value_ne; rewrite E; reflexivity|].
  split; reflexivity.
Qed.

(** The copy of an Object with a String member and an Array member. *)
Lemma Value_copy_equals_original_witness :
  let other :=
    mkValue (holds_object
      [({| cstr_ := Some (mkCstr 1 "a"); index_ := duplicate |},
        mkValue (holds_string (Some (mkCstr 2 "text"))) true);
       ({| cstr_ := Some (mkCstr 3 "b"); index_ := noDuplication |},
        mkValue (holds_array [(CZString_index 0, Value_of_double (double_of_Z 7))])
          false)]) false in
  nan_free other
  /\ Value_eq other (fst (Value_copy other 10%N)) = true.
Proof.
  intros other.
  assert (NF : nan_free other) by (cbn; repeat split).
  split; [exact NF|].
  exact (proj1 (Value_copy_equals_original other 10%N NF)).
Defined.

(* ------------------------------------------------------------------ *)
(** ** Members by name: [operator[]] with a [StaticString] *)

(** In an ascending store [find] by key returns the position of the
    entry of the key's name, when the pointers agree. *)
Lemma find_key_position (m : list (CZString * Value)) (x : CZString)
    (name : string) :
  names_ascend m -> key_name x = Some name ->
  Forall (fun e => ptr_agree (cstr_ (fst e)) (cstr_ x)) m ->
  ObjectValues.find_key m x = Ok (name_position m name).
Proof.
  intros A X G. induction A as [|k v n m K F A IH]; [reflexivity|].
  inversion G as [|e l G1 G2]; subst. cbn [fst] in G1.
  destruct (CZString_lt_names k x n name K X G1) as [L1 L2].
  unfold ObjectValues.find_view, ObjectValues.find_key, CZStringCompare.key_key in *.
  cbn [name_position]. rewrite (key_named_compare k n name K).
  destruct (compare_chars n name) eqn:C; cbn [is_Eq].
  - unfold ObjectValues.find. cbn [ObjectValues.lower_bound]. rewrite L1.
    cbn [is_Lt bind ObjectValues.deref nth_error]. rewrite L2.
    rewrite compare_chars_antisym, C. reflexivity.
  - rewrite find_cons_less by (rewrite L1; reflexivity).
    rewrite (IH G2). reflexivity.
  - unfold ObjectValues.find. cbn [ObjectValues.lower_bound]. rewrite L1.
    cbn [is_Lt bind ObjectValues.deref nth_error]. rewrite L2.
    rewrite compare_chars_antisym, C. cbn [CompOpp is_Lt bind].
    destruct (name_above_absent m n name F) as [-> _]; [|reflexivity].
    rewrite compare_chars_antisym, C. discriminate.
Qed.

(** The entry that [emplace] makes for a name that was not there holds
    the very key it was given. *)
Lemma emplace_In_new (m : list (CZString * Value)) (k : CZString)
    (name : string) (v : Value) :
  names_ascend m -> key_name k = Some name ->
  Forall (fun e => ptr_agree (cstr_ (fst e)) (cstr_ k)) m ->
  member m name = None ->
  In (k, v) (fst (ObjectValues.emplace m k v)).
Proof.
  intros A K G. induction A as [|k' v' n' m K' F A IH]; intros M.
  - left. reflexivity.
  - inversion G as [|e l G1 G2]; subst. cbn [fst] in G1.
    destruct (CZString_lt_names k' k n' name K' K G1) as [L1 L2].
    cbn [ObjectValues.emplace member] in *. rewrite L1, L2.
    rewrite (key_named_compare k' n' name K') in M.
    destruct (compare_chars n' name) eqn:C; cbn [is_Lt is_Eq] in *.
    + discriminate M.
    + specialize (IH G2 M).
      destruct (ObjectValues.emplace m k v) as [r' it]. cbn [fst] in *.
      right. exact IH.
    + rewrite compare_chars_antisym, C. cbn [CompOpp is_Lt fst]. left. reflexivity.
Qed.

(** [operator[](const StaticString&)] does on a Null node what it does
    on an Object without members. *)
Lemma Value_subscript_static_null (b : Build) (a : bool) (key : cstr)
    (h : allocator) :
  Value_subscript_static b (mkValue holds_null a) key h
  = Value_subscript_static b (mkValue (holds_object []) a) key h.
Proof.
  unfold Value_subscript_static, Value_resolveReference, JSONCPP_ASSERT, c_assert.
  destruct b as [[] []]; reflexivity.
Qed.

(** X29: [operator[]] with a [StaticString] on a Null node or on an Object
    whose names ascend: nothing is allocated.  The member of that name
    is returned when there is one; else a Null member is made under a
    key that holds the caller's pointer itself, with the policy
    [noDuplication].  Lookup by text finds the entry from then on, and
    the other members are as they were.  The empty static text is a
    name like any other. *)
Theorem Value_subscript_static_borrows (b : Build) (this : Value) (key : cstr)
    (h : allocator) :
  type_ this = nullValue \/ type_ this = objectValue ->
  names_ascend (entries this) ->
  Forall (fun e => ptr_agree (cstr_ (fst e)) (Some key)) (entries this) ->
  exists this' it,
    Value_subscript_static b this key h = Ok (this', it, h)
    /\ type_ this' = objectValue
    /\ names_ascend (entries this')
    /\ Value_tryGet_view b this' (bytes key) = Ok (Some it)
    /\ Value_at this' it
       = Some (match member (entries this) (bytes key) with
               | Some v => v
               | None => null
               end)
    /\ (member (entries this) (bytes key) = None ->
        In ({| cstr_ := Some key; index_ := noDuplication |}, null) (entries this'))
    /\ (forall other, other <> bytes key ->
        member (entries this') other = member (entries this) other).
Proof.
  intros T A G.
  assert (O : forall m a,
            names_ascend m ->
            Forall (fun e => ptr_agree (cstr_ (fst e)) (Some key)) m ->
            exists m' it,
              Value_subscript_static b (mkValue (holds_object m) a) key h
              = Ok (mkValue (holds_object m') a, it, h)
              /\ names_ascend m'
              /\ Value_tryGet_view b (mkValue (holds_object m') a) (bytes key)
                 = Ok (Some it)
              /\ Value_at (mkValue (holds_object m') a) it
                 = Some (match member m (bytes key) with Some v => v | None => null end)
              /\ (member m (bytes key) = None ->
                  In ({| cstr_ := Some key; index_ := noDuplication |}, null) m')
              /\ (forall other, other <> bytes key -> member m' other = member m other)).
  { clear this T A G. intros m a A G.
    set (k := {| cstr_ := Some key; index_ := noDuplication |}).
    assert (K : key_name k = Some (bytes key)) by reflexivity.
    destruct (member_at_position m (bytes key)) as (P1 & P2 & P3).
    assert (S : Value_subscript_static b (mkValue (holds_object m) a) key h
                = if Nat.eqb (name_position m (bytes key)) (List.length m)
                  then Ok (mkValue (holds_object (fst (ObjectValues.emplace m k null))) a,
                           snd (ObjectValues.emplace m k null), h)
                  else Ok (mkValue (holds_object m) a, name_position m (bytes key), h)).
    { assert (J : JSONCPP_ASSERT b (ValueType_eqb objectValue nullValue
                                    || ValueType_eqb objectValue objectValue) = Ok tt).
      { unfold JSONCPP_ASSERT, c_assert. destruct b as [[] []]; reflexivity. }
      unfold Value_subscript_static, Value_resolveReference.
      cbn [type_ value_]. rewrite J. cbn [bind].
      change (ValueType_eqb objectValue nullValue) with false. cbv iota.
      change (CZString_cstr key noDuplication h) with (k, h). cbv iota beta.
      unfold Value_tryGet_key. cbn [type_ value_]. rewrite J. cbn [bind].
      change (ValueType_eqb objectValue nullValue) with false. cbv iota.
      cbn [Value_map value_ bind]. rewrite (find_key_position m k (bytes key) A K G).
      cbn [bind]. unfold ObjectValues.end_.
      destruct (Nat.eqb (name_position m (bytes key)) (List.length m)); cbn [negb];
        [|reflexivity].
      change (CZString_copy k h) with (k, h). cbv iota beta.
      destruct (ObjectValues.emplace m k null) as [m' it]. reflexivity. }
    rewrite S. clear S.
    destruct (Nat.eqb (name_position m (bytes key)) (List.length m)) eqn:E.
    - pose proof (proj1 P3 eq_refl) as M.
      pose proof (emplace_names m k (bytes key) null A K G)
        as (I1 & I2 & I3 & I4 & _ & _).
      pose proof (emplace_In_new m k (bytes key) null A K G M) as I5.
      destruct (ObjectValues.emplace m k null) as [m' it].
      cbn [fst snd] in *. rewrite M in *.
      exists m', it. split; [reflexivity|]. split; [exact I1|].
      destruct (Value_read_view_member b m' a (bytes key) I1) as [T' _].
      destruct (member_at_position m' (bytes key)) as (Q1 & Q2 & Q3).
      destruct (Nat.eqb (name_position m' (bytes key)) (List.length m')) eqn:E'.
      { rewrite (proj1 Q3 eq_refl) in I3. discriminate. }
      split; [rewrite I2; exact T'|]. split.
      { unfold Value_at, ObjectValues.deref. cbn [value_]. rewrite I2, Q1. exact I3. }
      split; [intros _; exact I5|exact I4].
    - destruct (Value_read_view_member b m a (bytes key) A) as [T' _].
      rewrite E in T'.
      exists m, (name_position m (bytes key)).
      split; [reflexivity|]. split; [exact A|]. split; [exact T'|].
      destruct (member m (bytes key)) as [v|] eqn:M.
      + split.
        { unfold Value_at, ObjectValues.deref. cbn [value_]. rewrite P1. reflexivity. }
        split; [discriminate|reflexivity].
      + discriminate (proj2 P3 eq_refl). }
  destruct this as [[ |i|u|r|s|x|m|m] a]; cbn [type_ value_] in T;
    try (destruct T as [T|T]; discriminate T); unfold entries in *; cbn [value_] in *.
  - rewrite Value_subscript_static_null.
    destruct (O [] a A G) as (m' & it & E & I1 & I2 & I3 & I4 & I5).
    exists (mkValue (holds_object m') a), it. cbn [value_ type_].
    repeat split; assumption.
  - destruct (O m a A G) as (m' & it & E & I1 & I2 & I3 & I4 & I5).
    exists (mkValue (holds_object m') a), it. cbn [value_ type_].
    repeat split; assumption.
Qed.

(** [operator[]] with the static text [b] on the Object of the one
    member [a]. *)
Lemma Value_subscript_static_borrows_witness :
  let this := mkValue (holds_object
                [({| cstr_ := Some (mkCstr 1 "a"); index_ := duplicate |},
                  Value_of_Int 1)]) false in
  exists this' it,
    Value_subscript_static checked this (mkCstr 2 "b") 5%N = Ok (this', it, 5%N)
    /\ type_ this' = objectValue
    /\ names_ascend (entries this')
    /\ Value_tryGet_view checked this' "b" = Ok (Some it)
    /\ Value_at this' it
       = Some (match member (entries this) "b" with Some v => v | None => null end)
    /\ (member (entries this) "b" = None ->
        In ({| cstr_ := Some (mkCstr 2 "b"); index_ := noDuplication |}, null)
           (entries this'))
    /\ (forall other, other <> "b"%string ->
        member (entries this') other = member (entries this) other).
Proof.
  intros this.
  apply (Value_subscript_static_borrows checked this (mkCstr 2 "b") 5%N).
  - right; reflexivity.
  - econstructor; [reflexivity|constructor|constructor].
  - repeat constructor. cbn. discriminate.
Defined.

(* ------------------------------------------------------------------ *)
(** ** Iterators: stepping *)

(** An iterator on an entry of the store: [deref()] is the node of that
    entry, [increment()] leads to the next position, and [decrement()]
    leads back from there.  At [end()] both [deref()] and
    [increment()] are undefined, and so is [decrement()] at [begin()]. *)
Theorem ValueIteratorBase_steps (m : list (CZString * Value)) (it : nat) :
  let this := ValueIteratorBase.of_iterator it in
  ((it < List.length m)%nat ->
   ValueIteratorBase.increment m this = Ok (ValueIteratorBase.of_iterator (S it))
   /\ (exists e, nth_error m it = Some e
                 /\ ValueIteratorBase.deref m this = Ok (snd e))
   /\ (r <- ValueIteratorBase.increment m this ;; ValueIteratorBase.decrement r)
      = Ok this)
  /\ ((List.length m <= it)%nat ->
      ValueIteratorBase.increment m this = Failed UndefinedBehaviour
      /\ ValueIteratorBase.deref m this = Failed UndefinedBehaviour)
  /\ ValueIteratorBase.decrement (ValueIteratorBase.of_iterator 0%nat)
     = Failed UndefinedBehaviour
  /\ ValueIteratorBase.decrement ValueIteratorBase.default = Failed UndefinedBehaviour.
Proof.
  intros this. subst this.
  unfold ValueIteratorBase.increment, ValueIteratorBase.deref,
    ValueIteratorBase.decrement, ValueIteratorBase.of_iterator, ObjectValues.end_,
    ObjectValues.deref.
  cbn [ValueIteratorBase.current_ ValueIteratorBase.isNull_].
  split; [|split; [|split; reflexivity]].
  - intros L. apply Nat.ltb_lt in L. rewrite L. split; [reflexivity|].
    split; [|reflexivity].
    apply Nat.ltb_lt in L. destruct (nth_error m it) as [[k v]|] eqn:Nth.
    + exists (k, v). split; reflexivity.
    + apply nth_error_None in Nth. lia.
  - intros G. assert (L : Nat.ltb it (List.length m) = false) by (apply Nat.ltb_ge; exact G).
    rewrite L. split; [reflexivity|].
    apply nth_error_None in G. rewrite G. reflexivity.
Qed.

(** An iterator on the first of two entries. *)
Lemma ValueIteratorBase_steps_witness :
  let m := [({| cstr_ := Some (mkCstr 1 "a"); index_ := duplicate |}, Value_of_Int 1);
            ({| cstr_ := Some (mkCstr 2 "b"); index_ := duplicate |}, Value_of_Int 2)] in
  (0 < List.length m)%nat
  /\ ValueIteratorBase.increment m (ValueIteratorBase.of_iterator 0%nat)
     = Ok (ValueIteratorBase.of_iterator 1%nat)
  /\ ValueIteratorBase.deref m (ValueIteratorBase.of_iterator 0%nat) = Ok (Value_of_Int 1).
Proof.
  intros m.
  assert (L : (0 < List.length m)%nat) by (cbn; lia).
  split; [exact L|].
  split; [exact (proj1 (proj1 (ValueIteratorBase_steps m 0%nat) L))|reflexivity].
Defined.

(* ------------------------------------------------------------------ *)
(** ** Paths: the constructor returns, or does not *)

(** The path of two names and an index, which holds no NUL. *)
Lemma makePath_returns_witness :
  nul_free ".a.b[3]" = true
  /\ exists args_, Path.makePath ".a.b[3]" [] = Some args_.
Proof.
  assert (F : nul_free ".a.b[3]" = true) by reflexivity.
  split; [exact F|]. exact (makePath_returns ".a.b[3]" [] F).
Defined.

(* ------------------------------------------------------------------ *)
(** ** The properties above at work *)

(** [asDouble] on a String node. *)
Lemma Value_asDouble_succeeds_iff_convertible_witness :
  Value_isConvertibleTo (Value_of_StaticString (mkCstr 1 "1.5")) realValue = false
  /\ Value_asDouble checked (Value_of_StaticString (mkCstr 1 "1.5")) (S754_zero false)
     = Failed (RuntimeError "Type is not convertible to double")
  /\ Value_asDouble unchecked (Value_of_StaticString (mkCstr 1 "1.5")) (S754_zero false)
     = Ok (S754_zero false).
Proof.
  split; [reflexivity|].
  exact (proj2 (Value_asDouble_succeeds_iff_convertible
                  (Value_of_StaticString (mkCstr 1 "1.5")) (S754_zero false)) eq_refl).
Defined.

(** [asString] on the Int 12. *)
Lemma Value_asString_refuses_numbers_witness :
  type_ (Value_of_Int 12) = intValue
  /\ Value_isConvertibleTo (Value_of_Int 12) stringValue = true
  /\ Value_asString checked (Value_of_Int 12) "none"
     = Failed (RuntimeError "Type is not convertible to string")
  /\ Value_asString unchecked (Value_of_Int 12) "none" = Ok "none"%string.
Proof.
  split; [reflexivity|].
  exact (proj2 (proj2 (Value_asString_refuses_numbers (Value_of_Int 12) "none"))
           (or_introl eq_refl)).
Defined.

(** [operator[]] with the empty text on the Object of the one member
    [a]: the reference returned is that member. *)
Lemma Value_subscript_view_empty_name_witness :
  let k := {| cstr_ := Some (mkCstr 1 "a"); index_ := duplicate |} in
  key_name k = Some "a"%string
  /\ Value_subscript_view checked (mkValue (holds_object [(k, Value_of_Int 1)]) false)
       (Some EmptyString) 5%N
     = Ok (mkValue (holds_object [(k, Value_of_Int 1)]) false, 0%nat, 5%N).
Proof.
  intros k. split; [reflexivity|].
  refine (proj2 (proj2 (proj2 (proj2 (proj2 (proj2 (proj2
            (Value_subscript_view_empty_name checked false 5%N)))))))
            k (Value_of_Int 1) "a"%string eq_refl _).
  discriminate.
Defined.

(** [isMember] on an Array node. *)
Lemma Value_by_name_asserts_the_type_witness :
  type_ (Value_of_type arrayValue) <> nullValue
  /\ type_ (Value_of_type arrayValue) <> objectValue
  /\ Value_isMember_view checked (Value_of_type arrayValue) "a"
     = Failed AssertionFailed.
Proof.
  assert (N : type_ (Value_of_type arrayValue) <> nullValue) by discriminate.
  assert (O : type_ (Value_of_type arrayValue) <> objectValue) by discriminate.
  split; [exact N|]. split; [exact O|].
  exact (proj1 (proj2 (proj1 (Value_by_name_asserts_the_type
                                (Value_of_type arrayValue) "a" 5%N) N O))).
Defined.

(** [operator[](0)] on the Array whose one entry has the index 7. *)
Lemma Value_subscript_index_one_entry_witness :
  is_index_key (CZString_index 7) = true
  /\ Value_subscript_index checked
       (mkValue (holds_array [(CZString_index 7, Value_of_Int 1)]) false) 0
     = Ok (mkValue (holds_array [(CZString_index 7, Value_of_Int 1)]) false, 0%nat).
Proof.
  split; [reflexivity|].
  exact (proj2 (proj2 (proj2 (proj2 (proj2 (proj2 (proj2
           (Value_subscript_index_one_entry checked false 0))))
           (CZString_index 7) (Value_of_Int 1) 0 eq_refl)))).
Defined.


(** From [end()] back to [begin()] on a store of two entries. *)
Lemma ValueIteratorBase_computeDistance_forwards_only_witness :
  let m := [({| cstr_ := Some (mkCstr 1 "a"); index_ := duplicate |}, Value_of_Int 1);
            ({| cstr_ := Some (mkCstr 2 "b"); index_ := duplicate |}, Value_of_Int 2)] in
  (0 < 2)%nat
  /\ ValueIteratorBase.computeDistance m (ValueIteratorBase.of_iterator 2%nat)
       (ValueIteratorBase.of_iterator 0%nat) = Failed UndefinedBehaviour.
Proof.
  intros m. assert (L : (0 < 2)%nat) by lia.
  split; [exact L|].
  exact (proj2 (ValueIteratorBase_computeDistance_forwards_only m 2%nat 0%nat) L).
Defined.

(** A default-constructed [iterator] assigned [begin()] of a store. *)
Lemma ValueIterator_assignment_keeps_isNull_witness :
  let it := ValueIterator_assign ValueIteratorBase.default
              (ValueIteratorBase.of_iterator 0%nat) in
  ValueIteratorBase.isEqual it (ValueIteratorBase.of_iterator 0%nat) = Ok false
  /\ ValueIteratorBase.isEqual it ValueIteratorBase.default = Ok true.
Proof.
  intros it.
  exact (proj1 (proj2 (proj2 (proj2 (ValueIterator_assignment_keeps_isNull
                                       ValueIteratorBase.default
                                       (ValueIteratorBase.of_iterator 0%nat)))))
           eq_refl eq_refl).
Defined.

(** An iterator on the member [a] of an Object. *)
Lemma ValueIteratorBase_reports_the_key_witness :
  let k := {| cstr_ := Some (mkCstr 1 "a"); index_ := duplicate |} in
  let m := [(k, Value_of_Int 1)] in
  nth_error m 0 = Some (k, Value_of_Int 1)
  /\ ValueIteratorBase.memberName m (ValueIteratorBase.of_iterator 0%nat) = Ok "a"%string
  /\ exists h',
       ValueIteratorBase.index m (ValueIteratorBase.of_iterator 0%nat) 5%N
       = Ok (4294967295, h').
Proof.
  intros k m. split; [reflexivity|].
  pose proof (proj1 (ValueIteratorBase_reports_the_key m 0%nat 5%N)
                k (Value_of_Int 1) eq_refl) as R.
  cbn [cstr_ k] in R. split; [exact (proj1 R)|exact (proj1 (proj2 R))].
Defined.

(** An Index step on an Object node. *)
Lemma Path_resolve_node_asserts_the_type_witness :
  PathArgument.kind_ (PathArgument.of_index 0) = PathArgument.kindIndex
  /\ Value_isArray (Value_of_type objectValue) = false
  /\ Path.resolve_node checked [PathArgument.of_index 0] (Value_of_type objectValue)
     = Failed AssertionFailed
  /\ Path.resolve_loop checked [PathArgument.of_index 0] (Value_of_type objectValue)
       (Value_of_Int (-1)) = Ok (Value_of_Int (-1)).
Proof.
  split; [reflexivity|]. split; [reflexivity|].
  exact (proj1 (Path_resolve_node_asserts_the_type (PathArgument.of_index 0) []
                  (Value_of_type objectValue) (Value_of_Int (-1)))
           eq_refl eq_refl).
Defined.

(* ------------------------------------------------------------------ *)
(** ** Integers as doubles *)

(** Appending [k] zero bits to a mantissa. *)
Lemma iter_xO_spec (m k : positive) :
  Zpos (Pos.iter xO m k) = Zpos m * 2 ^ Zpos k
  /\ Zpos (digits2_pos (Pos.iter xO m k)) = Zpos (digits2_pos m) + Zpos k.
Proof.
  induction k as [|k [IH1 IH2]] using Pos.peano_ind.
  - cbn [Pos.iter digits2_pos]. split; [lia|]. rewrite Pos2Z.inj_succ. lia.
  - rewrite Pos.iter_succ. cbn [digits2_pos].
    rewrite !Pos2Z.inj_succ, Z.pow_succ_r by lia.
    rewrite Pos2Z.inj_xO, IH1, IH2. split; lia.
Qed.

(** Rounding an integer of fewer than 54 bits to a double changes
    nothing: the mantissa is the integer with zero bits appended to make
    53 bits. *)
Lemma binary_round_exact (s : bool) (m : positive) :
  Zpos m < 2 ^ 53 ->
  exists (mz : positive) (ez : Z),
    binary_round 53 1024 s m 0 = S754_finite s mz ez
    /\ -52 <= ez <= 0
    /\ Zpos mz = Zpos m * 2 ^ (- ez)
    /\ Zpos (digits2_pos mz) = 53.
Proof.
  intros B.
  pose proof (digits2_pos_bound m) as [Lo _].
  assert (D : 1 <= Zpos (digits2_pos m) <= 53).
  { split; [lia|].
    destruct (Z.le_gt_cases (Zpos (digits2_pos m)) 53) as [H|H]; [exact H|].
    assert (2 ^ 53 <= 2 ^ (Zpos (digits2_pos m) - 1)) by (apply Z.pow_le_mono_r; lia).
    lia. }
  assert (G : forall (mz : positive) (ez : Z),
            -52 <= ez <= 0 -> Zpos (digits2_pos mz) = 53 ->
            binary_round_aux 53 1024 s (Zpos mz) ez loc_Exact = S754_finite s mz ez).
  { intros mz ez E Dz. unfold binary_round_aux, shr_fexp, shr, Zdigits2, fexp, emin.
    cbn [shr_record_of_loc]. rewrite Dz.
    replace (Z.max (53 + ez - 53) (3 - 1024 - 53) - ez) with 0 by lia.
    cbn [shr_m loc_of_shr_record round_nearest_even Zdigits2 shr_record_of_loc].
    rewrite Dz.
    replace (Z.max (53 + ez - 53) (3 - 1024 - 53) - ez) with 0 by lia.
    cbn [shr_m].
    destruct (Z.leb_spec ez (1024 - 53)) as [_|X]; [reflexivity|lia]. }
  unfold binary_round, shl_align, fexp, emin.
  replace (Z.max (Zpos (digits2_pos m) + 0 - 53) (3 - 1024 - 53))
    with (Zpos (digits2_pos m) - 53) by lia.
  destruct (Zpos (digits2_pos m) - 53 - 0) as [|p|p] eqn:E.
  - exists m, 0. rewrite G by lia.
    repeat split; try lia.
  - lia.
  - destruct (iter_xO_spec m p) as [V Dg].
    exists (Pos.iter xO m p), (Zpos (digits2_pos m) - 53).
    rewrite G by lia.
    split; [reflexivity|]. split; [lia|]. split; [|lia].
    rewrite V. f_equal. f_equal. lia.
Qed.

(** An integer of magnitude below 2^53 as a double: a binary64 value
    that stands for the very integer, and whose integer part it is. *)
Lemma double_of_Z_exact (z : Z) :
  - 2 ^ 53 < z < 2 ^ 53 ->
  is_double (double_of_Z z)
  /\ double_scaled (double_of_Z z) = Some (scaled z)
  /\ double_trunc (double_of_Z z) = Some z.
Proof.
  intros B.
  assert (G : forall (s : bool) (m : positive),
            Zpos m < 2 ^ 53 ->
            is_double (binary_round 53 1024 s m 0)
            /\ double_scaled (binary_round 53 1024 s m 0)
               = Some (scaled (cond_Zopp s (Zpos m)))
            /\ double_trunc (binary_round 53 1024 s m 0) = Some (cond_Zopp s (Zpos m))).
  { intros s m Bm. destruct (binary_round_exact s m Bm) as (mz & ez & -> & E & V & Dg).
    assert (P : 0 < 2 ^ (- ez)) by (apply Z.pow_pos_nonneg; lia).
    split; [|split].
    - unfold is_double, valid_binary, bounded, canonical_mantissa, fexp, emin.
      rewrite Dg. apply andb_true_iff. split.
      + apply Z.eqb_eq. lia.
      + apply Z.leb_le. lia.
    - cbn [double_scaled]. f_equal. unfold scaled. rewrite V.
      replace 1074 with (- ez + (ez + 1074)) at 2 by lia.
      rewrite (Z.pow_add_r 2 (- ez) (ez + 1074)) by lia.
      destruct s; cbn [cond_Zopp]; lia.
    - cbn [double_trunc]. f_equal. f_equal.
      destruct (Z.leb_spec 0 ez) as [Z0|Z0].
      + replace ez with 0 in * by lia. cbn in V. lia.
      + rewrite V. apply Z.div_mul. lia. }
  unfold double_of_Z, binary_normalize. destruct z as [|m|m].
  - repeat split.
  - apply (G false m). lia.
  - apply (G true m). lia.
Qed.

(** X30: [asDouble] on an Int or UInt node of magnitude below 2^53 is exact:
    the double returned stands for the very integer.  Converted back, a
    Real node of that double gives the integer again with [asInt] when
    it is an [Int], and with [asUInt] when it is a [UInt]. *)
Theorem Value_asDouble_exact_on_integers (b : Build) (z : Z)
    (defaultValue : spec_float) :
  - 2 ^ 53 < z < 2 ^ 53 ->
  exists r,
    Value_asDouble b (Value_of_Int z) defaultValue = Ok r
    /\ is_double r
    /\ double_scaled r = Some (scaled z)
    /\ (0 <= z -> Value_asDouble b (Value_of_UInt z) defaultValue = Ok r)
    /\ (minInt <= z <= maxInt -> Value_asInt checked (Value_of_double r) 0 = Ok z)
    /\ (0 <= z <= maxUInt -> Value_asUInt checked (Value_of_double r) 0 = Ok z).
Proof.
  intros B. destruct (double_of_Z_exact z B) as (V & S & T).
  exists (double_of_Z z). split; [reflexivity|]. split; [exact V|].
  split; [exact S|]. split; [intros _; reflexivity|].
  assert (P : 0 < 2 ^ 1074) by (apply Z.pow_pos_nonneg; lia).
  split.
  - intros R. unfold Value_of_double. rewrite Value_asInt_real.
    assert (W : double_within minInt maxInt (double_of_Z z)).
    { exists (scaled z). split; [exact S|]. unfold scaled. nia. }
    apply (Int_range_test _ V) in W as [Lo Hi]. rewrite Lo, Hi. cbn [andb].
    unfold Int_of_double. rewrite T.
    destruct (Z.leb_spec minInt z), (Z.leb_spec z maxInt); cbn [andb];
      (reflexivity || lia).
  - intros R. unfold Value_of_double. rewrite Value_asUInt_real.
    assert (W : double_within 0 maxUInt (double_of_Z z)).
    { exists (scaled z). split; [exact S|]. unfold scaled. nia. }
    apply (UInt_range_test _ V) in W as [Lo Hi]. rewrite Lo, Hi. cbn [andb].
    unfold UInt_of_double. rewrite T.
    destruct (Z.leb_spec 0 z), (Z.leb_spec z maxUInt); cbn [andb];
      (reflexivity || lia).
Qed.

(** The Int -7 as a double, and back. *)
Lemma Value_asDouble_exact_on_integers_witness :
  - 2 ^ 53 < -7 < 2 ^ 53
  /\ exists r,
       Value_asDouble checked (Value_of_Int (-7)) (S754_zero false) = Ok r
       /\ is_double r
       /\ double_scaled r = Some (scaled (-7))
       /\ Value_asInt checked (Value_of_double r) 0 = Ok (-7).
Proof.
  assert (B : - 2 ^ 53 < -7 < 2 ^ 53) by (split; reflexivity).
  split; [exact B|].
  destruct (Value_asDouble_exact_on_integers checked (-7) (S754_zero false) B)
    as (r & E & V & S & _ & I & _).
  exists r. split; [exact E|]. split; [exact V|]. split; [exact S|].
  apply I. split; discriminate.
Defined.
